(** * OCFL entity resolution and the two-phase walk

    A shallow embedding of the file driver's walk engine ([scope],
    [newScope], [walk], [walkObject], [walkVersions], [contains], [fsWalk])
    and of [resolv.EntityRef] with its [Coords] method, followed by the
    properties of the walk that the design document states.

    Go values are modelled as follows.
    - [*EntityRef] is [option EntityRef]; entity references are never
      mutated, so an aliased pointer and a copy are the same value.
    - A function returning [error] runs in the monad [M]: it threads the
      state of the caller's callback and a log of collaborator calls, and
      ends in [Done], [Failed] (a non-nil [error]) or [Panic] (nil
      dereference).
    - A Go map that is only ranged over and looked up is an association
      list; the order of the list is the order of one iteration. *)

From Stdlib Require Import String Ascii List ZArith Bool Lia.
Import ListNotations.
Set Warnings "-register-all".
Local Open Scope string_scope.
Local Open Scope Z_scope.

(** ** Package ocfl: entity types *)

Module ocfl.

(** The six constants of [ocfl.Type] that the walk mentions.  The
    declaration itself (and with it the numeric value of each constant)
    is not part of the sources at hand; the numeric values are a
    parameter of the development, see [Env.rank]. *)
Inductive Type' : Set :=
| Any | Root | Intermediate | Object | Version | File.

Definition eqb (a b : Type') : bool :=
  match a, b with
  | Any, Any | Root, Root | Intermediate, Intermediate
  | Object, Object | Version, Version | File, File => true
  | _, _ => false
  end.

End ocfl.

(** ** Package resolv: entity references *)

Module resolv.

(** [type EntityRef struct { ID, Addr string; Parent *EntityRef; Type ocfl.Type }] *)
Inductive EntityRef : Set := mkEntityRef {
  ID : string;
  Addr : string;
  Parent : option EntityRef;
  Type' : ocfl.Type'
}.

(** The zero value of the struct, with only [Type] populated:
    [EntityRef{Type: t}]. *)
Definition bare (t : ocfl.Type') : EntityRef :=
  {| ID := EmptyString; Addr := EmptyString; Parent := None; Type' := t |}.

(** The loop of [Coords]: [ref] is the loop variable (non-nil here),
    [coords] the slice built so far; each iteration prepends [ref.ID]. *)
Fixpoint CoordsFrom (ref : EntityRef) (coords : list string) : list string :=
  if ocfl.eqb (Type' ref) ocfl.Root then coords
  else
    let coords := ID ref :: coords in
    match Parent ref with
    | Some p => CoordsFrom p coords
    | None => coords
    end.

(** [func (e EntityRef) Coords() []string] *)
Definition Coords (e : EntityRef) : list string := CoordsFrom e [].

(** The chain of references reached by following [Parent], the entity
    first. *)
Fixpoint chain (e : EntityRef) : list EntityRef :=
  e :: match Parent e with
       | Some p => chain p
       | None => []
       end.

End resolv.

Export resolv.

(** ** Errors *)

(** [godirwalk.ErrorAction] *)
Inductive ErrorAction : Set := Halt | SkipNode.

(** Go [error] values that occur in the walk.  [Foreign] stands for an
    error value made outside the walk engine (by the caller's callback,
    the probe, the manifest reader or the operating system): it is kept
    opaque, known by its message only, and what is inside it is not
    modelled; it is never a [skip] value, whose type the package does
    not export.  [Errorf] is [fmt.Errorf] (and [errors.Errorf]); [Wrap]
    is [errors.Wrap]/[errors.Wrapf] of github.com/pkg/errors; [skip] is
    the package's own [skip] type. *)
Inductive error : Set :=
| Foreign (msg : string)
| Errorf (msg : string)
| Wrap (cause : error) (msg : string)
| skip (action : ErrorAction).

(** [err.Error()] *)
Fixpoint Error (e : error) : string :=
  match e with
  | Foreign m => m
  | Errorf m => m
  | Wrap c m => m ++ ": " ++ Error c
  | skip _ => "node is skipped"
  end.

(** [errors.Cause(err)], for the layers that the walk itself has put
    around an error: it stops at a [Foreign] value, where
    github.com/pkg/errors goes on if that value has a [Cause] method of
    its own.  This decides what [fsWalk] asks of it, whether the cause is
    a [skip] value; which value lies inside a [Foreign] error is not read
    off it. *)
Fixpoint Cause (e : error) : error :=
  match e with
  | Wrap c _ => Cause c
  | _ => e
  end.

(** ** Package metadata: the part of an inventory the walk reads *)

Module metadata.

(** [metadata.File]: the two fields the walk reads. *)
Record File : Set := mkFile {
  LogicalPath : string;
  PhysicalPath : string
}.

(** [metadata.Version]: the walk never reads a field of it; [tt] is its
    zero value [{}]. *)
Definition Version : Set := unit.

(** [metadata.Inventory]: [ID], the [Versions] map and the [Files]
    method, which returns a listing and an error. *)
Record Inventory : Set := mkInventory {
  inv_ID : string;
  Versions : list (string * Version);
  Files : string -> list File * option string
}.

End metadata.

(** [_, ok := versions[k]] *)
Definition hasKey {V : Type} (m : list (string * V)) (k : string) : bool :=
  existsb (fun kv => String.eqb (fst kv) k) m.

(** ** The directory tree seen by godirwalk *)

(** File mode type of a directory entry: a regular file, a directory, or
    a symbolic link (with whether it resolves to a directory). *)
Inductive Mode : Set :=
| ModeRegular
| ModeDir
| ModeSymlink (toDir : bool).

(** A directory entry together with what lies below it: [ospath] is the
    path handed to the callback, [readErr] the failure (if any) of
    stat-ing the link target or reading the directory, [entries] the
    children in the order the directory is read. *)
Inductive Dirent : Set := mkDirent {
  ospath : string;
  mode : Mode;
  readErr : option string;
  entries : list Dirent
}.

Definition IsDir (e : Dirent) : bool :=
  match mode e with ModeDir => true | _ => false end.

Definition IsSymlink (e : Dirent) : bool :=
  match mode e with ModeSymlink _ => true | _ => false end.

(** ** What the walk depends on and is not part of the sources *)

(** - [rank]: the numeric value of each [ocfl.Type] constant, which
      decides [<] and [<=] on types.
    - [findRoot], [isRoot], [readMetadata]: functions of the file driver
      defined outside the walk; an error they return is a [Foreign] one,
      and [findRoot] returns either an error or a non-nil reference.
    - [stat]: [os.Stat] on the start directory, giving the tree below it.
    - [Join], [ToSlash]: [filepath.Join] and [filepath.ToSlash]. *)
Record Env : Type := mkEnv {
  rank : ocfl.Type' -> Z;
  findRoot : EntityRef -> ocfl.Type' -> string + EntityRef;
  isRoot : string -> ocfl.Type' -> bool * string * option string;
  readMetadata : string -> string + metadata.Inventory;
  stat : string -> string + Dirent;
  Join : string -> string -> string;
  ToSlash : string -> string
}.

(** [a < b] and [a <= b] on [ocfl.Type]. *)
Definition ltType (w : Env) (a b : ocfl.Type') : bool := rank w a <? rank w b.
Definition leType (w : Env) (a b : ocfl.Type') : bool := rank w a <=? rank w b.

(** [strings.TrimPrefix(s, prefix)] *)
Definition TrimPrefix (s pre : string) : string :=
  if String.prefix pre s
  then String.substring (String.length pre) (String.length s - String.length pre) s
  else s.

(** ** The monad of the walk *)

(** What the walk does to the outside, in order: calls of the probe, of
    the manifest reader and of the operating system, and calls of the
    caller's callback. *)
Inductive Event : Set :=
| EvFindRoot (ref : EntityRef) (t : ocfl.Type')
| EvIsRoot (path : string) (t : ocfl.Type')
| EvReadMetadata (path : string)
| EvStat (path : string)
| EvReadDir (path : string)
| EvCallback (r : EntityRef).

(** The state threaded through a walk: the log of events so far (oldest
    first) and the state of the caller's callback. *)
Record State (St : Type) : Type := mkState {
  log : list Event;
  user : St
}.
Arguments mkState {St} _ _.
Arguments log {St} _.
Arguments user {St} _.

(** How a Go function ends: it returns (with a nil error), it returns a
    non-nil error, or it panics on a nil pointer. *)
Inductive Outcome (A : Type) : Type :=
| Done (a : A)
| Failed (e : error)
| Panic.
Arguments Done {A} _.
Arguments Failed {A} _.
Arguments Panic {A}.

Definition M (St A : Type) : Type := State St -> Outcome A * State St.

Section Monad.
Context {St : Type}.

Definition ret {A} (a : A) : M St A := fun st => (Done a, st).

Definition bind {A B} (m : M St A) (k : A -> M St B) : M St B :=
  fun st =>
    match m st with
    | (Done a, st') => k a st'
    | (Failed e, st') => (Failed e, st')
    | (Panic, st') => (Panic, st')
    end.

(** [return err] with a non-nil [err]. *)
Definition fail {A} (e : error) : M St A := fun st => (Failed e, st).

(** Dereference of a nil pointer. *)
Definition panic {A} : M St A := fun st => (Panic, st).

Definition emit (ev : Event) : M St unit :=
  fun st => (Done tt, mkState (log st ++ [ev]) (user st)).

(** Run [m] and hand its error, if any, to the caller as a value: the
    Go caller that receives [(x, err)] and inspects [err]. *)
Definition attempt {A} (m : M St A) : M St (error + A) :=
  fun st =>
    match m st with
    | (Done a, st') => (Done (inr a), st')
    | (Failed e, st') => (Done (inl e), st')
    | (Panic, st') => (Panic, st')
    end.

(** [if c { m }] *)
Definition when (c : bool) (m : M St unit) : M St unit :=
  if c then m else ret tt.

(** [for _, x := range l { body }]; a [continue] is a body that
    returns early with [ret tt]. *)
Fixpoint forEach {A} (l : list A) (body : A -> M St unit) : M St unit :=
  match l with
  | [] => ret tt
  | x :: l' => bind (body x) (fun _ => forEach l' body)
  end.

(** [x, err := g(...); if err != nil { return err }] for a
    collaborator [g] whose result is already at hand. *)
Definition orFail {A} (r : string + A) : M St A :=
  match r with
  | inl e => fail (Foreign e)
  | inr a => ret a
  end.

(** The caller's callback [f func(resolv.EntityRef) error]: a function
    of the entity and of the caller's own state. *)
Definition callback : Type := EntityRef -> St -> option string * St.

(** [err := f(r); if err != nil { return err }] *)
Definition call (f : callback) (r : EntityRef) : M St unit :=
  fun st =>
    let st1 := mkState (log st ++ [EvCallback r]) (user st) in
    match f r (user st) with
    | (None, u) => (Done tt, mkState (log st1) u)
    | (Some e, u) => (Failed (Foreign e), mkState (log st1) u)
    end.

End Monad.

Declare Scope walk_scope.
Delimit Scope walk_scope with walk.
Notation "x <- m ;; k" := (bind m (fun x => k))
  (at level 61, m at next level, right associativity) : walk_scope.
Notation "m ;; k" := (bind m (fun _ => k))
  (at level 61, right associativity) : walk_scope.
Local Open Scope walk_scope.

(** ** godirwalk.Walk *)

Module godirwalk.
Section Walk.
Context {St : Type}.
Variable Callback : string -> Dirent -> M St (option error).
Variable ErrorCallback : string -> error -> ErrorAction.

(** An error met at a node is shown to [ErrorCallback]: [SkipNode]
    leaves the node (and what is below it) and goes on with its
    siblings, [Halt] ends the walk with that error. *)
Definition onError (osPathname : string) (err : error) : M St unit :=
  match ErrorCallback osPathname err with
  | SkipNode => ret tt
  | Halt => fail err
  end.

(** The recursive walk with [FollowSymbolicLinks] set and [Unsorted]
    set (children are taken in the order the directory yields them):
    the callback sees the node first; a directory, or a symbolic link
    to one, is then read and its children are walked in turn. *)
Fixpoint walk (d : Dirent) : M St unit :=
  err <- Callback (ospath d) d ;;
  match err with
  | Some e => onError (ospath d) e
  | None =>
    let descend :=
      emit (EvReadDir (ospath d)) ;;
      match readErr d with
      | Some e => onError (ospath d) (Foreign e)
      | None =>
        (fix children (l : list Dirent) : M St unit :=
           match l with
           | [] => ret tt
           | c :: l' => walk c ;; children l'
           end) (entries d)
      end in
    match mode d with
    | ModeRegular => ret tt
    | ModeDir => descend
    | ModeSymlink toDir =>
      emit (EvStat (ospath d)) ;;
      match readErr d with
      | Some e => onError (ospath d) (Foreign e)
      | None => if toDir then descend else ret tt
      end
    end
  end.

(** [godirwalk.Walk(pathname, options)] on the tree [root] that
    [os.Stat] finds at [pathname] (links followed, as
    [FollowSymbolicLinks] is set; [fsWalk] has asked the same just
    before): what is found must be a directory, or else [Walk] returns
    an error before the callback is called. *)
Definition Walk (pathname : string) (root : Dirent) : M St unit :=
  if IsDir root then walk root
  else fail (Errorf ("cannot Walk non-directory: " ++ pathname)).

End Walk.
End godirwalk.

(** ** Package file: scopes and the walk *)

Definition dontGoDeeper : bool := true.
Definition goDeeper : bool := false.

(** [type scope struct { root, startFrom, desired *resolv.EntityRef }];
    the three pointers of a scope made by [newScope] are non-nil. *)
Record scope : Set := mkScope {
  root : EntityRef;
  startFrom : EntityRef;
  desired : EntityRef
}.

(** The loop of [contains]:
    [for a, b := s.desired, &r; a.Parent != nil && b.Parent != nil;
         a, b = a.Parent, b.Parent { if a.ID != b.ID { return false } }];
    [true] when the loop runs to its end, [false] when it returns early. *)
Fixpoint sameCoords (a b : EntityRef) : bool :=
  match Parent a, Parent b with
  | Some pa, Some pb =>
    if negb (String.eqb (ID a) (ID b)) then false else sameCoords pa pb
  | _, _ => true
  end.

(** [func (s scope) contains(r resolv.EntityRef) bool] *)
Definition contains (w : Env) (s : scope) (r : EntityRef) : bool :=
  if ocfl.eqb (Type' (desired s)) ocfl.Any then true
  else if negb (ocfl.eqb (Type' r) (Type' (startFrom s)))
  then ocfl.eqb (Type' (desired s)) (Type' r)
  else if negb (sameCoords (desired s) r) then false
  else leType w (Type' r) (Type' (desired s)).

Section File.
Context {St : Type}.
Variable w : Env.

(** A call of [findRoot], recorded in the log. *)
Definition callFindRoot (ref : EntityRef) (t : ocfl.Type')
  : M St (string + EntityRef) :=
  emit (EvFindRoot ref t) ;; ret (findRoot w ref t).

(** [func newScope(under *resolv.EntityRef, t ocfl.Type)], which returns
    a scope or an error. *)
Definition newScope (under : EntityRef) (t : ocfl.Type') : M St scope :=
  r <- callFindRoot under ocfl.Root ;;
  root <- orFail r ;;
  let desired := bare t in
  let desired := if ocfl.eqb (Type' under) t then under else desired in
  ret {| root := root; startFrom := under; desired := desired |}.

(** The [Callback] that [fsWalk] gives to godirwalk: an error of [f]
    is wrapped, a terminal node becomes a [skip] error. *)
Definition fsCallback (f : string -> Dirent -> M St bool)
  : string -> Dirent -> M St (option error) :=
  fun ospath dirent =>
    r <- attempt (f ospath dirent) ;;
    match r with
    | inl err => ret (Some (Wrap err "terminating walk due to error"))
    | inr terminal =>
      if terminal then ret (Some (skip SkipNode)) else ret None
    end.

(** The [ErrorCallback] that [fsWalk] gives to godirwalk. *)
Definition fsErrorCallback : string -> error -> ErrorAction :=
  fun ospath err =>
    match Cause err with
    | skip action => action
    | _ => Halt
    end.

(** [func fsWalk(dir string, f fsCallback) error]: [os.Stat], then
    [godirwalk.Walk] with the two callbacks of the options. *)
Definition fsWalk (dir : string) (f : string -> Dirent -> M St bool)
  : M St unit :=
  emit (EvStat dir) ;;
  match stat w dir with
  | inl err => fail (Wrap (Foreign err) ("error walking directory " ++ dir))
  | inr tree => godirwalk.Walk (fsCallback f) fsErrorCallback dir tree
  end.

Variable f : @callback St.

(** The head of [walkVersions]: the versions to range over.  When the
    walk was entered at a version or a file, only the version of the
    entry point, which must be in the manifest. *)
Definition selectVersions (s : scope) (inv : metadata.Inventory)
           (object : EntityRef) : M St (list (string * metadata.Version)) :=
  let versions := metadata.Versions inv in
  if ocfl.eqb (Type' (startFrom s)) ocfl.Version
     || ocfl.eqb (Type' (startFrom s)) ocfl.File
  then
    r <- callFindRoot (startFrom s) ocfl.Version ;;
    match r with
    | inl _ => panic (* [scopeVersion] is nil and [scopeVersion.ID] is read *)
    | inr scopeVersion =>
      if negb (hasKey versions (ID scopeVersion))
      then fail (Errorf ("No version " ++ ID scopeVersion
                           ++ " exists in " ++ ID object))
      else ret [(ID scopeVersion, tt)]
    end
  else ret versions.

(** The body of [for _, file := range files]. *)
Definition walkFile (s : scope) (object version : EntityRef)
           (file : metadata.File) : M St unit :=
  let fileRef := {| ID := metadata.LogicalPath file;
                    Type' := ocfl.File;
                    Parent := Some version;
                    Addr := Join w (Addr object)
                                 (metadata.PhysicalPath file) |} in
  if negb (contains w s fileRef) then ret tt (* continue *)
  else call f fileRef.

(** The body of [for vID := range versions]. *)
Definition walkVersion (s : scope) (inv : metadata.Inventory)
           (object : EntityRef) (vID : string) : M St unit :=
  let version := {| ID := vID;
                    Type' := ocfl.Version;
                    Parent := Some object;
                    Addr := Join w (Addr object) vID |} in
  when (contains w s version) (call f version) ;;
  when (leType w (Type' (desired s)) ocfl.File)
    (let files := fst (metadata.Files inv vID) in
     forEach files (walkFile s object version)).

(** [func (s *scope) walkVersions(inv, object, f) error] *)
Definition walkVersions (s : scope) (inv : metadata.Inventory)
           (object : EntityRef) : M St unit :=
  versions <- selectVersions s inv object ;;
  forEach versions (fun kv => walkVersion s inv object (fst kv)).

(** [func (s *scope) walkObject(path, f) (err error)] *)
Definition walkObject (s : scope) (path : string) : M St unit :=
  emit (EvReadMetadata path) ;;
  inv <- orFail (readMetadata w path) ;;
  let object := {| ID := metadata.inv_ID inv;
                   Type' := ocfl.Object;
                   Parent := Some (root s);
                   Addr := path |} in
  when (contains w s object) (call f object) ;;
  if leType w (Type' (desired s)) ocfl.Version
  then walkVersions s inv object
  else ret tt.

(** The closure that [walk] hands to [fsWalk]. *)
Definition visit (s : scope) (ospath : string) (e : Dirent) : M St bool :=
  if negb (IsDir e) && negb (IsSymlink e) then ret dontGoDeeper
  else
    emit (EvIsRoot ospath ocfl.Object) ;;
    let '(objectRoot, _, err) := isRoot w ospath ocfl.Object in
    if objectRoot && (match err with None => true | Some _ => false end)
    then walkObject s ospath ;; ret dontGoDeeper
    else
      match err with
      | Some err => fail (Foreign err)
      | None =>
        when (negb (String.eqb ospath (Addr (root s)))
              && contains w s (bare ocfl.Intermediate))
             (call f {| ID := TrimPrefix
                                (ToSlash w (TrimPrefix ospath (Addr (root s))))
                                "/";
                        Addr := ospath;
                        Type' := ocfl.Intermediate;
                        Parent := Some (root s) |}) ;;
        ret goDeeper
      end.

(** [func (s *scope) walk(f func(resolv.EntityRef) error) error]; the
    diagnostic printing of [walk] and [walkVersions] is left out. *)
Definition walk (s : scope) : M St unit :=
  let node := startFrom s in
  node <-
    (if ltType w (Type' node) ocfl.Object
     then r <- callFindRoot node ocfl.Object ;; orFail r
     else ret node) ;;
  when (ocfl.eqb (Type' node) ocfl.Root && contains w s node)
       (call f node) ;;
  let startPath := Addr node in
  let startPath := if String.eqb startPath EmptyString then Addr (root s)
                   else startPath in
  r <- attempt (fsWalk startPath (visit s)) ;;
  match r with
  | inl err => fail (Wrap err "error performing walk")
  | inr _ => ret tt
  end.

End File.

(** ** Reference definitions taken from the design document *)

(** The identifiers met when the [Parent] chains of [a] and [b] are
    walked in lockstep while both have a parent, paired depth by depth. *)
Fixpoint pairedIDs (a b : EntityRef) : list (string * string) :=
  match Parent a, Parent b with
  | Some pa, Some pb => (ID a, ID b) :: pairedIDs pa pb
  | _, _ => []
  end.

(** The containment predicate as the design document words it: the
    wildcard admits everything; a candidate whose type differs from the
    entry point's is admitted iff it has the desired type; any other
    candidate is admitted iff every paired identifier matches and its
    type is at most the desired one. *)
Definition containsRef (w : Env) (s : scope) (r : EntityRef) : bool :=
  match Type' (desired s) with
  | ocfl.Any => true
  | _ =>
    if ocfl.eqb (Type' r) (Type' (startFrom s))
    then forallb (fun p => String.eqb (fst p) (snd p)) (pairedIDs (desired s) r)
         && leType w (Type' r) (Type' (desired s))
    else ocfl.eqb (Type' r) (Type' (desired s))
  end.

(** A well-formed [Parent] chain: following [Parent] ends at a reference
    of type [Root] that has no parent, and at no earlier one. *)
Inductive wellFormed : EntityRef -> Prop :=
| wf_root r :
    Type' r = ocfl.Root -> Parent r = None -> wellFormed r
| wf_child r p :
    Type' r <> ocfl.Root -> Parent r = Some p -> wellFormed p -> wellFormed r.

(** Modelled from the spec: [findRoot] is not among the sources.  The
    design document describes it as resolving "the nearest ancestor (by
    physical address) of the requested type", and takes the version of a
    narrowed walk to be the one "derivable from the entry point's
    coordinates", that is from its [Parent] chain.  [nearest r t] is the
    first reference of type [t] on the chain of [r], [r] itself
    included. *)
Definition nearest (r : EntityRef) (t : ocfl.Type') : option EntityRef :=
  find (fun a => ocfl.eqb (Type' a) t) (chain r).

(** Modelled from the spec: what is assumed of the absent [findRoot]
    where a claim depends on it.  For a reference whose [Parent] chain
    mirrors the layout, the nearest enclosing root of a type is the
    nearest reference of that type on the chain: [findRoot] returns it
    whenever there is one (what it does otherwise is left open). *)
Definition resolvesChain (w : Env) : Prop :=
  forall r t a, nearest r t = Some a -> findRoot w r t = inr a.

(** The references the walk builds for an object at [path] with
    inventory [inv], for its version [vID] and for a file of that
    version. *)
Definition objectOf (rt : EntityRef) (inv : metadata.Inventory)
           (path : string) : EntityRef :=
  {| ID := metadata.inv_ID inv; Type' := ocfl.Object;
     Parent := Some rt; Addr := path |}.

Definition versionOf (w : Env) (object : EntityRef) (vID : string)
  : EntityRef :=
  {| ID := vID; Type' := ocfl.Version;
     Parent := Some object; Addr := Join w (Addr object) vID |}.

Definition fileOf (w : Env) (object : EntityRef) (vID : string)
           (file : metadata.File) : EntityRef :=
  {| ID := metadata.LogicalPath file; Type' := ocfl.File;
     Parent := Some (versionOf w object vID);
     Addr := Join w (Addr object) (metadata.PhysicalPath file) |}.

(** A reference that carries the coordinates of [F] and the reference
    of its object (with the address of the object root), and other
    addresses, [aF] and [aV], for the file itself and for its version. *)
Definition reAddressed (F : EntityRef) (aF aV : string) : EntityRef :=
  {| ID := ID F; Addr := aF; Type' := Type' F;
     Parent := match Parent F with
               | Some V => Some {| ID := ID V; Addr := aV; Type' := Type' V;
                                   Parent := Parent V |}
               | None => None
               end |}.

(** The intermediate node that [walk] reports for the directory
    [ospath]. *)
Definition intermediateOf (w : Env) (rt : EntityRef) (ospath : string)
  : EntityRef :=
  {| ID := TrimPrefix (ToSlash w (TrimPrefix ospath (Addr rt))) "/";
     Addr := ospath; Type' := ocfl.Intermediate; Parent := Some rt |}.

(** The entities handed to the callback, in order. *)
Definition reported (evs : list Event) : list EntityRef :=
  flat_map (fun ev => match ev with EvCallback r => [r] | _ => [] end) evs.

(** [reports P m]: whatever the state [m] starts from, [m] only adds to
    the log, and every entity it hands to the callback satisfies [P]. *)
Definition reports {St A : Type} (P : EntityRef -> Prop) (m : M St A)
  : Prop :=
  forall st, exists evs,
    log (snd (m st)) = (log st ++ evs)%list /\ Forall P (reported evs).

(** A directory entry and everything below it. *)
Fixpoint subtrees (d : Dirent) : list Dirent :=
  d :: (fix below (l : list Dirent) : list Dirent :=
          match l with
          | [] => []
          | c :: l' => (subtrees c ++ below l')%list
          end) (entries d).

(** The probe says, without error, that [path] is an object root. *)
Definition objectRootAt (w : Env) (path : string) : Prop :=
  fst (fst (isRoot w path ocfl.Object)) = true /\
  snd (isRoot w path ocfl.Object) = None.

(** The entities that visiting the directory entry [d] can hand to the
    callback in a walk of scope [s], site by site. *)
Inductive yieldedAt (w : Env) (s : scope) (d : Dirent) : EntityRef -> Prop :=
| y_intermediate :
    mode d <> ModeRegular ->
    ~ objectRootAt w (ospath d) ->
    ospath d <> Addr (root s) ->
    contains w s (bare ocfl.Intermediate) = true ->
    yieldedAt w s d (intermediateOf w (root s) (ospath d))
| y_object inv :
    mode d <> ModeRegular ->
    objectRootAt w (ospath d) ->
    readMetadata w (ospath d) = inr inv ->
    contains w s (objectOf (root s) inv (ospath d)) = true ->
    yieldedAt w s d (objectOf (root s) inv (ospath d))
| y_version inv vID :
    mode d <> ModeRegular ->
    objectRootAt w (ospath d) ->
    readMetadata w (ospath d) = inr inv ->
    leType w (Type' (desired s)) ocfl.Version = true ->
    hasKey (metadata.Versions inv) vID = true ->
    contains w s (versionOf w (objectOf (root s) inv (ospath d)) vID) = true ->
    yieldedAt w s d (versionOf w (objectOf (root s) inv (ospath d)) vID)
| y_file inv vID file :
    mode d <> ModeRegular ->
    objectRootAt w (ospath d) ->
    readMetadata w (ospath d) = inr inv ->
    leType w (Type' (desired s)) ocfl.Version = true ->
    leType w (Type' (desired s)) ocfl.File = true ->
    hasKey (metadata.Versions inv) vID = true ->
    In file (fst (metadata.Files inv vID)) ->
    contains w s (fileOf w (objectOf (root s) inv (ospath d)) vID file) = true ->
    yieldedAt w s d (fileOf w (objectOf (root s) inv (ospath d)) vID file).

(** The order of the type constants that the comments of [walk] rely on
    ("if we're somewhere underneath an OCFL object" for a type below
    [Object]; after that step the node is "an ocfl root, intermediate
    node, or an ocfl object root"): the deeper an entity lies, the
    smaller its type. *)
Definition deepFirst (w : Env) : Prop :=
  rank w ocfl.File < rank w ocfl.Version /\
  rank w ocfl.Version < rank w ocfl.Object /\
  rank w ocfl.Object < rank w ocfl.Intermediate /\
  rank w ocfl.Object < rank w ocfl.Root.

(** [safe m]: [m] never dereferences a nil pointer. *)
Definition safe {St A : Type} (m : M St A) : Prop :=
  forall st, fst (m st) <> Panic.

(** [ensures R m]: whatever the state [m] starts from, [m] returns
    without an error, and its result satisfies [R]. *)
Definition ensures {St A : Type} (R : A -> Prop) (m : M St A) : Prop :=
  forall st, exists a st', m st = (Done a, st') /\ R a.

(** A directory entry at which no collaborator fails: it can be read,
    the probe answers without an error, and if the probe takes it for an
    object root its inventory can be loaded. *)
Definition entryOK (w : Env) (d : Dirent) : Prop :=
  readErr d = None /\
  snd (isRoot w (ospath d) ocfl.Object) = None /\
  (fst (fst (isRoot w (ospath d) ocfl.Object)) = true ->
   exists inv, readMetadata w (ospath d) = inr inv).

(** A directory tree that can be walked without an error from a
    collaborator. *)
Definition readable (w : Env) (d : Dirent) : Prop :=
  forall d', In d' (subtrees d) -> entryOK w d'.

(** The state after one more event. *)
Definition logged {St} (st : State St) (ev : Event) : State St :=
  mkState (log st ++ [ev]) (user st).

(** The filesystem answers alike from above and directly: an object
    root met below some start directory (a directory, or a link) has a
    path, and [os.Stat] on that path finds a directory. *)
Definition statCoherent (w : Env) : Prop :=
  forall dir tree d,
    stat w dir = inr tree -> In d (subtrees tree) ->
    mode d <> ModeRegular -> objectRootAt w (ospath d) ->
    ospath d <> EmptyString /\
    exists d', stat w (ospath d) = inr d' /\
               ospath d' = ospath d /\ mode d' = ModeDir.

(** The files of a version are a set: no logical path is listed twice. *)
Definition uniqueLogicalPaths (w : Env) : Prop :=
  forall path inv vID,
    readMetadata w path = inr inv ->
    NoDup (map metadata.LogicalPath (fst (metadata.Files inv vID))).

(** [sub] occurs in [msg]. *)
Definition mentions (msg sub : string) : Prop :=
  exists pre post, msg = pre ++ sub ++ post.

(** ** A concrete layout

    One storage root [/ocfl] holding an intermediate directory and one
    object [obj-A] with versions [v1] (file [a.txt]) and [v2] (files
    [a.txt] and [b.txt]). *)

Module Demo.

(** Deeper entities have smaller values: the order under which a type
    below [Object] is "somewhere underneath an OCFL object", as the
    comments of [walk] put it. *)
Definition rankDeep (t : ocfl.Type') : Z :=
  match t with
  | ocfl.Any => 0 | ocfl.File => 1 | ocfl.Version => 2
  | ocfl.Object => 3 | ocfl.Intermediate => 4 | ocfl.Root => 5
  end.

(** Modelled from the spec: the declaration of [ocfl.Type] is not among
    the sources; the design document gives the order
    [Root < Intermediate < Object < Version < File] and does not place
    the wildcard, whose value is the parameter [any]. *)
Definition rankStated (any : Z) (t : ocfl.Type') : Z :=
  match t with
  | ocfl.Any => any | ocfl.Root => 1 | ocfl.Intermediate => 2
  | ocfl.Object => 3 | ocfl.Version => 4 | ocfl.File => 5
  end.

Definition storageRoot : EntityRef :=
  {| ID := EmptyString; Addr := "/ocfl"; Parent := None; Type' := ocfl.Root |}.

Definition objA : EntityRef :=
  {| ID := "obj-A"; Addr := "/ocfl/obj-A"; Parent := Some storageRoot;
     Type' := ocfl.Object |}.

Definition version (vID : string) : EntityRef :=
  {| ID := vID; Addr := "/ocfl/obj-A/" ++ vID; Parent := Some objA;
     Type' := ocfl.Version |}.

Definition file (vID lpath ppath : string) : EntityRef :=
  {| ID := lpath; Addr := "/ocfl/obj-A/" ++ ppath;
     Parent := Some (version vID); Type' := ocfl.File |}.

Definition filesA (v : string) : list metadata.File :=
  if String.eqb v "v1" then [metadata.mkFile "a.txt" "v1/content/a.txt"]
  else if String.eqb v "v2"
       then [metadata.mkFile "a.txt" "v1/content/a.txt";
             metadata.mkFile "b.txt" "v2/content/b.txt"]
       else [].

Definition invA : metadata.Inventory :=
  {| metadata.inv_ID := "obj-A";
     metadata.Versions := [("v1", tt); ("v2", tt)];
     metadata.Files := fun v => (filesA v, None) |}.

(** The same inventory, whose file listing cannot be fetched. *)
Definition invBroken : metadata.Inventory :=
  {| metadata.inv_ID := "obj-A";
     metadata.Versions := [("v1", tt)];
     metadata.Files := fun v => ([], Some "cannot list files") |}.

Definition objTree : Dirent :=
  mkDirent "/ocfl/obj-A" ModeDir None
           [mkDirent "/ocfl/obj-A/inventory.json" ModeRegular None []].

Definition abTree : Dirent := mkDirent "/ocfl/ab" ModeDir None [].

Definition tree : Dirent :=
  mkDirent "/ocfl" ModeDir None
           [mkDirent "/ocfl/0=ocfl_1.0" ModeRegular None [];
            abTree;
            objTree].

Definition env (rk : ocfl.Type' -> Z) (inv : metadata.Inventory) : Env :=
  {| rank := rk;
     findRoot := fun r t =>
       match nearest r t with
       | Some a => inr a
       | None => inl "no enclosing root"
       end;
     isRoot := fun p t =>
       (String.eqb p "/ocfl/obj-A" && ocfl.eqb t ocfl.Object, EmptyString, None);
     readMetadata := fun p =>
       if String.eqb p "/ocfl/obj-A" then inr inv else inl "no inventory";
     stat := fun p =>
       if String.eqb p "/ocfl" then inr tree
       else if String.eqb p "/ocfl/ab" then inr abTree
       else if String.eqb p "/ocfl/obj-A" then inr objTree
       else inl "no such file or directory";
     Join := fun a b => a ++ "/" ++ b;
     ToSlash := fun s => s |}.

(** A callback that accepts every entity and keeps no state. *)
Definition accept : @callback unit := fun _ u => (None, u).

Definition start : State unit := mkState [] tt.

(** [newScope] followed by [walk], from an empty log. *)
Definition run (w : Env) (entry : EntityRef) (t : ocfl.Type')
  : Outcome unit * State unit :=
  (s <- newScope w entry t ;; walk w accept s) start.

End Demo.

(** ** A layout with two objects

    The storage root [/ocfl] holding object [obj-B] with the single
    version [v1], and after it the object [obj-A] of the layout above. *)

Module Demo2.

Definition invB : metadata.Inventory :=
  {| metadata.inv_ID := "obj-B";
     metadata.Versions := [("v1", tt)];
     metadata.Files := fun v =>
       (if String.eqb v "v1" then [metadata.mkFile "a.txt" "v1/content/a.txt"]
        else [], None) |}.

Definition objTreeB : Dirent :=
  mkDirent "/ocfl/obj-B" ModeDir None
           [mkDirent "/ocfl/obj-B/inventory.json" ModeRegular None []].

Definition tree : Dirent :=
  mkDirent "/ocfl" ModeDir None
           [mkDirent "/ocfl/0=ocfl_1.0" ModeRegular None [];
            objTreeB;
            Demo.objTree].

Definition env (rk : ocfl.Type' -> Z) : Env :=
  {| rank := rk;
     findRoot := fun r t =>
       match nearest r t with
       | Some a => inr a
       | None => inl "no enclosing root"
       end;
     isRoot := fun p t =>
       ((String.eqb p "/ocfl/obj-A" || String.eqb p "/ocfl/obj-B")
        && ocfl.eqb t ocfl.Object, EmptyString, None);
     readMetadata := fun p =>
       if String.eqb p "/ocfl/obj-A" then inr Demo.invA
       else if String.eqb p "/ocfl/obj-B" then inr invB
       else inl "no inventory";
     stat := fun p =>
       if String.eqb p "/ocfl" then inr tree
       else if String.eqb p "/ocfl/obj-A" then inr Demo.objTree
       else if String.eqb p "/ocfl/obj-B" then inr objTreeB
       else inl "no such file or directory";
     Join := fun a b => a ++ "/" ++ b;
     ToSlash := fun s => s |}.

(** The coordinates [{obj-A, v2, b.txt}] as a chain of references that
    carry no address. *)
Definition byCoordinates : EntityRef :=
  {| ID := "b.txt"; Addr := EmptyString; Type' := ocfl.File;
     Parent := Some
       {| ID := "v2"; Addr := EmptyString; Type' := ocfl.Version;
          Parent := Some
            {| ID := "obj-A"; Addr := EmptyString; Type' := ocfl.Object;
               Parent := Some Demo.storageRoot |} |} |}.

End Demo2.

(** ** Definitions for the further properties *)

(** The layering of [Parent] that the comment on the field describes
    ("parent of next highest type that isn't an intermediate node (e.g.
    object parent is root)"): a root has no parent; an object or an
    intermediate node has a root as parent, a version an object, a file a
    version. *)
Inductive layered : EntityRef -> Prop :=
| layered_root r :
    Type' r = ocfl.Root -> Parent r = None -> layered r
| layered_intermediate r p :
    Type' r = ocfl.Intermediate -> Parent r = Some p ->
    Type' p = ocfl.Root -> layered p -> layered r
| layered_object r p :
    Type' r = ocfl.Object -> Parent r = Some p ->
    Type' p = ocfl.Root -> layered p -> layered r
| layered_version r p :
    Type' r = ocfl.Version -> Parent r = Some p ->
    Type' p = ocfl.Object -> layered p -> layered r
| layered_file r p :
    Type' r = ocfl.File -> Parent r = Some p ->
    Type' p = ocfl.Version -> layered p -> layered r.

(** [logs Q m]: whatever the state [m] starts from, [m] only adds to the
    log, and every event it adds satisfies [Q]. *)
Definition logs {St A : Type} (Q : Event -> Prop) (m : M St A) : Prop :=
  forall st, exists evs,
    log (snd (m st)) = (log st ++ evs)%list /\ Forall Q evs.

(** The events of the manifest phase: a look-up of the version of the
    entry point, or a call of the callback. *)
Definition manifestEvent (ev : Event) : Prop :=
  match ev with
  | EvFindRoot _ _ | EvCallback _ => True
  | _ => False
  end.

(** An error that [fsWalk] does not take for the mark of a terminal
    node: its cause is not a [skip] value. *)
Definition fatal (e : error) : Prop :=
  match Cause e with
  | skip _ => False
  | _ => True
  end.

(** An event at which nothing went wrong: the collaborator that was
    called returned no error, the callback (whose error, here, depends on
    the entity only and is [errs r]) accepted the entity. *)
Definition eventOk (w : Env) (errs : EntityRef -> option string)
           (ev : Event) : Prop :=
  match ev with
  | EvFindRoot r t => exists a, findRoot w r t = inr a
  | EvIsRoot p t => snd (isRoot w p t) = None
  | EvReadMetadata p => exists inv, readMetadata w p = inr inv
  | EvCallback r => errs r = None
  | EvStat _ | EvReadDir _ => True
  end.

(** The error with which the callback has rejected the entity of an
    event, for a callback whose error depends on the entity only and is
    [errs r]. *)
Definition rejection (errs : EntityRef -> option string) (ev : Event)
  : option string :=
  match ev with
  | EvCallback r => errs r
  | _ => None
  end.

(** [wraps e0 e]: the error [e] is [e0] itself, or [e0] under layers
    put around it by [errors.Wrap]/[errors.Wrapf]. *)
Inductive wraps (e0 : error) : error -> Prop :=
| wraps_self : wraps e0 e0
| wraps_layer e msg : wraps e0 e -> wraps e0 (Wrap e msg).

(** [blamed rej evs o]: if the last of the events [evs] is a rejection,
    then [o] is an error, and it is the error of the rejection, as it
    is or wrapped. *)
Definition blamed (rej : Event -> option string) (evs : list Event)
           (o : option error) : Prop :=
  forall pre ev x,
    evs = (pre ++ [ev])%list -> rej ev = Some x ->
    match o with
    | Some e => wraps (Foreign x) e
    | None => False
    end.

(** [stops ok rej m]: whatever the state [m] starts from, [m] only adds
    to the log, only the last event it adds can fail [ok], none does when
    [m] returns without an error, an error it returns is [fatal], and a
    rejection that ends the log is the error returned, as it is or
    wrapped. *)
Definition stops {St A : Type} (ok : Event -> Prop)
           (rej : Event -> option string) (m : M St A) : Prop :=
  forall st, exists evs,
    log (snd (m st)) = (log st ++ evs)%list /\
    Forall ok (removelast evs) /\
    match fst (m st) with
    | Done _ => Forall ok evs
    | Failed e => fatal e /\ blamed rej evs (Some e)
    | Panic => blamed rej evs None
    end.

(** A callback that rejects every version and accepts everything else. *)
Definition rejectVersions : @callback unit :=
  fun r u =>
    (if ocfl.eqb (Type' r) ocfl.Version then Some "no versions, please"
     else None, u).

(** [yields R l m]: whatever the state [m] starts from, [m] returns
    without an error, its result satisfies [R], it only adds to the log,
    and the entities it hands to the callback are exactly [l], in this
    order. *)
Definition yields {St A : Type} (R : A -> Prop) (l : list EntityRef)
           (m : M St A) : Prop :=
  forall st, exists a st' evs,
    m st = (Done a, st') /\ R a /\
    log st' = (log st ++ evs)%list /\ reported evs = l.

(** The answer of the probe that makes [walk] take [path] for an object
    root: [objectRoot && err == nil]. *)
Definition isObjectRoot (w : Env) (path : string) : bool :=
  let '(objectRoot, _, err) := isRoot w path ocfl.Object in
  objectRoot && (match err with None => true | Some _ => false end).

(** The entities of type [t] (an object, a version or a file) of the
    object at [path]: the object itself, its versions in the order of
    the manifest, or its files, version by version, in the order of the
    manifest. *)
Definition entitiesOfObject (w : Env) (rt : EntityRef) (t : ocfl.Type')
           (path : string) : list EntityRef :=
  match readMetadata w path with
  | inr inv =>
    let object := objectOf rt inv path in
    match t with
    | ocfl.Object => [object]
    | ocfl.Version =>
      map (fun kv => versionOf w object (fst kv)) (metadata.Versions inv)
    | ocfl.File =>
      flat_map (fun kv => map (fileOf w object (fst kv))
                              (fst (metadata.Files inv (fst kv))))
               (metadata.Versions inv)
    | _ => []
    end
  | inl _ => []
  end.

(** The object roots of a tree, in the order of the walk: the
    directories and links that the probe takes for object roots and that
    do not lie below another one (nor below a link to something that is
    not a directory). *)
Fixpoint objectRoots (w : Env) (d : Dirent) : list string :=
  let below :=
    (fix below (l : list Dirent) : list string :=
       match l with
       | [] => []
       | c :: l' => (objectRoots w c ++ below l')%list
       end) (entries d) in
  match mode d with
  | ModeRegular => []
  | ModeDir =>
    if isObjectRoot w (ospath d) then [ospath d] else below
  | ModeSymlink toDir =>
    if isObjectRoot w (ospath d) then [ospath d]
    else if toDir then below else []
  end.

(** The directories and links of a tree that the walk visits and that
    the probe does not take for object roots, in the order of the walk:
    nothing below an object root, and nothing below a link to something
    that is not a directory (the link itself is visited). *)
Fixpoint plainNodes (w : Env) (d : Dirent) : list string :=
  let below :=
    (fix below (l : list Dirent) : list string :=
       match l with
       | [] => []
       | c :: l' => (plainNodes w c ++ below l')%list
       end) (entries d) in
  match mode d with
  | ModeRegular => []
  | ModeDir =>
    if isObjectRoot w (ospath d) then [] else ospath d :: below
  | ModeSymlink toDir =>
    if isObjectRoot w (ospath d) then []
    else ospath d :: (if toDir then below else [])
  end.

(** What a walk of a tree reports when it reports [F path] at an object
    root and [G path] at every other directory or link it visits. *)
Fixpoint treeReport (w : Env) (F G : string -> list EntityRef) (d : Dirent)
  : list EntityRef :=
  let below :=
    (fix below (l : list Dirent) : list EntityRef :=
       match l with
       | [] => []
       | c :: l' => (treeReport w F G c ++ below l')%list
       end) (entries d) in
  match mode d with
  | ModeRegular => []
  | ModeDir =>
    if isObjectRoot w (ospath d) then F (ospath d)
    else (G (ospath d) ++ below)%list
  | ModeSymlink toDir =>
    if isObjectRoot w (ospath d) then F (ospath d)
    else (G (ospath d) ++ (if toDir then below else []))%list
  end.

(** ** Package resolv: the resolver context *)

Module context.

(** [type Select struct { Type ocfl.Type; Head bool }] *)
Record Select : Set := mkSelect {
  Type' : ocfl.Type';
  Head : bool
}.

(** [type Driver interface { Walker; Opener }], of which [Init] uses
    [Walk] only, with a callback that stores what it is given and never
    returns an error.  A driver is given by what its [Walk] does against
    such a callback for a selection and a location: the entities it hands
    to the callback, in order, and the error it returns (if any). *)
Record Driver : Type := mkDriver {
  Walk : Select -> list string -> list EntityRef * option string
}.

(** [type Config struct { Root string; Drivers []Driver }] *)
Record Config : Type := mkConfig {
  Root : string;
  Drivers : list Driver
}.

(** [type Cxt struct { root *EntityRef; config Config }] *)
Record Cxt : Type := mkCxt {
  root : option EntityRef;
  config : Config
}.

(** The callback of [Init]: [cxt.root = &r; return nil]. *)
Definition store (cxt : Cxt) (r : EntityRef) : Cxt :=
  {| root := Some r; config := config cxt |}.

(** [for _, d := range cfg.Drivers] in [Init], from the drivers [ds]
    that are left: the result, and the drivers whose [Walk] has been
    called, in order. *)
Fixpoint rangeDrivers (cfg : Config) (ds : list Driver) (cxt : Cxt)
  : (string + Cxt) * list Driver :=
  match ds with
  | [] => (inl "No suitable driver found", [])
  | d :: ds' =>
    let '(reported, err) :=
      Walk d {| Type' := ocfl.Root; Head := false |} [Root cfg] in
    let cxt := fold_left store reported cxt in
    match err with
    | Some _ => (* continue *)
      let '(result, called) := rangeDrivers cfg ds' cxt in
      (result, d :: called)
    | None => (inr cxt, [d])
    end
  end.

(** [func Init(cfg Config)], which returns a context or an error; with
    the drivers whose [Walk] it has called. *)
Definition Init (cfg : Config) : (string + Cxt) * list Driver :=
  let cxt := {| root := None; config := cfg |} in
  if negb (String.eqb (Root cfg) EmptyString)
  then rangeDrivers cfg (Drivers cfg) cxt
  else (inl "No suitable driver found", []).

(** The selection and the location that [Init] walks with. *)
Definition probe (cfg : Config) (d : Driver)
  : list EntityRef * option string :=
  Walk d {| Type' := ocfl.Root; Head := false |} [Root cfg].

End context.

(** Three drivers and a configuration for them: one that hands over a
    root and then fails, one that succeeds without handing over
    anything, and one that hands over the demo storage root. *)
Module DemoInit.

Definition strayRoot : EntityRef :=
  {| ID := EmptyString; Addr := "/elsewhere"; Parent := None;
     resolv.Type' := ocfl.Root |}.

Definition broken : context.Driver :=
  context.mkDriver (fun _ _ => ([strayRoot], Some "connection lost")).

Definition silent : context.Driver :=
  context.mkDriver (fun _ _ => ([], None)).

Definition fileDriver : context.Driver :=
  context.mkDriver (fun _ _ => ([Demo.storageRoot], None)).

Definition cfg : context.Config :=
  context.mkConfig "/ocfl" [broken; silent; fileDriver].

End DemoInit.

(** The events that a walk over the tree [tree] found at [dir] can
    cause: [os.Stat] on [dir] or on a link of the tree; a probe, for an
    object root, of a directory or link of the tree; the load of the
    inventory at such an entry that the probe takes for an object root;
    the listing of a directory of the tree or of a link to one; look-ups
    and calls of the callback. *)
Definition walkEvent (w : Env) (dir : string) (tree : Dirent) (ev : Event)
  : Prop :=
  match ev with
  | EvStat p =>
    p = dir \/
    exists d toDir, In d (subtrees tree) /\ ospath d = p /\
                    mode d = ModeSymlink toDir
  | EvIsRoot p t =>
    t = ocfl.Object /\
    exists d, In d (subtrees tree) /\ ospath d = p /\ mode d <> ModeRegular
  | EvReadMetadata p =>
    objectRootAt w p /\
    exists d, In d (subtrees tree) /\ ospath d = p /\ mode d <> ModeRegular
  | EvReadDir p =>
    exists d, In d (subtrees tree) /\ ospath d = p /\
              (mode d = ModeDir \/ mode d = ModeSymlink true)
  | EvFindRoot _ _ | EvCallback _ => True
  end.

(** The node that [walk] starts the directory phase from: the entry
    point, or the object around it when the entry point lies below an
    object. *)
Definition startNode (w : Env) (s : scope) : string + EntityRef :=
  if ltType w (Type' (startFrom s)) ocfl.Object
  then findRoot w (startFrom s) ocfl.Object
  else inr (startFrom s).

(** [startPath] in [walk]. *)
Definition startPathOf (s : scope) (node : EntityRef) : string :=
  if String.eqb (Addr node) EmptyString then Addr (root s) else Addr node.
(** * Properties *)

(** ** Entity types *)

Lemma ocfl_eqb_spec a b : reflect (a = b) (ocfl.eqb a b).
Proof. destruct a, b; constructor; congruence. Qed.

Lemma ocfl_eqb_refl a : ocfl.eqb a a = true.
Proof. now destruct a. Qed.

Lemma ocfl_eqb_eq a b : ocfl.eqb a b = true <-> a = b.
Proof. destruct (ocfl_eqb_spec a b); intuition congruence. Qed.

Lemma ocfl_eqb_neq a b : ocfl.eqb a b = false <-> a <> b.
Proof. destruct (ocfl_eqb_spec a b); intuition congruence. Qed.

Lemma ocfl_eqb_sym a b : ocfl.eqb a b = ocfl.eqb b a.
Proof. now destruct a, b. Qed.

(** ** Entity references *)

(** Induction along the [Parent] chain. *)
Lemma EntityRef_chain_ind (P : EntityRef -> Prop) :
  (forall i a t, P (mkEntityRef i a None t)) ->
  (forall i a p t, P p -> P (mkEntityRef i a (Some p) t)) ->
  forall e, P e.
Proof.
  intros Htop Hstep. fix IH 1. intros [i a [p|] t].
  - apply Hstep, IH.
  - apply Htop.
Qed.

Lemma CoordsFrom_app (e : EntityRef) (acc : list string) :
  CoordsFrom e acc = (CoordsFrom e [] ++ acc)%list.
Proof.
  revert acc. induction e as [i a t|i a p t IH] using EntityRef_chain_ind;
    intros acc; simpl; destruct (ocfl.eqb t ocfl.Root); try reflexivity.
  rewrite IH, (IH [i]), <- app_assoc. reflexivity.
Qed.

Lemma wellFormed_chain_last (e : EntityRef) :
  wellFormed e ->
  Coords e = rev (map ID (removelast (chain e))).
Proof.
  induction 1 as [r Ht Hp|r p Ht Hp Hwf IH]; unfold Coords in *.
  - destruct r as [i a q t]; simpl in *; subst. reflexivity.
  - destruct r as [i a q t]; simpl in *; subst.
    destruct (ocfl_eqb_spec t ocfl.Root) as [E|_]; [contradiction|].
    rewrite CoordsFrom_app, IH.
    destruct (chain p) as [|x l] eqn:Ec.
    + destruct p; discriminate.
    + simpl. reflexivity.
Qed.

(** C7.  For an entity whose [Parent] chain is well formed, [Coords] is
    the list of the [ID]s on the chain from the topmost reference below
    the root down to the entity itself: root-to-leaf order, the root left
    out.  For a file under a version under an object under the root it is
    [objectID; versionID; logicalFilePath]. *)
Theorem Coords_root_to_leaf (e : EntityRef) :
  wellFormed e ->
  Coords e = map ID (rev (removelast (chain e))) /\
  forall versionR objectR rootR,
    Parent e = Some versionR -> Parent versionR = Some objectR ->
    Parent objectR = Some rootR -> Type' rootR = ocfl.Root ->
    Coords e = [ID objectR; ID versionR; ID e].
Proof.
  intros Hwf. split.
  - rewrite map_rev. now apply wellFormed_chain_last.
  - intros v o r Hf Hv Ho Hr.
    inversion Hwf as [? ? Hp|? pf Htf Hpf Hwv]; subst; [congruence|].
    assert (pf = v) by congruence; subst pf.
    inversion Hwv as [? ? Hp|? pv Htv Hpv Hwo]; subst; [congruence|].
    assert (pv = o) by congruence; subst pv.
    inversion Hwo as [? ? Hp|? po Hto Hpo Hwr]; subst; [congruence|].
    unfold Coords.
    destruct e as [fi fa fp ft], v as [vi va vp vt], o as [oi oa op ot],
             r as [ri ra rp rt]; simpl in *; subst.
    apply ocfl_eqb_neq in Htf, Htv, Hto.
    rewrite Htf; simpl. rewrite Htv; simpl. rewrite Hto; simpl.
    reflexivity.
Qed.

(** A file of the demo layout has a well-formed chain and the expected
    coordinates. *)
Lemma Coords_root_to_leaf_witness :
  wellFormed (Demo.file "v2" "b.txt" "v2/content/b.txt") /\
  Coords (Demo.file "v2" "b.txt" "v2/content/b.txt") = ["obj-A"; "v2"; "b.txt"].
Proof.
  assert (H : wellFormed (Demo.file "v2" "b.txt" "v2/content/b.txt")).
  { eapply wf_child; [discriminate|reflexivity|].
    eapply wf_child; [discriminate|reflexivity|].
    eapply wf_child; [discriminate|reflexivity|].
    apply wf_root; reflexivity. }
  split; [exact H|].
  exact (proj1 (Coords_root_to_leaf _ H)).
Defined.

(** ** Scopes and containment *)

Lemma sameCoords_pairedIDs (a b : EntityRef) :
  sameCoords a b
  = forallb (fun p => String.eqb (fst p) (snd p)) (pairedIDs a b).
Proof.
  revert b. induction a as [i a t|i a p t IH] using EntityRef_chain_ind;
    intros [j b [q|] u]; simpl; try reflexivity.
  rewrite IH. now destruct (String.eqb i j).
Qed.

Lemma contains_containsRef (w : Env) (s : scope) (r : EntityRef) :
  contains w s r = containsRef w s r.
Proof.
  unfold contains, containsRef.
  rewrite sameCoords_pairedIDs.
  rewrite (ocfl_eqb_sym (Type' (desired s)) (Type' r)).
  destruct (Type' (desired s)); simpl; try reflexivity;
    destruct (ocfl.eqb (Type' r) (Type' (startFrom s))); simpl;
    try reflexivity;
    now destruct (forallb _ _).
Qed.

(** What [newScope] returns and does, in one equation: a single call of
    the probe, whose error is returned as it is; otherwise the scope. *)
Lemma newScope_run {St : Type} (w : Env) (under : EntityRef)
      (t : ocfl.Type') (st : State St) :
  newScope w under t st
  = (match findRoot w under ocfl.Root with
     | inl e => Failed (Foreign e)
     | inr rt =>
       Done {| root := rt;
               startFrom := under;
               desired := if ocfl.eqb (Type' under) t then under else bare t |}
     end,
     mkState (log st ++ [EvFindRoot under ocfl.Root]) (user st)).
Proof.
  unfold newScope, callFindRoot, bind, emit, ret, orFail, fail. simpl.
  now destruct (findRoot w under ocfl.Root).
Qed.

(** C1.  For every scope built by [newScope] and every candidate, the
    containment predicate equals the reference definition: the wildcard
    admits every candidate; a candidate whose type differs from the entry
    point's is admitted iff its type is the desired one; otherwise it is
    admitted iff the identifiers paired by the lockstep walk of the two
    [Parent] chains are all equal and its type is at most the desired
    type.  When the entry point has the desired type, [desired] is the
    entry point itself. *)
Theorem contains_reference {St : Type} (w : Env) (under : EntityRef)
        (t : ocfl.Type') (st st' : State St) (s : scope) :
  newScope w under t st = (Done s, st') ->
  (forall r, contains w s r = containsRef w s r) /\
  (Type' (startFrom s) = Type' (desired s) -> desired s = startFrom s).
Proof.
  rewrite newScope_run. intros H. split.
  - intros r. apply contains_containsRef.
  - destruct (findRoot w under ocfl.Root) as [e|rt]; [discriminate|].
    injection H as <- _. simpl.
    destruct (ocfl_eqb_spec (Type' under) t) as [E|N]; [reflexivity|].
    simpl. intros E. contradiction.
Qed.

(** The scope of a walk for files from the demo storage root, and a file
    of the demo object as candidate. *)
Lemma contains_reference_witness :
  contains (Demo.env Demo.rankDeep Demo.invA)
           (mkScope Demo.storageRoot Demo.storageRoot (bare ocfl.File))
           (Demo.file "v2" "b.txt" "v2/content/b.txt")
  = containsRef (Demo.env Demo.rankDeep Demo.invA)
           (mkScope Demo.storageRoot Demo.storageRoot (bare ocfl.File))
           (Demo.file "v2" "b.txt" "v2/content/b.txt").
Proof.
  exact (proj1 (contains_reference (Demo.env Demo.rankDeep Demo.invA)
                  Demo.storageRoot ocfl.File Demo.start _ _ eq_refl)
               (Demo.file "v2" "b.txt" "v2/content/b.txt")).
Defined.

(** C8.  [newScope under t] calls the probe once, for the storage root
    above [under], and does nothing else.  It fails exactly when the
    probe does, with the probe's error; otherwise the scope has the
    resolved root as [root], [under] as [startFrom], and as [desired]
    either [under] itself, when [under] has type [t], or a reference
    whose only populated field is [Type = t]. *)
Theorem newScope_spec {St : Type} (w : Env) (under : EntityRef)
        (t : ocfl.Type') (st : State St) :
  let out := newScope w under t st in
  (* the probe is the only effect *)
  snd out = mkState (log st ++ [EvFindRoot under ocfl.Root]) (user st) /\
  (* failure exactly when the probe finds no root; its error is passed on *)
  ((exists e, fst out = Failed e)
   <-> exists e, findRoot w under ocfl.Root = inl e) /\
  (forall e, findRoot w under ocfl.Root = inl e -> fst out = Failed (Foreign e)) /\
  fst out <> Panic /\
  (* the scope on success *)
  (forall s, fst out = Done s ->
     findRoot w under ocfl.Root = inr (root s) /\
     startFrom s = under /\
     (Type' under = t -> desired s = under) /\
     (Type' under <> t ->
      desired s = {| ID := EmptyString; Addr := EmptyString; Parent := None; Type' := t |})).
Proof.
  cbv zeta. rewrite newScope_run. simpl.
  destruct (findRoot w under ocfl.Root) as [e|rt]; repeat split;
    try discriminate; try congruence.
  - intros _. now exists e.
  - intros _. now exists (Foreign e).
  - intros [e H]. discriminate.
  - intros [e H]. discriminate.
  - injection H as <-. reflexivity.
  - injection H as <-. reflexivity.
  - injection H as <-. simpl. intros E.
    now destruct (ocfl_eqb_spec (Type' under) t).
  - injection H as <-. simpl. intros N.
    now destruct (ocfl_eqb_spec (Type' under) t).
Qed.

(** ** What a computation hands to the callback *)

Lemma reported_app (a b : list Event) :
  reported (a ++ b) = (reported a ++ reported b)%list.
Proof. unfold reported. apply flat_map_app. Qed.

Section Reports.
Context {St : Type}.
Variable P : EntityRef -> Prop.

Lemma reports_ret {A} (a : A) : reports P (@ret St A a).
Proof. intros st. exists []. simpl. now rewrite app_nil_r. Qed.

Lemma reports_fail {A} (e : error) : reports P (@fail St A e).
Proof. intros st. exists []. simpl. now rewrite app_nil_r. Qed.

Lemma reports_panic {A} : reports P (@panic St A).
Proof. intros st. exists []. simpl. now rewrite app_nil_r. Qed.

Lemma reports_emit (ev : Event) :
  reported [ev] = [] -> reports P (@emit St ev).
Proof. intros H st. exists [ev]. simpl in *. rewrite H. now split. Qed.

Lemma reports_bind {A B} (m : M St A) (k : A -> M St B) :
  reports P m -> (forall a, reports P (k a)) -> reports P (bind m k).
Proof.
  intros Hm Hk st. unfold bind.
  destruct (Hm st) as (e1 & E1 & F1).
  destruct (m st) as [[a|e|] st1]; simpl in *.
  - destruct (Hk a st1) as (e2 & E2 & F2).
    exists (e1 ++ e2)%list. rewrite E2, E1, app_assoc, reported_app.
    split; [reflexivity|]. apply Forall_app. now split.
  - now exists e1.
  - now exists e1.
Qed.

Lemma reports_attempt {A} (m : M St A) : reports P m -> reports P (attempt m).
Proof.
  intros Hm st. unfold attempt. destruct (Hm st) as (e1 & E1 & F1).
  destruct (m st) as [[a|e|] st1]; simpl in *; now exists e1.
Qed.

Lemma reports_when (c : bool) (m : M St unit) :
  (c = true -> reports P m) -> reports P (when c m).
Proof. destruct c; simpl; intros H; [now apply H|apply reports_ret]. Qed.

Lemma reports_forEach {A} (l : list A) (body : A -> M St unit) :
  (forall x, In x l -> reports P (body x)) -> reports P (forEach l body).
Proof.
  induction l as [|x l IH]; simpl; intros H.
  - apply reports_ret.
  - apply reports_bind; [apply H; now left|].
    intros _. apply IH. intros y Hy. apply H. now right.
Qed.

Lemma reports_orFail {A} (r : string + A) : reports P (@orFail St A r).
Proof. destruct r; simpl; [apply reports_fail|apply reports_ret]. Qed.

Lemma reports_call (f : @callback St) (r : EntityRef) :
  P r -> reports P (call f r).
Proof.
  intros H st. exists [EvCallback r]. unfold call.
  destruct (f r (user st)) as [[e|] u]; simpl; split; auto.
Qed.

Lemma reports_callFindRoot (w : Env) ref t :
  reports P (@callFindRoot St w ref t).
Proof.
  unfold callFindRoot. apply reports_bind.
  - now apply reports_emit.
  - intros _. apply reports_ret.
Qed.

End Reports.

Lemma reports_weaken {St A} (P Q : EntityRef -> Prop) (m : M St A) :
  (forall r, P r -> Q r) -> reports P m -> reports Q m.
Proof.
  intros HPQ Hm st. destruct (Hm st) as (evs & E & F).
  exists evs. split; [exact E|]. eapply Forall_impl; eauto.
Qed.

(** ** The directory walk *)

(** Induction on a directory tree: a property of every child gives the
    property of the entry. *)
Lemma Dirent_tree_ind (P : Dirent -> Prop) :
  (forall p m r l, Forall P l -> P (mkDirent p m r l)) ->
  forall d, P d.
Proof.
  intros H. fix IH 1. intros [p m r l]. apply H.
  induction l as [|c l IHl]; constructor; [apply IH|exact IHl].
Qed.

Lemma subtrees_self (d : Dirent) : In d (subtrees d).
Proof. destruct d. simpl. now left. Qed.

Lemma subtrees_child (d c d' : Dirent) :
  In c (entries d) -> In d' (subtrees c) -> In d' (subtrees d).
Proof.
  destruct d as [p m r l]. simpl. intros Hc Hd'. right.
  induction l as [|x l IH]; [contradiction|].
  apply in_or_app. destruct Hc as [->|Hc]; [now left|right; now apply IH].
Qed.

Section DirWalk.
Context {St : Type}.
Variable P : EntityRef -> Prop.
Variable Callback : string -> Dirent -> M St (option error).
Variable ErrorCallback : string -> error -> ErrorAction.

Lemma reports_onError p e :
  reports P (@godirwalk.onError St ErrorCallback p e).
Proof.
  unfold godirwalk.onError.
  destruct (ErrorCallback p e); [apply reports_fail|apply reports_ret].
Qed.

Lemma reports_children (l : list Dirent) :
  Forall (fun c =>
            (forall d', In d' (subtrees c) ->
                        reports P (Callback (ospath d') d')) ->
            reports P (godirwalk.walk Callback ErrorCallback c)) l ->
  (forall c d', In c l -> In d' (subtrees c) ->
                reports P (Callback (ospath d') d')) ->
  reports P
    ((fix children (l : list Dirent) : M St unit :=
        match l with
        | [] => ret tt
        | c :: l' =>
          godirwalk.walk Callback ErrorCallback c ;; children l'
        end) l).
Proof.
  induction 1 as [|c l Hc _ IHl]; intros Hsub.
  - apply reports_ret.
  - apply reports_bind.
    + apply Hc. intros d' Hd'. apply (Hsub c d'); [now left|exact Hd'].
    + intros _. apply IHl. intros c' d' Hc' Hd'.
      apply (Hsub c' d'); [now right|exact Hd'].
Qed.

(** If the callback, at every entry of the tree, reports only entities
    that satisfy [P], so does the walk of the tree. *)
Lemma reports_godirwalk (d : Dirent) :
  (forall d', In d' (subtrees d) -> reports P (Callback (ospath d') d')) ->
  reports P (godirwalk.walk Callback ErrorCallback d).
Proof.
  induction d as [p m r l IH] using Dirent_tree_ind. intros H.
  assert (Hchildren : reports P
    ((fix children (l : list Dirent) : M St unit :=
        match l with
        | [] => ret tt
        | c :: l' =>
          godirwalk.walk Callback ErrorCallback c ;; children l'
        end) l)).
  { apply reports_children; [exact IH|].
    intros c d' Hc Hd'. apply H. eapply subtrees_child; eauto. }
  assert (Hdescend : reports P
    (emit (EvReadDir p) ;;
     match r with
     | Some e => godirwalk.onError ErrorCallback p (Foreign e)
     | None =>
       (fix children (l : list Dirent) : M St unit :=
          match l with
          | [] => ret tt
          | c :: l' =>
            godirwalk.walk Callback ErrorCallback c ;; children l'
          end) l
     end)).
  { apply reports_bind; [now apply reports_emit|]. intros _.
    destruct r; [apply reports_onError|exact Hchildren]. }
  simpl. apply reports_bind.
  - apply (H (mkDirent p m r l)). apply subtrees_self.
  - intros [e|]; [apply reports_onError|].
    destruct m as [| |toDir].
    + apply reports_ret.
    + exact Hdescend.
    + apply reports_bind; [now apply reports_emit|]. intros _.
      destruct r; [apply reports_onError|].
      destruct toDir; [exact Hdescend|apply reports_ret].
Qed.
End DirWalk.

(** ** What the walk hands to the callback *)

Lemma hasKey_In {V : Type} (m : list (string * V)) (kv : string * V) :
  In kv m -> hasKey m (fst kv) = true.
Proof.
  intros H. unfold hasKey. apply existsb_exists. exists kv.
  split; [exact H|apply String.eqb_refl].
Qed.

Lemma reports_ext {St A} (P : EntityRef -> Prop) (m m' : M St A) :
  (forall st, m st = m' st) -> reports P m' -> reports P m.
Proof. intros E H st. rewrite E. apply H. Qed.

Lemma reports_bind_orFail {St A B} (P : EntityRef -> Prop)
      (r : string + A) (k : A -> M St B) :
  (forall a, r = inr a -> reports P (k a)) ->
  reports P (bind (orFail r) k).
Proof.
  intros H. destruct r as [e|a].
  - apply (reports_ext _ _ (fail (Foreign e))); [reflexivity|].
    apply reports_fail.
  - apply (reports_ext _ _ (k a)); [reflexivity|]. now apply H.
Qed.

Section WalkReports.
Context {St : Type}.
Variable w : Env.
Variable f : @callback St.
Variable s : scope.

(** The versions ranged over are versions of the manifest. *)
Lemma selectVersions_keys inv object (st st' : State St) vs :
  selectVersions w s inv object st = (Done vs, st') ->
  forall kv, In kv vs -> hasKey (metadata.Versions inv) (fst kv) = true.
Proof.
  unfold selectVersions, callFindRoot, bind, emit, ret, fail, panic.
  destruct (_ || _).
  - simpl. destruct (findRoot w (startFrom s) ocfl.Version) as [e|sv];
      [discriminate|].
    destruct (hasKey (metadata.Versions inv) (ID sv)) eqn:E; simpl;
      [|discriminate].
    intros H kv Hin. injection H as <- _.
    destruct Hin as [<-|[]]. exact E.
  - intros H kv Hin. injection H as <- _. now apply hasKey_In.
Qed.

Lemma reports_selectVersions P inv object :
  reports P (selectVersions (St:=St) w s inv object).
Proof.
  unfold selectVersions. destruct (_ || _); [|apply reports_ret].
  apply reports_bind; [apply reports_callFindRoot|].
  intros [e|sv]; [apply reports_panic|].
  destruct (negb _); [apply reports_fail|apply reports_ret].
Qed.

Section AtEntry.
Variable d : Dirent.
Variable inv : metadata.Inventory.
Hypothesis Hmode : mode d <> ModeRegular.
Hypothesis Hobj : objectRootAt w (ospath d).
Hypothesis Hinv : readMetadata w (ospath d) = inr inv.

Lemma reports_walkVersion vID :
  leType w (Type' (desired s)) ocfl.Version = true ->
  hasKey (metadata.Versions inv) vID = true ->
  reports (yieldedAt w s d)
          (walkVersion w f s inv (objectOf (root s) inv (ospath d)) vID).
Proof.
  intros Hgate Hkey. unfold walkVersion. apply reports_bind.
  - apply reports_when. intros Hc. apply reports_call.
    now apply (y_version w s d inv vID).
  - intros _. apply reports_when. intros Hfile.
    apply reports_forEach. intros file Hin. unfold walkFile.
    destruct (contains w s _) eqn:Hc; simpl; [|apply reports_ret].
    apply reports_call. now apply (y_file w s d inv vID file).
Qed.

Lemma reports_walkVersions :
  leType w (Type' (desired s)) ocfl.Version = true ->
  reports (yieldedAt w s d)
          (walkVersions w f s inv (objectOf (root s) inv (ospath d))).
Proof.
  intros Hgate st. unfold walkVersions, bind.
  destruct (reports_selectVersions (yieldedAt w s d) inv
              (objectOf (root s) inv (ospath d)) st) as (e1 & E1 & F1).
  destruct (selectVersions w s inv _ st) as [[vs|e|] st1] eqn:Esel;
    simpl in *; try (now exists e1).
  assert (Hloop : reports (yieldedAt w s d)
            (forEach vs (fun kv =>
               walkVersion w f s inv (objectOf (root s) inv (ospath d))
                           (fst kv)))).
  { apply reports_forEach. intros kv Hin.
    apply reports_walkVersion; [exact Hgate|].
    eapply selectVersions_keys; eauto. }
  destruct (Hloop st1) as (e2 & E2 & F2).
  exists (e1 ++ e2)%list. rewrite E2, E1, app_assoc, reported_app.
  split; [reflexivity|]. apply Forall_app. now split.
Qed.
End AtEntry.

Lemma reports_walkObject (d : Dirent) :
  mode d <> ModeRegular -> objectRootAt w (ospath d) ->
  reports (yieldedAt w s d) (walkObject w f s (ospath d)).
Proof.
  intros Hmode Hobj. unfold walkObject.
  apply reports_bind; [now apply reports_emit|]. intros _.
  apply reports_bind_orFail. intros inv Hinv.
  - apply reports_bind.
    + apply reports_when. intros Hc. apply reports_call.
      now apply (y_object w s d inv).
    + intros _. destruct (leType _ _ _) eqn:Hgate; [|apply reports_ret].
      now apply reports_walkVersions.
Qed.

Lemma reports_visit (d : Dirent) :
  reports (yieldedAt w s d) (visit w f s (ospath d) d).
Proof.
  unfold visit.
  destruct (negb (IsDir d) && negb (IsSymlink d)) eqn:Hreg;
    [apply reports_ret|].
  assert (Hmode : mode d <> ModeRegular).
  { intros E. unfold IsDir, IsSymlink in Hreg. rewrite E in Hreg.
    discriminate. }
  apply reports_bind; [now apply reports_emit|]. intros _.
  destruct (isRoot w (ospath d) ocfl.Object) as [[objectRoot x] err] eqn:Hp.
  destruct objectRoot, err as [e|]; simpl.
  - apply reports_fail.
  - apply reports_bind; [|intros _; apply reports_ret].
    apply reports_walkObject; [exact Hmode|].
    unfold objectRootAt. now rewrite Hp.
  - apply reports_fail.
  - apply reports_bind; [|intros _; apply reports_ret].
    apply reports_when. intros Hc. apply andb_prop in Hc as [Hne Hc].
    apply reports_call. apply y_intermediate; auto.
    + unfold objectRootAt. rewrite Hp. simpl. intros [? _]. discriminate.
    + intros E. rewrite E, String.eqb_refl in Hne. discriminate.
Qed.

(** [fsWalk] reports what its callback reports at the entries of the
    tree found at [dir]. *)
Lemma reports_fsWalk P (dir : string) (g : string -> Dirent -> M St bool) :
  (forall tree d, stat w dir = inr tree -> In d (subtrees tree) ->
                  reports P (g (ospath d) d)) ->
  reports P (fsWalk w dir g).
Proof.
  intros H. unfold fsWalk.
  apply reports_bind; [now apply reports_emit|]. intros _.
  destruct (stat w dir) as [e|tree] eqn:Hs; [apply reports_fail|].
  unfold godirwalk.Walk. destruct (IsDir tree); [|apply reports_fail].
  apply reports_godirwalk. intros d Hd.
  apply reports_bind; [apply reports_attempt; now apply (H tree)|].
  intros [e|[|]]; apply reports_ret.
Qed.
End WalkReports.

(** ** Depth of the reported entities *)

(** The three ways in which a candidate is contained in a scope. *)
Lemma contains_true_cases (w : Env) (s : scope) (r : EntityRef) :
  contains w s r = true ->
  Type' (desired s) = ocfl.Any \/
  Type' r = Type' (desired s) \/
  (Type' r = Type' (startFrom s) /\
   leType w (Type' r) (Type' (desired s)) = true).
Proof.
  unfold contains.
  destruct (ocfl_eqb_spec (Type' (desired s)) ocfl.Any) as [E|_]; [now left|].
  destruct (ocfl_eqb_spec (Type' r) (Type' (startFrom s))) as [E|_]; simpl.
  - destruct (sameCoords _ _); simpl; [|discriminate].
    intros H. right. right. now split.
  - intros H. right. left. symmetry. now apply ocfl_eqb_eq.
Qed.

(** The final step of [walk] adds nothing to the log. *)
Lemma reports_walk_tail {St} (P : EntityRef -> Prop) (m : M St unit) :
  reports P m ->
  reports P (r <- attempt m ;;
             match r with
             | inl err => fail (Wrap err "error performing walk")
             | inr _ => ret tt
             end).
Proof.
  intros H. apply reports_bind; [now apply reports_attempt|].
  intros [e|[]]; [apply reports_fail|apply reports_ret].
Qed.

(** The frame of [walk]: if the start node, when it is reported, and the
    entities reported at the entries of the tree satisfy [P], so does
    every entity the walk reports. *)
Lemma reports_walk {St} (w : Env) (f : @callback St) (s : scope)
      (P : EntityRef -> Prop) :
  (forall node,
     (node = startFrom s \/ findRoot w (startFrom s) ocfl.Object = inr node) ->
     Type' node = ocfl.Root -> contains w s node = true -> P node) ->
  (forall dir tree d r,
     stat w dir = inr tree -> In d (subtrees tree) ->
     yieldedAt w s d r -> P r) ->
  reports P (walk w f s).
Proof.
  intros Hnode Hyield.
  set (k := fun node : EntityRef =>
    when (ocfl.eqb (Type' node) ocfl.Root && contains w s node)
         (call f node) ;;
    r <- attempt (fsWalk w (if (Addr node =? EmptyString)%string then Addr (root s)
                        else Addr node) (visit w f s)) ;;
    match r with
    | inl err => fail (Wrap err "error performing walk")
    | inr _ => ret tt
    end).
  assert (Hrest : forall node,
    (node = startFrom s \/ findRoot w (startFrom s) ocfl.Object = inr node) ->
    reports P (k node)).
  { intros node Hn. apply reports_bind.
    - apply reports_when. intros H. apply andb_prop in H as [Ht Hc].
      apply reports_call. apply Hnode; auto. now apply ocfl_eqb_eq.
    - intros _. apply reports_walk_tail. apply reports_fsWalk.
      intros tree d Hs Hd.
      eapply reports_weaken; [|apply reports_visit].
      intros r. now apply (Hyield _ tree d r Hs Hd). }
  change (reports P
    (bind (if ltType w (Type' (startFrom s)) ocfl.Object
           then r <- callFindRoot w (startFrom s) ocfl.Object ;; orFail r
           else ret (startFrom s)) k)).
  destruct (ltType w (Type' (startFrom s)) ocfl.Object).
  - destruct (findRoot w (startFrom s) ocfl.Object) as [e|node] eqn:Hf.
    + apply (reports_ext _ _
               (emit (EvFindRoot (startFrom s) ocfl.Object) ;;
                fail (Foreign e))).
      * intros st. unfold bind, callFindRoot, emit, ret. simpl.
        rewrite Hf. reflexivity.
      * apply reports_bind; [now apply reports_emit|].
        intros _. apply reports_fail.
    + apply (reports_ext _ _
               (emit (EvFindRoot (startFrom s) ocfl.Object) ;; k node)).
      * intros st. unfold bind, callFindRoot, emit, ret. simpl.
        rewrite Hf. reflexivity.
      * apply reports_bind; [now apply reports_emit|].
        intros _. apply (Hrest node). now right.
  - apply (reports_ext _ _ (k (startFrom s))); [intros st; reflexivity|].
    apply Hrest. now left.
Qed.

Lemma leType_false (w : Env) (a b : ocfl.Type') :
  rank w b < rank w a -> leType w a b = false.
Proof. intros H. unfold leType. apply Z.leb_gt. exact H. Qed.

Lemma ltType_false (w : Env) (a b : ocfl.Type') :
  rank w b <= rank w a -> ltType w a b = false.
Proof. intros H. unfold ltType. apply Z.ltb_ge. exact H. Qed.

(** C9.  In an enumeration walk for versions (the entry point is not a
    version), every entity handed to the callback is a version: neither
    the start node, nor any intermediate directory, object or file is
    reported, at any of the call sites of the filesystem phase and of the
    manifest phase.  The type constants are ordered with deeper entities
    smaller, as the walk assumes. *)
Theorem version_walk_reports_only_versions {St : Type} (w : Env)
        (f : @callback St) (entry : EntityRef) (st st1 : State St)
        (s : scope) :
  deepFirst w ->
  Type' entry <> ocfl.Version ->
  newScope w entry ocfl.Version st = (Done s, st1) ->
  exists evs,
    log (snd (walk w f s st1)) = (log st1 ++ evs)%list /\
    Forall (fun r => Type' r = ocfl.Version) (reported evs).
Proof.
  intros (Hfv & Hvo & Hoi & Hor) Hentry Hs.
  rewrite newScope_run in Hs.
  destruct (findRoot w entry ocfl.Root) as [e|rt]; [discriminate|].
  injection Hs as <- _.
  apply ocfl_eqb_neq in Hentry. rewrite Hentry.
  set (s := {| root := rt; startFrom := entry; desired := bare ocfl.Version |}).
  assert (Hcontains : forall r, contains w s r = true ->
            Type' r = ocfl.Version \/
            rank w (Type' r) <= rank w ocfl.Version).
  { intros r H. apply contains_true_cases in H.
    destruct H as [H|[H|[_ H]]]; simpl in H.
    - discriminate.
    - now left.
    - right. unfold leType in H. now apply Z.leb_le in H. }
  apply (reports_walk w f s (fun r => Type' r = ocfl.Version)).
  - intros node _ Ht Hc. apply Hcontains in Hc. rewrite Ht in Hc.
    destruct Hc as [Hc|Hc]; [discriminate|lia].
  - intros dir tree d r _ _ Hy. destruct Hy as [_ _ _ Hc|inv _ _ _ Hc|inv vID _ _ _ _ _ _
                                  |inv vID file _ _ _ _ Hfile _ _ _].
    + apply Hcontains in Hc. simpl in Hc.
      destruct Hc as [Hc|Hc]; [discriminate|lia].
    + apply Hcontains in Hc. simpl in Hc.
      destruct Hc as [Hc|Hc]; [discriminate|lia].
    + reflexivity.
    + unfold leType in Hfile. simpl in Hfile. apply Z.leb_le in Hfile. lia.
Qed.

(** The walk for versions from the demo storage root. *)
Lemma version_walk_reports_only_versions_witness :
  exists evs,
    log (snd (walk (Demo.env Demo.rankDeep Demo.invA) Demo.accept
                   (mkScope Demo.storageRoot Demo.storageRoot
                            (bare ocfl.Version))
                   (mkState [EvFindRoot Demo.storageRoot ocfl.Root] tt)))
    = ([EvFindRoot Demo.storageRoot ocfl.Root] ++ evs)%list /\
    Forall (fun r => Type' r = ocfl.Version) (reported evs).
Proof.
  apply (version_walk_reports_only_versions
           (Demo.env Demo.rankDeep Demo.invA) Demo.accept
           Demo.storageRoot Demo.start).
  - unfold deepFirst. simpl. lia.
  - discriminate.
  - reflexivity.
Defined.

(** ** Computations that return without an error *)

Section Ensures.
Context {St : Type}.

Lemma ensures_ret {A} (R : A -> Prop) (a : A) :
  R a -> ensures R (@ret St A a).
Proof. intros H st. now exists a, st. Qed.

Lemma ensures_emit (ev : Event) : ensures (fun _ => True) (@emit St ev).
Proof. intros st. eexists _, _. split; [reflexivity|exact I]. Qed.

Lemma ensures_bind {A B} (R : A -> Prop) (R' : B -> Prop)
      (m : M St A) (k : A -> M St B) :
  ensures R m -> (forall a, R a -> ensures R' (k a)) ->
  ensures R' (bind m k).
Proof.
  intros Hm Hk st. unfold bind.
  destruct (Hm st) as (a & st1 & E & Ha). rewrite E.
  now apply Hk.
Qed.

Lemma ensures_weaken {A} (R R' : A -> Prop) (m : M St A) :
  (forall a, R a -> R' a) -> ensures R m -> ensures R' m.
Proof.
  intros H Hm st. destruct (Hm st) as (a & st1 & E & Ha).
  exists a, st1. auto.
Qed.

Lemma ensures_attempt {A} (R : A -> Prop) (m : M St A) :
  ensures R m ->
  ensures (fun r => exists a, r = inr a /\ R a) (attempt m).
Proof.
  intros Hm st. unfold attempt.
  destruct (Hm st) as (a & st1 & E & Ha). rewrite E.
  exists (inr a), st1. split; [reflexivity|]. now exists a.
Qed.
End Ensures.

(** ** A walk for the storage root *)

Lemma sameCoords_refl (e : EntityRef) : sameCoords e e = true.
Proof.
  induction e as [i a t|i a p t IH] using EntityRef_chain_ind; simpl.
  - reflexivity.
  - now rewrite String.eqb_refl.
Qed.

Section RootScope.
Context {St : Type}.
Variable w : Env.
Variable f : @callback St.
Variable s : scope.
Hypothesis Hdeep : deepFirst w.
Hypothesis Hstart : Type' (startFrom s) = ocfl.Root.
Hypothesis Hdesired : desired s = startFrom s.

Lemma rootScope_contains_start : contains w s (startFrom s) = true.
Proof.
  unfold contains. rewrite Hdesired, Hstart, ocfl_eqb_refl. simpl.
  rewrite sameCoords_refl. simpl. unfold leType. apply Z.leb_refl.
Qed.

Lemma rootScope_contains_other (r : EntityRef) :
  Type' r <> ocfl.Root -> contains w s r = false.
Proof.
  intros H. unfold contains. rewrite Hdesired, Hstart.
  apply ocfl_eqb_neq in H.
  rewrite H, (ocfl_eqb_sym ocfl.Root (Type' r)), H. reflexivity.
Qed.

Lemma rootScope_gate : leType w (Type' (desired s)) ocfl.Version = false.
Proof.
  rewrite Hdesired, Hstart. apply leType_false.
  destruct Hdeep as (_ & ? & _ & ?). lia.
Qed.

(** Below the start node nothing is reported. *)
Lemma rootScope_yields_nothing (d : Dirent) (r : EntityRef) :
  yieldedAt w s d r -> False.
Proof.
  intros [_ _ _ Hc|inv _ _ _ Hc|inv vID _ _ _ Hg _ _
         |inv vID file _ _ _ Hg _ _ _ _].
  - rewrite rootScope_contains_other in Hc; discriminate.
  - rewrite rootScope_contains_other in Hc; discriminate.
  - rewrite rootScope_gate in Hg. discriminate.
  - rewrite rootScope_gate in Hg. discriminate.
Qed.

(** At an entry of a readable tree the closure of [walk] returns. *)
Lemma rootScope_visit (d : Dirent) :
  snd (isRoot w (ospath d) ocfl.Object) = None ->
  (fst (fst (isRoot w (ospath d) ocfl.Object)) = true ->
   exists inv, readMetadata w (ospath d) = inr inv) ->
  ensures (fun _ => True) (visit w f s (ospath d) d).
Proof.
  intros Herr Hinv. unfold visit.
  destruct (negb (IsDir d) && negb (IsSymlink d)); [now apply ensures_ret|].
  eapply ensures_bind; [apply ensures_emit|]. intros _ _.
  destruct (isRoot w (ospath d) ocfl.Object) as [[objectRoot x] err].
  simpl in Herr, Hinv. subst err. destruct objectRoot; simpl.
  - destruct (Hinv eq_refl) as (inv & E).
    eapply ensures_bind with (R := fun _ => True);
      [|intros a Ha; apply ensures_ret; exact I].
    unfold walkObject. rewrite E.
    eapply ensures_bind; [apply ensures_emit|]. intros _ _.
    eapply (ensures_bind (fun _ => True)); [apply ensures_ret; exact I|]. intros inv' _.
    rewrite rootScope_contains_other by discriminate.
    rewrite rootScope_gate.
    eapply (ensures_bind (fun _ => True)); [apply ensures_ret; exact I|].
    intros _ _; now apply ensures_ret.
  - rewrite rootScope_contains_other by discriminate.
    rewrite andb_false_r.
    eapply (ensures_bind (fun _ => True)); [apply ensures_ret; exact I|].
    intros _ _; now apply ensures_ret.
Qed.
End RootScope.

Section DirWalkEnsures.
Context {St : Type}.
Variable g : string -> Dirent -> M St bool.

Lemma ensures_fsCallback (d : Dirent) :
  ensures (fun _ => True) (g (ospath d) d) ->
  ensures (fun err => err = None \/ err = Some (skip SkipNode))
          (fsCallback g (ospath d) d).
Proof.
  intros H. unfold fsCallback.
  eapply ensures_bind; [apply ensures_attempt, H|].
  intros r (terminal & -> & _).
  destruct terminal; apply ensures_ret; auto.
Qed.

Lemma ensures_children (l : list Dirent) :
  Forall (fun c =>
            (forall d', In d' (subtrees c) ->
               readErr d' = None /\
               ensures (fun _ => True) (g (ospath d') d')) ->
            ensures (fun _ => True)
                    (godirwalk.walk (fsCallback g) fsErrorCallback c)) l ->
  (forall c d', In c l -> In d' (subtrees c) ->
     readErr d' = None /\ ensures (fun _ => True) (g (ospath d') d')) ->
  ensures (fun _ => True)
    ((fix children (l : list Dirent) : M St unit :=
        match l with
        | [] => ret tt
        | c :: l' =>
          godirwalk.walk (fsCallback g) fsErrorCallback c ;; children l'
        end) l).
Proof.
  induction 1 as [|c l Hc _ IHl]; intros Hsub.
  - now apply ensures_ret.
  - eapply ensures_bind.
    + apply Hc. intros d' Hd'. apply (Hsub c d'); [now left|exact Hd'].
    + intros _ _. apply IHl. intros c' d' Hc' Hd'.
      apply (Hsub c' d'); [now right|exact Hd'].
Qed.

(** The walk of a tree returns when every entry can be read and the
    callback returns at every entry. *)
Lemma ensures_godirwalk (d : Dirent) :
  (forall d', In d' (subtrees d) ->
     readErr d' = None /\ ensures (fun _ => True) (g (ospath d') d')) ->
  ensures (fun _ => True)
          (godirwalk.walk (fsCallback g) fsErrorCallback d).
Proof.
  induction d as [p m r l IH] using Dirent_tree_ind. intros H.
  destruct (H _ (subtrees_self (mkDirent p m r l))) as [Hr Hg].
  simpl in Hr, Hg. subst r.
  assert (Hdescend : ensures (fun _ => True)
    (emit (EvReadDir p) ;;
     (fix children (l : list Dirent) : M St unit :=
        match l with
        | [] => ret tt
        | c :: l' =>
          godirwalk.walk (fsCallback g) fsErrorCallback c ;; children l'
        end) l)).
  { eapply ensures_bind; [apply ensures_emit|]. intros _ _.
    apply ensures_children; [exact IH|].
    intros c d' Hc Hd'. apply H. eapply subtrees_child; eauto. }
  simpl. eapply ensures_bind.
  - apply (ensures_fsCallback (mkDirent p m None l)). exact Hg.
  - intros err [->| ->].
    + destruct m as [| |toDir].
      * now apply ensures_ret.
      * exact Hdescend.
      * eapply ensures_bind; [apply ensures_emit|]. intros _ _.
        destruct toDir; [exact Hdescend|now apply ensures_ret].
    + now apply ensures_ret.
Qed.
End DirWalkEnsures.

(** A callback run in front of a computation that reports nothing. *)
Lemma call_then_silent {St B} (f : @callback St) (r : EntityRef)
      (m : M St B) (st : State St) :
  reports (fun _ => False) m ->
  exists evs,
    log (snd ((call f r ;; m) st)) = (log st ++ EvCallback r :: evs)%list /\
    reported evs = [].
Proof.
  intros H. unfold bind, call.
  destruct (f r (user st)) as [[e|] u]; simpl.
  - exists []. now split.
  - destruct (H (mkState (log st ++ [EvCallback r]) u)) as (evs & E & F).
    exists evs. rewrite E. simpl. rewrite <- app_assoc. split; [reflexivity|].
    destruct (reported evs) as [|x l]; [reflexivity|].
    now inversion F.
Qed.

(** C5.  A walk whose entry point and desired type are both [Root] hands
    exactly one entity to the callback, the entry point itself, and does
    so before anything else: the first event of the walk is that call,
    and no intermediate node, object, version or file is reported after
    it.  On a well-formed layout (the start path is a directory, and
    nothing below it fails to be read, probed or loaded), with a callback
    that accepts the root, the walk returns without an error.  The type
    constants are ordered with deeper entities smaller, as the walk
    assumes. *)
Theorem root_walk_reports_root_once {St : Type} (w : Env)
        (f : @callback St) (rootRef : EntityRef) (st st1 : State St)
        (s : scope) :
  deepFirst w ->
  Type' rootRef = ocfl.Root ->
  newScope w rootRef ocfl.Root st = (Done s, st1) ->
  (exists evs,
     log (snd (walk w f s st1)) = (log st1 ++ EvCallback rootRef :: evs)%list /\
     reported evs = []) /\
  (fst (f rootRef (user st1)) = None ->
   (exists tree,
      stat w (if (Addr rootRef =? EmptyString)%string then Addr (root s)
              else Addr rootRef) = inr tree /\
      mode tree = ModeDir /\
      readable w tree) ->
   fst (walk w f s st1) = Done tt).
Proof.
  intros Hdeep Htype Hs.
  rewrite newScope_run in Hs.
  destruct (findRoot w rootRef ocfl.Root) as [e|rt]; [discriminate|].
  injection Hs as <- _. rewrite Htype. simpl ocfl.eqb. cbv iota.
  set (s := {| root := rt; startFrom := rootRef; desired := rootRef |}).
  assert (Hlt : ltType w ocfl.Root ocfl.Object = false).
  { apply ltType_false. destruct Hdeep as (_ & _ & _ & ?). lia. }
  assert (Hc : contains w s rootRef = true).
  { apply (rootScope_contains_start w s); auto. }
  set (tail := r <- attempt (fsWalk w (if (Addr rootRef =? EmptyString)%string
                                   then Addr (root s) else Addr rootRef)
                                (visit w f s)) ;;
               match r with
               | inl err => fail (Wrap err "error performing walk")
               | inr _ => ret tt
               end).
  assert (Hwalk : forall st', walk w f s st' = (call f rootRef ;; tail) st').
  { intros st'. unfold walk. simpl startFrom. rewrite Htype, Hlt.
    unfold bind at 1. simpl. rewrite Hc, Htype. reflexivity. }
  split.
  - rewrite Hwalk. apply call_then_silent.
    apply reports_walk_tail. apply reports_fsWalk. intros tree d _ _.
    eapply reports_weaken; [|apply reports_visit].
    intros r Hy. eapply (rootScope_yields_nothing w s); eauto.
  - intros Hf (tree & Hstat & Hdir & Hread). rewrite Hwalk.
    unfold bind at 1. unfold call.
    destruct (f rootRef (user st1)) as [[e|] u]; [discriminate|].
    assert (Htail : ensures (fun _ => True) tail).
    { unfold tail. eapply ensures_bind.
      - apply ensures_attempt. unfold fsWalk. rewrite Hstat.
        eapply ensures_bind; [apply ensures_emit|]. intros _ _.
        unfold godirwalk.Walk, IsDir. rewrite Hdir.
        apply ensures_godirwalk. intros d Hd.
        destruct (Hread d Hd) as (Hr & Herr & Hinv). split; [exact Hr|].
        apply (rootScope_visit w f s); auto.
      - intros r (a & -> & _). now apply ensures_ret. }
    destruct (Htail (mkState (log (mkState (log st1 ++ [EvCallback rootRef])
                                           (user st1))) u))
      as ([] & st' & E & _).
    rewrite E. reflexivity.
Qed.

(** The walk for the root of the demo layout. *)
Lemma root_walk_reports_root_once_witness :
  (exists evs,
     log (snd (walk (Demo.env Demo.rankDeep Demo.invA) Demo.accept
                    (mkScope Demo.storageRoot Demo.storageRoot
                             Demo.storageRoot)
                    (mkState [EvFindRoot Demo.storageRoot ocfl.Root] tt)))
     = ([EvFindRoot Demo.storageRoot ocfl.Root]
          ++ EvCallback Demo.storageRoot :: evs)%list /\
     reported evs = []) /\
  fst (walk (Demo.env Demo.rankDeep Demo.invA) Demo.accept
            (mkScope Demo.storageRoot Demo.storageRoot Demo.storageRoot)
            (mkState [EvFindRoot Demo.storageRoot ocfl.Root] tt))
  = Done tt.
Proof.
  destruct (root_walk_reports_root_once
              (Demo.env Demo.rankDeep Demo.invA) Demo.accept
              Demo.storageRoot Demo.start _ _
              ltac:(unfold deepFirst; simpl; lia) eq_refl eq_refl)
    as [H1 H2].
  split; [exact H1|].
  apply H2; [reflexivity|].
  exists Demo.tree. split; [reflexivity|]. split; [reflexivity|].
  intros d Hd. simpl in Hd.
  repeat (destruct Hd as [<-|Hd];
          [unfold entryOK; simpl; repeat split;
           try discriminate; intros _; now exists Demo.invA|]).
  contradiction.
Defined.

(** ** The gate in front of the versions *)

Lemma bind_ret_tt {St} (m : M St unit) (st : State St) :
  (m ;; ret tt) st = m st.
Proof.
  unfold bind, ret. destruct (m st) as [[[]|e|] st']; reflexivity.
Qed.

(** [walkObject] once the inventory is loaded. *)
Lemma walkObject_loaded {St} (w : Env) (f : @callback St) (s : scope)
      (path : string) (inv : metadata.Inventory) (st : State St) :
  readMetadata w path = inr inv ->
  walkObject w f s path st
  = (emit (EvReadMetadata path) ;;
     when (contains w s (objectOf (root s) inv path))
          (call f (objectOf (root s) inv path)) ;;
     if leType w (Type' (desired s)) ocfl.Version
     then walkVersions w f s inv (objectOf (root s) inv path)
     else ret tt) st.
Proof. intros H. unfold walkObject. rewrite H. reflexivity. Qed.

(** Under the order of the design document,
    [Root < Intermediate < Object < Version < File], the gate
    [desired.Type <= Version] is closed for files and open for the root:
    a walk of the demo object for files reports nothing although the
    object has three files, and a walk for the root entered at a version
    that does not exist goes into the versions and fails there. *)
Lemma version_gate_stated_order_counterexample :
  let w := Demo.env (Demo.rankStated 0) Demo.invA in
  leType w ocfl.File ocfl.Version = false /\
  leType w ocfl.Root ocfl.Version = true /\
  walkObject w Demo.accept
             (mkScope Demo.storageRoot Demo.storageRoot (bare ocfl.File))
             "/ocfl/obj-A" Demo.start
  = (Done tt, mkState [EvReadMetadata "/ocfl/obj-A"] tt) /\
  fst (walkObject w Demo.accept
                  (mkScope Demo.storageRoot (Demo.version "v9")
                           (bare ocfl.Root))
                  "/ocfl/obj-A" Demo.start)
  = Failed (Errorf "No version v9 exists in obj-A").
Proof. cbv zeta. repeat split. Qed.

(** C6 (amended).  With the inventory loaded and the object reported if
    it is in scope, [walkObject] goes on into the versions exactly when
    [desired.Type <= Version] holds for the numeric values of the type
    constants.  When deeper entities have smaller values, the gate is
    open for [Version] and [File], and closed for [Root], [Intermediate]
    and [Object]: for these the object is the only entity that
    [walkObject] can report, and it returns right after. *)
Theorem version_descent_gate {St : Type} (w : Env) (f : @callback St)
        (s : scope) (path : string) (inv : metadata.Inventory) :
  deepFirst w ->
  readMetadata w path = inr inv ->
  let object := objectOf (root s) inv path in
  (forall st,
     walkObject w f s path st
     = (emit (EvReadMetadata path) ;;
        when (contains w s object) (call f object) ;;
        if leType w (Type' (desired s)) ocfl.Version
        then walkVersions w f s inv object
        else ret tt) st) /\
  (Type' (desired s) = ocfl.Version \/ Type' (desired s) = ocfl.File ->
   forall st,
     walkObject w f s path st
     = (emit (EvReadMetadata path) ;;
        when (contains w s object) (call f object) ;;
        walkVersions w f s inv object) st) /\
  (Type' (desired s) = ocfl.Root \/ Type' (desired s) = ocfl.Intermediate \/
   Type' (desired s) = ocfl.Object ->
   (forall st,
      walkObject w f s path st
      = (emit (EvReadMetadata path) ;;
         when (contains w s object) (call f object)) st) /\
   reports (fun r => r = object) (walkObject w f s path)).
Proof.
  intros (Hfv & Hvo & Hoi & Hor) Hinv object. split; [|split].
  - intros st. now apply walkObject_loaded.
  - intros Hd st. rewrite (walkObject_loaded w f s path inv st Hinv).
    assert (Hg : leType w (Type' (desired s)) ocfl.Version = true).
    { unfold leType. apply Z.leb_le. destruct Hd as [-> | ->]; lia. }
    rewrite Hg. reflexivity.
  - intros Hd.
    assert (Hg : leType w (Type' (desired s)) ocfl.Version = false).
    { apply leType_false. destruct Hd as [-> |[-> | ->]]; lia. }
    assert (Heq : forall st,
      walkObject w f s path st
      = (emit (EvReadMetadata path) ;;
         when (contains w s object) (call f object)) st).
    { intros st. rewrite (walkObject_loaded w f s path inv st Hinv).
      rewrite Hg. unfold bind at 1 3. simpl.
      apply bind_ret_tt. }
    split; [exact Heq|].
    eapply reports_ext; [exact Heq|].
    apply reports_bind; [now apply reports_emit|]. intros _.
    apply reports_when. intros _. now apply reports_call.
Qed.

(** The gate at the demo object, for a walk for versions and for a walk
    for objects. *)
Lemma version_descent_gate_witness :
  let w := Demo.env Demo.rankDeep Demo.invA in
  let object := objectOf Demo.storageRoot Demo.invA "/ocfl/obj-A" in
  (forall st : State unit,
     walkObject w Demo.accept
                (mkScope Demo.storageRoot Demo.storageRoot (bare ocfl.Version))
                "/ocfl/obj-A" st
     = (emit (EvReadMetadata "/ocfl/obj-A") ;;
        when (contains w (mkScope Demo.storageRoot Demo.storageRoot
                                  (bare ocfl.Version)) object)
             (call Demo.accept object) ;;
        walkVersions w Demo.accept
                     (mkScope Demo.storageRoot Demo.storageRoot
                              (bare ocfl.Version))
                     Demo.invA object) st) /\
  reports (fun r => r = object)
          (walkObject (St:=unit) w Demo.accept
                      (mkScope Demo.storageRoot Demo.storageRoot
                               (bare ocfl.Object))
                      "/ocfl/obj-A").
Proof.
  cbv zeta. split.
  - apply (proj1 (proj2 (version_descent_gate
                    (Demo.env Demo.rankDeep Demo.invA) Demo.accept
                    (mkScope Demo.storageRoot Demo.storageRoot
                             (bare ocfl.Version))
                    "/ocfl/obj-A" Demo.invA
                    ltac:(unfold deepFirst; simpl; lia) eq_refl))).
    now left.
  - apply (proj2 (proj2 (version_descent_gate
                    (Demo.env Demo.rankDeep Demo.invA) Demo.accept
                    (mkScope Demo.storageRoot Demo.storageRoot
                             (bare ocfl.Object))
                    "/ocfl/obj-A" Demo.invA
                    ltac:(unfold deepFirst; simpl; lia) eq_refl))).
    now right; right.
Defined.

(** ** Narrowing to the version of the entry point *)

Lemma mentions_intro (pre sub post : string) :
  mentions (pre ++ sub ++ post) sub.
Proof. now exists pre, post. Qed.

Lemma append_assoc (a b c : string) : ((a ++ b) ++ c = a ++ (b ++ c))%string.
Proof. induction a as [|x a IH]; simpl; [reflexivity|now rewrite IH]. Qed.

Lemma append_nil_r (a : string) : (a ++ EmptyString = a)%string.
Proof. induction a as [|x a IH]; simpl; [reflexivity|now rewrite IH]. Qed.

(** The message of the missing-version error names the version and the
    object, also after the two wrappings on the way out of [walk]. *)
Lemma noVersion_mentions (v o : string) :
  let e := Errorf ("No version " ++ v ++ " exists in " ++ o) in
  let e' := Wrap (Wrap e "terminating walk due to error")
                 "error performing walk" in
  mentions (Error e) v /\ mentions (Error e) o /\
  mentions (Error e') v /\ mentions (Error e') o.
Proof.
  cbv zeta. repeat split.
  - exists "No version ", (" exists in " ++ o)%string. reflexivity.
  - exists ("No version " ++ v ++ " exists in ")%string, EmptyString.
    rewrite append_nil_r. simpl. rewrite !append_assoc. reflexivity.
  - exists "error performing walk: terminating walk due to error: No version ",
           (" exists in " ++ o)%string.
    reflexivity.
  - exists ("error performing walk: terminating walk due to error: No version "
              ++ v ++ " exists in ")%string, EmptyString.
    rewrite append_nil_r. simpl. rewrite !append_assoc. reflexivity.
Qed.

(** ** Stepping through the walk *)

Section Steps.
Context {St : Type}.
Variable w : Env.
Variable f : @callback St.
Variable s : scope.

(** The closure of [walk] at an entry that the probe takes for an
    object root. *)
Lemma visit_objectRoot (d : Dirent) (st : State St) :
  mode d <> ModeRegular ->
  objectRootAt w (ospath d) ->
  visit w f s (ospath d) d st
  = match walkObject w f s (ospath d)
                     (logged st (EvIsRoot (ospath d) ocfl.Object)) with
    | (Done _, st') => (Done dontGoDeeper, st')
    | (Failed e, st') => (Failed e, st')
    | (Panic, st') => (Panic, st')
    end.
Proof.
  intros Hmode [Hroot Hperr]. unfold visit.
  assert (Hreg : negb (IsDir d) && negb (IsSymlink d) = false).
  { unfold IsDir, IsSymlink. destruct (mode d); try reflexivity.
    contradiction. }
  rewrite Hreg.
  destruct (isRoot w (ospath d) ocfl.Object) as [[b x] perr].
  simpl in Hroot, Hperr. subst b perr. simpl.
  unfold bind, emit, ret, logged. simpl.
  destruct (walkObject w f s (ospath d) _) as [[a|e|] st']; reflexivity.
Qed.

(** [fsWalk] when its callback fails at the start directory, or takes
    it for a terminal node. *)
Lemma fsWalk_start (dir : string) (tree : Dirent)
      (g : string -> Dirent -> M St bool) (st : State St) :
  stat w dir = inr tree ->
  mode tree = ModeDir ->
  fsWalk w dir g st
  = match g (ospath tree) tree (logged st (EvStat dir)) with
    | (Done false, st') =>
      godirwalk.walk (fsCallback g) fsErrorCallback tree
                     (logged st (EvStat dir))
    | (Done true, st') => (Done tt, st')
    | (Failed e, st') =>
      match Cause e with
      | skip SkipNode => (Done tt, st')
      | _ => (Failed (Wrap e "terminating walk due to error"), st')
      end
    | (Panic, st') => (Panic, st')
    end.
Proof.
  intros Hstat Hdir. unfold fsWalk. rewrite Hstat.
  unfold bind at 1. unfold emit at 1. fold (logged st (EvStat dir)).
  unfold godirwalk.Walk, IsDir. rewrite Hdir.
  destruct tree as [p m rerr l]. simpl in Hdir. subst m.
  simpl. unfold bind at 1. unfold fsCallback at 1. unfold bind at 1.
  unfold attempt at 1.
  destruct (g p (mkDirent p ModeDir rerr l) (logged st (EvStat dir)))
    as [[[|]|e|] st'] eqn:Hg; try reflexivity.
  - unfold fsCallback, bind, attempt. rewrite Hg. reflexivity.
  - unfold ret at 1. unfold godirwalk.onError, fsErrorCallback.
    change (Cause (Wrap e "terminating walk due to error")) with (Cause e).
    destruct (Cause e) as [| | |[|]]; reflexivity.
Qed.

(** [walk] entered below an object: the object is looked up and the
    tree at its address is walked. *)
Lemma walk_below_object (obj : EntityRef) (st : State St) :
  ltType w (Type' (startFrom s)) ocfl.Object = true ->
  findRoot w (startFrom s) ocfl.Object = inr obj ->
  Type' obj <> ocfl.Root ->
  walk w f s st
  = (r <- attempt (fsWalk w (if (Addr obj =? EmptyString)%string then Addr (root s)
                         else Addr obj) (visit w f s)) ;;
     match r with
     | inl err => fail (Wrap err "error performing walk")
     | inr _ => ret tt
     end) (logged st (EvFindRoot (startFrom s) ocfl.Object)).
Proof.
  intros Hlt Hobj Ht. unfold walk. rewrite Hlt.
  unfold bind at 1 2. unfold callFindRoot at 1. unfold bind at 1.
  unfold emit at 1, ret at 1. simpl fst. rewrite Hobj. simpl orFail.
  unfold ret at 1. apply ocfl_eqb_neq in Ht. rewrite Ht. simpl andb.
  unfold when at 1. unfold bind at 1. unfold ret at 1. reflexivity.
Qed.
End Steps.

Section Narrowing.
Context {St : Type}.
Variable w : Env.
Variable f : @callback St.
Variable s : scope.
Variable sv : EntityRef.
Hypothesis Hentry :
  Type' (startFrom s) = ocfl.Version \/ Type' (startFrom s) = ocfl.File.
Hypothesis Hsv : findRoot w (startFrom s) ocfl.Version = inr sv.

Lemma narrowing_applies :
  ocfl.eqb (Type' (startFrom s)) ocfl.Version
  || ocfl.eqb (Type' (startFrom s)) ocfl.File = true.
Proof. destruct Hentry as [-> | ->]; reflexivity. Qed.

Lemma selectVersions_absent inv object (st : State St) :
  hasKey (metadata.Versions inv) (ID sv) = false ->
  selectVersions w s inv object st
  = (Failed (Errorf ("No version " ++ ID sv ++ " exists in " ++ ID object)),
     mkState (log st ++ [EvFindRoot (startFrom s) ocfl.Version]) (user st)).
Proof.
  intros H. unfold selectVersions. rewrite narrowing_applies.
  unfold bind, callFindRoot, emit, ret. simpl. rewrite Hsv, H.
  reflexivity.
Qed.

Lemma selectVersions_present inv object (st : State St) :
  hasKey (metadata.Versions inv) (ID sv) = true ->
  selectVersions w s inv object st
  = (Done [(ID sv, tt)],
     mkState (log st ++ [EvFindRoot (startFrom s) ocfl.Version]) (user st)).
Proof.
  intros H. unfold selectVersions. rewrite narrowing_applies.
  unfold bind, callFindRoot, emit, ret. simpl. rewrite Hsv, H.
  reflexivity.
Qed.

End Narrowing.

(** The whole walk, entered below an object that exists but at a version
    that its manifest does not have. *)
Lemma walk_missing_version {St} (w : Env) (f : @callback St) (s : scope)
      (sv obj : EntityRef) (tree : Dirent) (inv : metadata.Inventory)
      (st : State St) :
  Type' (startFrom s) = ocfl.Version \/ Type' (startFrom s) = ocfl.File ->
  findRoot w (startFrom s) ocfl.Version = inr sv ->
  deepFirst w ->
  findRoot w (startFrom s) ocfl.Object = inr obj ->
  Type' obj = ocfl.Object ->
  stat w (if (Addr obj =? EmptyString)%string then Addr (root s) else Addr obj)
  = inr tree ->
  mode tree = ModeDir ->
  objectRootAt w (ospath tree) ->
  readMetadata w (ospath tree) = inr inv ->
  leType w (Type' (desired s)) ocfl.Version = true ->
  (contains w s (objectOf (root s) inv (ospath tree)) = true ->
   forall u, fst (f (objectOf (root s) inv (ospath tree)) u) = None) ->
  hasKey (metadata.Versions inv) (ID sv) = false ->
  exists st' evs,
    walk w f s st
    = (Failed (Wrap (Wrap (Errorf ("No version " ++ ID sv ++ " exists in "
                                     ++ metadata.inv_ID inv))
                          "terminating walk due to error")
                    "error performing walk"), st') /\
    log st' = (log st ++ evs)%list /\
    Forall (fun r => Type' r = ocfl.Object) (reported evs).
Proof.
  intros Hentry Hsv (Hfv & Hvo & Hoi & Hor) Hobj Htobj Hstat Hdir Hroot
         Hinv Hgate Hacc Hkey.
  assert (Hmode : mode tree <> ModeRegular) by (rewrite Hdir; discriminate).
  assert (Hlt : ltType w (Type' (startFrom s)) ocfl.Object = true).
  { unfold ltType. apply Z.ltb_lt. destruct Hentry as [-> | ->]; lia. }
  rewrite (walk_below_object w f s obj st Hlt Hobj)
    by (rewrite Htobj; discriminate).
  unfold bind at 1. unfold attempt at 1.
  rewrite (fsWalk_start w _ tree _ _ Hstat Hdir).
  rewrite (visit_objectRoot w f s tree _ Hmode Hroot).
  rewrite (walkObject_loaded w f s (ospath tree) inv _ Hinv).
  rewrite Hgate. unfold bind at 1. unfold emit at 1.
  unfold bind at 1. unfold when, call.
  destruct (contains w s (objectOf (root s) inv (ospath tree))) eqn:Hc.
  - specialize (Hacc eq_refl). simpl user.
    specialize (Hacc (user st)).
    destruct (f (objectOf (root s) inv (ospath tree)) (user st))
      as [[e|] u]; [discriminate|].
    unfold walkVersions, bind.
    rewrite (selectVersions_absent w s sv Hentry Hsv) by exact Hkey.
    simpl. eexists _, _. split; [reflexivity|]. split.
    + simpl. rewrite <- !app_assoc. reflexivity.
    + simpl. repeat constructor.
  - unfold ret at 1. unfold walkVersions, bind.
    rewrite (selectVersions_absent w s sv Hentry Hsv) by exact Hkey.
    simpl. eexists _, _. split; [reflexivity|]. split.
    + simpl. rewrite <- !app_assoc. reflexivity.
    + simpl. constructor.
Qed.

(** The whole walk, entered below an object at a version that its
    manifest does not have, for a desired type above [Version]: the
    versions are not looked at, and the walk returns. *)
Lemma walk_gate_closed {St} (w : Env) (f : @callback St) (s : scope)
      (obj : EntityRef) (tree : Dirent) (inv : metadata.Inventory)
      (st : State St) :
  Type' (startFrom s) = ocfl.Version \/ Type' (startFrom s) = ocfl.File ->
  deepFirst w ->
  findRoot w (startFrom s) ocfl.Object = inr obj ->
  Type' obj = ocfl.Object ->
  stat w (if (Addr obj =? EmptyString)%string then Addr (root s) else Addr obj)
  = inr tree ->
  mode tree = ModeDir ->
  objectRootAt w (ospath tree) ->
  readMetadata w (ospath tree) = inr inv ->
  leType w (Type' (desired s)) ocfl.Version = false ->
  (contains w s (objectOf (root s) inv (ospath tree)) = true ->
   forall u, fst (f (objectOf (root s) inv (ospath tree)) u) = None) ->
  exists st' evs,
    walk w f s st = (Done tt, st') /\
    log st' = (log st ++ evs)%list /\
    Forall (fun r => Type' r = ocfl.Object) (reported evs).
Proof.
  intros Hentry (Hfv & Hvo & Hoi & Hor) Hobj Htobj Hstat Hdir Hroot
         Hinv Hgate Hacc.
  assert (Hmode : mode tree <> ModeRegular) by (rewrite Hdir; discriminate).
  assert (Hlt : ltType w (Type' (startFrom s)) ocfl.Object = true).
  { unfold ltType. apply Z.ltb_lt. destruct Hentry as [-> | ->]; lia. }
  rewrite (walk_below_object w f s obj st Hlt Hobj)
    by (rewrite Htobj; discriminate).
  unfold bind at 1. unfold attempt at 1.
  rewrite (fsWalk_start w _ tree _ _ Hstat Hdir).
  rewrite (visit_objectRoot w f s tree _ Hmode Hroot).
  rewrite (walkObject_loaded w f s (ospath tree) inv _ Hinv).
  rewrite Hgate. unfold bind at 1. unfold emit at 1.
  unfold bind at 1. unfold when, call.
  destruct (contains w s (objectOf (root s) inv (ospath tree))) eqn:Hc.
  - specialize (Hacc eq_refl). simpl user.
    specialize (Hacc (user st)).
    destruct (f (objectOf (root s) inv (ospath tree)) (user st))
      as [[e|] u]; [discriminate|].
    simpl. eexists _, _. split; [reflexivity|]. split.
    + simpl. rewrite <- !app_assoc. reflexivity.
    + simpl. repeat constructor.
  - simpl. eexists _, _. split; [reflexivity|]. split.
    + simpl. rewrite <- !app_assoc. reflexivity.
    + simpl. constructor.
Qed.




(** ** Errors that the walk does not pass on *)

(** The walk never looks at the error of [inv.Files]: two inventories
    that differ in that error only are walked alike. *)
Lemma walkVersion_ignores_Files_error {St} (w : Env) (f : @callback St)
      (s : scope) (inv inv' : metadata.Inventory) (object : EntityRef)
      (vID : string) (st : State St) :
  fst (metadata.Files inv vID) = fst (metadata.Files inv' vID) ->
  walkVersion w f s inv object vID st = walkVersion w f s inv' object vID st.
Proof. intros H. unfold walkVersion. rewrite H. reflexivity. Qed.

(** C4, at the failing input.  The inventory of the demo object has one
    version, [v1], and fetching its file listing fails.  A walk from the
    storage root for every entity does not fail: it returns without an
    error after reporting the root, the intermediate directory, the
    object and the version [v1], the latter without any file. *)
Theorem files_error_is_dropped :
  let w := Demo.env Demo.rankDeep Demo.invBroken in
  metadata.Files Demo.invBroken "v1" = ([], Some "cannot list files") /\
  fst (Demo.run w Demo.storageRoot ocfl.Any) = Done tt /\
  reported (log (snd (Demo.run w Demo.storageRoot ocfl.Any)))
  = [Demo.storageRoot;
     intermediateOf w Demo.storageRoot "/ocfl/ab";
     Demo.objA;
     versionOf w Demo.objA "v1"].
Proof. cbv zeta. repeat split. Qed.

(** ** The nil dereference in the narrowing *)

Section Safe.
Context {St : Type}.

Lemma safe_ret {A} (a : A) : safe (@ret St A a).
Proof. intros st. discriminate. Qed.

Lemma safe_fail {A} (e : error) : safe (@fail St A e).
Proof. intros st. discriminate. Qed.

Lemma safe_bind {A B} (m : M St A) (k : A -> M St B) :
  safe m -> (forall a, safe (k a)) -> safe (bind m k).
Proof.
  intros Hm Hk st. unfold bind. specialize (Hm st).
  destruct (m st) as [[a|e|] st']; simpl in *.
  - apply Hk.
  - discriminate.
  - contradiction.
Qed.

Lemma safe_call (f : @callback St) (r : EntityRef) : safe (call f r).
Proof.
  intros st. unfold call. destruct (f r (user st)) as [[e|] u];
    discriminate.
Qed.

Lemma safe_when (c : bool) (m : M St unit) : safe m -> safe (when c m).
Proof. destruct c; simpl; [auto|intros _; apply safe_ret]. Qed.

Lemma safe_forEach {A} (l : list A) (body : A -> M St unit) :
  (forall x, safe (body x)) -> safe (forEach l body).
Proof.
  intros H. induction l as [|x l IH]; simpl.
  - apply safe_ret.
  - apply safe_bind; [apply H|intros _; exact IH].
Qed.

Lemma safe_walkVersion (w : Env) (f : @callback St) s inv object vID :
  safe (walkVersion w f s inv object vID).
Proof.
  unfold walkVersion. apply safe_bind.
  - apply safe_when, safe_call.
  - intros _. apply safe_when, safe_forEach. intros file.
    unfold walkFile. destruct (negb _); [apply safe_ret|apply safe_call].
Qed.
End Safe.

Lemma nearest_In (r a : EntityRef) (t : ocfl.Type') :
  In a (chain r) -> Type' a = t -> exists b, nearest r t = Some b.
Proof.
  intros Hin Ht. unfold nearest.
  destruct (find (fun a => ocfl.eqb (Type' a) t) (chain r)) as [b|] eqn:E.
  - now exists b.
  - exfalso. eapply find_none in E; [|exact Hin].
    simpl in E. rewrite Ht, ocfl_eqb_refl in E. discriminate.
Qed.

(** C10.  [walkVersions] drops the error of [findRoot(startFrom, Version)]
    and reads [scopeVersion.ID].  When the entry point is a version or a
    file and is, or has on its [Parent] chain, a reference of type
    [Version], and [findRoot] resolves along the chain, the call cannot
    fail, [scopeVersion] is not nil and [walkVersions] does not panic.
    Nothing guards the dereference: if the call does fail,
    [walkVersions] panics. *)
Theorem narrowing_dereference {St : Type} (w : Env) (f : @callback St)
        (s : scope) (inv : metadata.Inventory) (object : EntityRef)
        (st : State St) :
  Type' (startFrom s) = ocfl.Version \/ Type' (startFrom s) = ocfl.File ->
  (resolvesChain w ->
   (exists a, In a (chain (startFrom s)) /\ Type' a = ocfl.Version) ->
   (exists sv, findRoot w (startFrom s) ocfl.Version = inr sv) /\
   fst (walkVersions w f s inv object st) <> Panic) /\
  (forall e, findRoot w (startFrom s) ocfl.Version = inl e ->
             fst (walkVersions w f s inv object st) = Panic).
Proof.
  intros Hentry. split.
  - intros Hres (a & Hin & Ht).
    destruct (nearest_In _ _ _ Hin Ht) as (sv & Hn).
    apply Hres in Hn. split; [now exists sv|].
    revert st. change (safe (walkVersions w f s inv object)).
    unfold walkVersions. apply safe_bind.
    + intros st. unfold selectVersions.
      rewrite (narrowing_applies s Hentry).
      unfold bind, callFindRoot, emit, ret. simpl. rewrite Hn.
      destruct (negb _); discriminate.
    + intros vs. apply safe_forEach. intros kv. apply safe_walkVersion.
  - intros e He. unfold walkVersions, bind, selectVersions.
    rewrite (narrowing_applies s Hentry).
    unfold bind, callFindRoot, emit, ret. simpl. rewrite He. reflexivity.
Qed.

Lemma resolvesChain_demo (rk : ocfl.Type' -> Z) (inv : metadata.Inventory) :
  resolvesChain (Demo.env rk inv).
Proof. intros r t a H. simpl. rewrite H. reflexivity. Defined.

(** A walk entered at file [b.txt] of version [v2] of the demo object. *)
Lemma narrowing_dereference_witness :
  (exists sv,
     findRoot (Demo.env Demo.rankDeep Demo.invA)
              (Demo.file "v2" "b.txt" "v2/content/b.txt") ocfl.Version
     = inr sv) /\
  fst (walkVersions (Demo.env Demo.rankDeep Demo.invA) Demo.accept
         (mkScope Demo.storageRoot
                  (Demo.file "v2" "b.txt" "v2/content/b.txt")
                  (Demo.file "v2" "b.txt" "v2/content/b.txt"))
         Demo.invA Demo.objA Demo.start) <> Panic.
Proof.
  apply (proj1 (narrowing_dereference
                  (Demo.env Demo.rankDeep Demo.invA) Demo.accept
                  (mkScope Demo.storageRoot
                           (Demo.file "v2" "b.txt" "v2/content/b.txt")
                           (Demo.file "v2" "b.txt" "v2/content/b.txt"))
                  Demo.invA Demo.objA Demo.start (or_intror eq_refl))).
  - apply resolvesChain_demo.
  - exists (Demo.version "v2"). split; [simpl; auto|reflexivity].
Defined.

(** ** Coordinate round trip *)

Lemma chain_unfold (e : EntityRef) :
  chain e = e :: match Parent e with Some p => chain p | None => [] end.
Proof. destruct e. reflexivity. Qed.

Section FileLoop.
Context {St : Type}.
Variable w : Env.
Variable g : @callback St.
Variable s : scope.
Variable object : EntityRef.
Variable vID : string.
Variable file : metadata.File.
Variables aF aV : string.
Hypothesis Hstart :
  startFrom s = reAddressed (fileOf w object vID file) aF aV.
Hypothesis Hdesired :
  desired s = reAddressed (fileOf w object vID file) aF aV.

(** In the scope of a walk entered at a file, a file of the same
    version of the same object is contained iff it has the logical
    path of the entry point. *)
Lemma contains_file (file' : metadata.File) :
  contains w s (fileOf w object vID file')
  = String.eqb (metadata.LogicalPath file) (metadata.LogicalPath file').
Proof.
  unfold contains. rewrite Hdesired, Hstart. simpl.
  rewrite sameCoords_refl.
  assert (E : leType w ocfl.File ocfl.File = true)
    by (unfold leType; apply Z.leb_refl).
  rewrite E, (String.eqb_refl vID).
  now destruct (String.eqb _ _).
Qed.

Lemma contains_nonfile (r : EntityRef) :
  Type' r <> ocfl.File -> contains w s r = false.
Proof.
  intros H. unfold contains. rewrite Hdesired, Hstart.
  change (Type' (reAddressed (fileOf w object vID file) aF aV))
    with ocfl.File.
  apply ocfl_eqb_neq in H.
  rewrite H, (ocfl_eqb_sym ocfl.File (Type' r)), H. reflexivity.
Qed.

(** Files with another logical path are passed over. *)
Lemma fileLoop_others (l : list metadata.File) (st : State St) :
  ~ In (metadata.LogicalPath file) (map metadata.LogicalPath l) ->
  forEach l (walkFile w g s object (versionOf w object vID)) st = (Done tt, st).
Proof.
  induction l as [|y l IH]; intros Hnin; simpl; [reflexivity|].
  simpl in Hnin. unfold bind. unfold walkFile at 1.
  fold (fileOf w object vID y). rewrite contains_file.
  destruct (String.eqb_spec (metadata.LogicalPath file)
                            (metadata.LogicalPath y)) as [E|N].
  - exfalso. apply Hnin. left. now symmetry.
  - simpl. apply IH. intros H. apply Hnin. now right.
Qed.

(** The loop over the files of the version calls the callback once, on
    the file that the walk builds for the logical path of the entry
    point. *)
Lemma fileLoop_once (l : list metadata.File) (st : State St) :
  NoDup (map metadata.LogicalPath l) -> In file l ->
  forEach l (walkFile w g s object (versionOf w object vID)) st
  = (match fst (g (fileOf w object vID file) (user st)) with
     | None => Done tt
     | Some e => Failed (Foreign e)
     end,
     mkState (log st ++ [EvCallback (fileOf w object vID file)])
             (snd (g (fileOf w object vID file) (user st)))).
Proof.
  induction l as [|y l IH]; intros Hnd Hin; [contradiction|].
  simpl in Hnd. inversion Hnd as [|? ? Hy Hnd']; subst.
  simpl. unfold bind. unfold walkFile at 1.
  fold (fileOf w object vID y). rewrite contains_file.
  destruct Hin as [->|Hin].
  - rewrite String.eqb_refl. simpl. unfold call.
    destruct (g (fileOf w object vID file) (user st)) as [[e|] u];
      simpl; [reflexivity|].
    now rewrite fileLoop_others.
  - destruct (String.eqb_spec (metadata.LogicalPath file)
                              (metadata.LogicalPath y)) as [E|N].
    + exfalso. apply Hy. rewrite <- E. now apply in_map.
    + simpl. now apply IH.
Qed.
End FileLoop.

(** A file reported by a walk was built from an entry of the tree, the
    inventory found there, one of its versions and one of its files. *)
Lemma walk_reports_files {St} (w : Env) (f : @callback St) (s : scope) :
  reports
    (fun r =>
       Type' r = ocfl.File ->
       exists dir tree d inv vID file,
         stat w dir = inr tree /\ In d (subtrees tree) /\
         mode d <> ModeRegular /\ objectRootAt w (ospath d) /\
         readMetadata w (ospath d) = inr inv /\
         hasKey (metadata.Versions inv) vID = true /\
         In file (fst (metadata.Files inv vID)) /\
         r = fileOf w (objectOf (root s) inv (ospath d)) vID file)
    (walk w f s).
Proof.
  apply reports_walk.
  - intros node _ Ht _ Hf. rewrite Ht in Hf. discriminate.
  - intros dir tree d r Hs Hd Hy Hf.
    destruct Hy as [ | | |inv vID file Hm Ho Hi _ _ Hk Hin _];
      try discriminate.
    now exists dir, tree, d, inv, vID, file.
Qed.

Section RoundTrip.
Context {St : Type}.
Variable w : Env.
Variable g : @callback St.
Variable rt : EntityRef.
Variable d : Dirent.
Variable inv : metadata.Inventory.
Variable vID : string.
Variable file : metadata.File.
Variables aF aV : string.

Hypothesis Hdeep : deepFirst w.
Hypothesis Hres : resolvesChain w.
Hypothesis Hroot : Type' rt = ocfl.Root.
Hypothesis Hpath : ospath d <> EmptyString.
Hypothesis Hstat : stat w (ospath d) = inr d.
Hypothesis Hmode : mode d = ModeDir.
Hypothesis Hobj : objectRootAt w (ospath d).
Hypothesis Hinv : readMetadata w (ospath d) = inr inv.
Hypothesis Hkey : hasKey (metadata.Versions inv) vID = true.
Hypothesis Hnd :
  NoDup (map metadata.LogicalPath (fst (metadata.Files inv vID))).
Hypothesis Hin : In file (fst (metadata.Files inv vID)).

Lemma roundTrip_roots :
  let object := objectOf rt inv (ospath d) in
  let E := reAddressed (fileOf w object vID file) aF aV in
  findRoot w E ocfl.Root = inr rt /\
  findRoot w E ocfl.Object = inr object /\
  findRoot w E ocfl.Version
  = inr {| ID := vID; Addr := aV; Type' := ocfl.Version;
           Parent := Some object |}.
Proof.
  intros object E.
  repeat split; apply Hres; unfold nearest, E, object; simpl;
    try reflexivity.
  rewrite chain_unfold. simpl. now rewrite Hroot.
Qed.

Lemma roundTrip_scope (st : State St) :
  let E := reAddressed (fileOf w (objectOf rt inv (ospath d)) vID file)
                       aF aV in
  newScope w E ocfl.File st
  = (Done (mkScope rt E E), logged st (EvFindRoot E ocfl.Root)).
Proof.
  intros E. rewrite newScope_run.
  destruct roundTrip_roots as (H & _ & _). fold E in H. rewrite H.
  reflexivity.
Qed.

(** The walk entered at the re-addressed file: the callback is called
    once, on the file that the walk builds. *)
Lemma roundTrip_walk (st : State St) :
  let object := objectOf rt inv (ospath d) in
  let F := fileOf w object vID file in
  let E := reAddressed F aF aV in
  let s := mkScope rt E E in
  exists st1,
    log st1 = (log st ++ [EvFindRoot E ocfl.Object;
                          EvStat (ospath d);
                          EvIsRoot (ospath d) ocfl.Object;
                          EvReadMetadata (ospath d);
                          EvFindRoot E ocfl.Version])%list /\
    user st1 = user st /\
    walk w g s st
    = (match fst (g F (user st)) with
       | None => Done tt
       | Some e =>
         Failed (Wrap (Wrap (Foreign e) "terminating walk due to error")
                      "error performing walk")
       end,
       mkState (log st1 ++ [EvCallback F]) (snd (g F (user st)))).
Proof.
  intros object F E s.
  destruct Hdeep as (Hfv & Hvo & Hoi & Hor).
  destruct roundTrip_roots as (_ & Hfo & Hfver).
  fold object in Hfo, Hfver. fold F in Hfo, Hfver. fold E in Hfo, Hfver.
  assert (Hmode' : mode d <> ModeRegular) by (rewrite Hmode; discriminate).
  assert (Hlt : ltType w (Type' (startFrom s)) ocfl.Object = true).
  { unfold ltType. apply Z.ltb_lt. simpl. lia. }
  assert (Hgate : leType w (Type' (desired s)) ocfl.Version = true).
  { unfold leType. apply Z.leb_le. simpl. lia. }
  assert (Hfile : leType w (Type' (desired s)) ocfl.File = true).
  { unfold leType. apply Z.leb_le. simpl. lia. }
  assert (Hsel := fun st' : State St =>
    selectVersions_present w s
      {| ID := vID; Addr := aV; Type' := ocfl.Version;
         Parent := Some object |}
      (or_intror eq_refl) Hfver inv object st' Hkey).
  simpl ID in Hsel.
  eexists (mkState _ (user st)). split; [reflexivity|].
  split; [reflexivity|].
  rewrite (walk_below_object w g s object st Hlt Hfo) by discriminate.
  unfold bind at 1. unfold attempt at 1.
  assert (Ea : (Addr object =? EmptyString)%string = false).
  { apply String.eqb_neq. exact Hpath. }
  rewrite Ea. change (Addr object) with (ospath d).
  rewrite (fsWalk_start w _ d _ _ Hstat Hmode).
  rewrite (visit_objectRoot w g s d _ Hmode' Hobj).
  rewrite (walkObject_loaded w g s (ospath d) inv _ Hinv).
  rewrite Hgate.
  rewrite (contains_nonfile w s object vID file aF aV eq_refl eq_refl)
    by discriminate.
  unfold bind at 1. unfold emit at 1. unfold bind at 1.
  unfold when at 1. unfold ret at 1.
  unfold walkVersions. unfold bind at 1. rewrite Hsel.
  simpl forEach. rewrite bind_ret_tt.
  unfold walkVersion. simpl fst.
  fold (versionOf w (objectOf rt inv (ospath d)) vID). fold object.
  rewrite (contains_nonfile w s object vID file aF aV eq_refl eq_refl)
    by discriminate.
  rewrite Hfile. unfold when. unfold bind at 1. unfold ret at 1.
  rewrite (fileLoop_once w g s object vID file aF aV eq_refl eq_refl
             _ _ Hnd Hin).
  fold F. simpl user. unfold logged. simpl log.
  destruct (g F (user st)) as [[e|] u]; simpl.
  - rewrite <- !app_assoc. reflexivity.
  - rewrite <- !app_assoc. reflexivity.
Qed.
End RoundTrip.



Lemma statCoherent_demo (rk : ocfl.Type' -> Z) (inv : metadata.Inventory) :
  statCoherent (Demo.env rk inv).
Proof.
  intros dir tree d Hs Hd Hm [Ho _]. simpl in Ho.
  apply andb_prop in Ho. destruct Ho as [Ho _].
  apply String.eqb_eq in Ho. rewrite Ho.
  split; [discriminate|]. exists Demo.objTree.
  split; [reflexivity|split; reflexivity].
Defined.

Lemma uniqueLogicalPaths_demo (rk : ocfl.Type' -> Z) :
  uniqueLogicalPaths (Demo.env rk Demo.invA).
Proof.
  intros path inv vID H. simpl in H.
  destruct (String.eqb path "/ocfl/obj-A"); [|discriminate].
  injection H as <-. simpl. unfold Demo.filesA.
  destruct (String.eqb vID "v1"); [|destruct (String.eqb vID "v2")]; simpl.
  - constructor; [intros []|constructor].
  - constructor; [|constructor; [intros []|constructor]].
    intros [H|[]]. discriminate.
  - constructor.
Defined.


(** * Further properties *)

(** ** Coordinates *)

(** [Coords] is built from the parent's coordinates: a [Root] has none,
    a reference without parent that is not a [Root] has its own [ID]
    only, and any other reference has the coordinates of its parent
    followed by its own [ID]. *)
Theorem Coords_extends_parent (e : EntityRef) :
  (Type' e = ocfl.Root -> Coords e = []) /\
  (Type' e <> ocfl.Root -> Parent e = None -> Coords e = [ID e]) /\
  (forall p, Type' e <> ocfl.Root -> Parent e = Some p ->
             Coords e = (Coords p ++ [ID e])%list).
Proof.
  unfold Coords. destruct e as [i a q t]; simpl. repeat split.
  - intros ->. reflexivity.
  - intros Ht ->. apply ocfl_eqb_neq in Ht. now rewrite Ht.
  - intros p Ht ->. apply ocfl_eqb_neq in Ht. rewrite Ht.
    apply CoordsFrom_app.
Qed.

Lemma wellFormed_chain_nonempty (e : EntityRef) : chain e <> [].
Proof. destruct e. discriminate. Qed.

(** The loop of [contains] decides equality of coordinates: for two
    references with well-formed chains of the same length, it runs to its
    end iff they have the same coordinates. *)
Theorem sameCoords_iff_Coords (a b : EntityRef) :
  wellFormed a -> wellFormed b ->
  length (chain a) = length (chain b) ->
  (sameCoords a b = true <-> Coords a = Coords b).
Proof.
  intros Ha. revert b.
  induction Ha as [a Hta Hpa|a pa Hta Hpa Hwa IH]; intros b Hb Hlen.
  - destruct (Coords_extends_parent a) as (Ea & _). rewrite (Ea Hta).
    inversion Hb as [? Htb Hpb|? pb Htb Hpb Hwb]; subst.
    + destruct (Coords_extends_parent b) as (Eb & _). rewrite (Eb Htb).
      destruct a, b; simpl in *; subst. split; reflexivity.
    + exfalso. rewrite (chain_unfold a), (chain_unfold b), Hpa, Hpb in Hlen.
      simpl in Hlen. destruct (chain pb) eqn:E; [|discriminate].
      now apply wellFormed_chain_nonempty in E.
  - inversion Hb as [? Htb Hpb|? pb Htb Hpb Hwb]; subst.
    + exfalso. rewrite (chain_unfold a), (chain_unfold b), Hpa, Hpb in Hlen.
      simpl in Hlen. destruct (chain pa) eqn:E; [|discriminate].
      now apply wellFormed_chain_nonempty in E.
    + destruct (Coords_extends_parent a) as (_ & _ & Ea).
      destruct (Coords_extends_parent b) as (_ & _ & Eb).
      rewrite (Ea pa Hta Hpa), (Eb pb Htb Hpb).
      assert (Hlen' : length (chain pa) = length (chain pb)).
      { rewrite (chain_unfold a), (chain_unfold b), Hpa, Hpb in Hlen.
        simpl in Hlen. congruence. }
      specialize (IH pb Hwb Hlen').
      assert (Es : sameCoords a b
                   = (String.eqb (ID a) (ID b) && sameCoords pa pb)%bool).
      { destruct a, b; simpl in *; subst.
        now destruct (String.eqb _ _). }
      rewrite Es. split.
      * intros H. apply andb_prop in H as [Hid Hs].
        apply String.eqb_eq in Hid. apply IH in Hs. congruence.
      * intros H. apply app_inj_tail in H as [Hc Hid].
        apply andb_true_intro. split.
        -- rewrite Hid. apply String.eqb_refl.
        -- now apply IH.
Qed.

(** Two files of the demo object, in versions [v1] and [v2]. *)
Lemma sameCoords_iff_Coords_witness :
  sameCoords (Demo.file "v1" "a.txt" "v1/content/a.txt")
             (Demo.file "v2" "a.txt" "v1/content/a.txt") = true
  <-> Coords (Demo.file "v1" "a.txt" "v1/content/a.txt")
      = Coords (Demo.file "v2" "a.txt" "v1/content/a.txt").
Proof.
  assert (Hwf : forall v l p, wellFormed (Demo.file v l p)).
  { intros v l p.
    eapply wf_child; [discriminate|reflexivity|].
    eapply wf_child; [discriminate|reflexivity|].
    eapply wf_child; [discriminate|reflexivity|].
    apply wf_root; reflexivity. }
  apply (sameCoords_iff_Coords
           (Demo.file "v1" "a.txt" "v1/content/a.txt")
           (Demo.file "v2" "a.txt" "v1/content/a.txt")
           (Hwf "v1" "a.txt" "v1/content/a.txt")
           (Hwf "v2" "a.txt" "v1/content/a.txt") eq_refl).
Defined.

(** ** The types of the reported entities *)

(** Whatever the numeric values of the type constants: in a walk for a
    type other than the wildcard, every reported entity has one of the
    five concrete types, and it has the desired type, or else the type of
    the entry point and a value not above the desired type's.  When
    deeper entities have smaller values, a walk for files reports files
    only. *)
Theorem walk_reports_desired_or_entry_type {St : Type} (w : Env)
        (f : @callback St) (entry : EntityRef) (t : ocfl.Type')
        (st st1 : State St) (s : scope) :
  t <> ocfl.Any ->
  newScope w entry t st = (Done s, st1) ->
  exists evs,
    log (snd (walk w f s st1)) = (log st1 ++ evs)%list /\
    Forall (fun r =>
              Type' r <> ocfl.Any /\
              (Type' r = t \/
               (Type' r = Type' entry /\ rank w (Type' r) <= rank w t)))
           (reported evs) /\
    (deepFirst w -> t = ocfl.File ->
     Forall (fun r => Type' r = ocfl.File) (reported evs)).
Proof.
  intros Ht Hs. rewrite newScope_run in Hs.
  destruct (findRoot w entry ocfl.Root) as [e|rt]; [discriminate|].
  injection Hs as <- _.
  set (s := {| root := rt; startFrom := entry;
               desired := if ocfl.eqb (Type' entry) t then entry
                          else bare t |}).
  assert (Hd : Type' (desired s) = t).
  { simpl. destruct (ocfl_eqb_spec (Type' entry) t); auto. }
  assert (Hc : forall r, contains w s r = true ->
                 Type' r = t \/
                 (Type' r = Type' entry /\ rank w (Type' r) <= rank w t)).
  { intros r H. apply contains_true_cases in H. rewrite Hd in H.
    destruct H as [H|[H|[H1 H2]]]; [contradiction|now left|right].
    split; [exact H1|]. unfold leType in H2. now apply Z.leb_le in H2. }
  assert (Hall : reports
            (fun r => Type' r <> ocfl.Any /\
                      (Type' r = t \/
                       (Type' r = Type' entry /\
                        rank w (Type' r) <= rank w t)))
            (walk w f s)).
  { apply reports_walk.
    - intros node _ Hn Hcn. split; [rewrite Hn; discriminate|now apply Hc].
    - intros dir tree d r _ _ Hy.
      destruct Hy as [_ _ _ Hy|inv _ _ _ Hy|inv vID _ _ _ _ _ Hy
                     |inv vID file _ _ _ _ _ _ _ Hy];
        (split; [discriminate|]); apply Hc in Hy; exact Hy. }
  destruct (Hall st1) as (evs & Hlog & Hf).
  exists evs. split; [exact Hlog|]. split; [exact Hf|].
  intros (Hfv & Hvo & Hoi & Hor) ->.
  eapply Forall_impl; [|exact Hf].
  intros r [Hany [H|[_ H]]]; [exact H|].
  destruct (Type' r); simpl in *; try lia; congruence.
Qed.

(** A walk for files entered at the demo object. *)
Lemma walk_reports_desired_or_entry_type_witness :
  exists evs,
    log (snd (walk (Demo.env Demo.rankDeep Demo.invA) Demo.accept
                   (mkScope Demo.storageRoot Demo.objA (bare ocfl.File))
                   (logged Demo.start (EvFindRoot Demo.objA ocfl.Root))))
    = (log (logged Demo.start (EvFindRoot Demo.objA ocfl.Root)) ++ evs)%list /\
    Forall (fun r =>
              Type' r <> ocfl.Any /\
              (Type' r = ocfl.File \/
               (Type' r = Type' Demo.objA /\
                rank (Demo.env Demo.rankDeep Demo.invA) (Type' r)
                <= rank (Demo.env Demo.rankDeep Demo.invA) ocfl.File)))
           (reported evs) /\
    (deepFirst (Demo.env Demo.rankDeep Demo.invA) -> ocfl.File = ocfl.File ->
     Forall (fun r => Type' r = ocfl.File) (reported evs)).
Proof.
  apply (walk_reports_desired_or_entry_type
           (Demo.env Demo.rankDeep Demo.invA) Demo.accept Demo.objA
           ocfl.File Demo.start).
  - discriminate.
  - reflexivity.
Defined.

(** ** Walks entered at the entity they ask for *)

Lemma layered_wellFormed (e : EntityRef) : layered e -> wellFormed e.
Proof.
  induction 1 as [r Ht Hp|r p Ht Hp _ _ IH|r p Ht Hp _ _ IH
                 |r p Ht Hp _ _ IH|r p Ht Hp _ _ IH].
  - now apply wf_root.
  - apply (wf_child r p); auto. rewrite Ht. discriminate.
  - apply (wf_child r p); auto. rewrite Ht. discriminate.
  - apply (wf_child r p); auto. rewrite Ht. discriminate.
  - apply (wf_child r p); auto. rewrite Ht. discriminate.
Qed.

Lemma layered_depth (a b : EntityRef) :
  layered a -> layered b -> Type' a = Type' b ->
  length (chain a) = length (chain b).
Proof.
  intros Ha. revert b.
  induction Ha as [a Hta Hpa|a pa Hta Hpa Htp _ IH|a pa Hta Hpa Htp _ IH
                  |a pa Hta Hpa Htp _ IH|a pa Hta Hpa Htp _ IH];
    intros b Hb Hab;
    inversion Hb as [? Htb Hpb|? pb Htb Hpb Htq Hq|? pb Htb Hpb Htq Hq
                    |? pb Htb Hpb Htq Hq|? pb Htb Hpb Htq Hq]; subst;
    try congruence;
    rewrite (chain_unfold a), (chain_unfold b), Hpa, Hpb; simpl;
    try reflexivity;
    f_equal; apply IH; auto; congruence.
Qed.

(** A candidate of the entry point's type is contained only if the loop
    of [contains] runs to its end. *)
Lemma contains_same_type (w : Env) (s : scope) (r : EntityRef) :
  Type' (desired s) <> ocfl.Any ->
  Type' r = Type' (startFrom s) ->
  contains w s r = true -> sameCoords (desired s) r = true.
Proof.
  intros Hd Ht. unfold contains.
  apply ocfl_eqb_neq in Hd. rewrite Hd, Ht, ocfl_eqb_refl. simpl.
  now destruct (sameCoords (desired s) r).
Qed.

(** A walk entered at an entity of the desired type (other than the
    wildcard and [Intermediate]) reports only entities of that type that
    have the coordinates of the entry point.  The entry point and the
    storage root are layered as the [Parent] field prescribes. *)
Theorem single_resolution_reports_entry_coordinates {St : Type} (w : Env)
        (f : @callback St) (entry : EntityRef) (st st1 : State St)
        (s : scope) :
  Type' entry <> ocfl.Any -> Type' entry <> ocfl.Intermediate ->
  layered entry ->
  newScope w entry (Type' entry) st = (Done s, st1) ->
  Type' (root s) = ocfl.Root -> Parent (root s) = None ->
  exists evs,
    log (snd (walk w f s st1)) = (log st1 ++ evs)%list /\
    Forall (fun r => Type' r = Type' entry /\ Coords r = Coords entry)
           (reported evs).
Proof.
  intros Hany Hint Hlay Hs Hrt Hrp. rewrite newScope_run in Hs.
  destruct (findRoot w entry ocfl.Root) as [e|rt]; [discriminate|].
  injection Hs as <- _. simpl in Hrt, Hrp.
  rewrite ocfl_eqb_refl.
  set (s := {| root := rt; startFrom := entry; desired := entry |}).
  assert (Hroot : layered rt) by now apply layered_root.
  assert (Hc : forall r, contains w s r = true ->
                         Type' r = Type' entry /\ sameCoords entry r = true).
  { intros r H. assert (Ht : Type' r = Type' entry).
    { apply contains_true_cases in H. simpl in H.
      destruct H as [H|[H|[H _]]]; [contradiction|exact H|exact H]. }
    split; [exact Ht|]. now apply (contains_same_type w s r). }
  assert (Hgood : forall r, layered r -> contains w s r = true ->
                            Type' r = Type' entry /\ Coords r = Coords entry).
  { intros r Hr H. destruct (Hc r H) as [Ht Hsame]. split; [exact Ht|].
    symmetry.
    apply (sameCoords_iff_Coords entry r); auto using layered_wellFormed.
    apply layered_depth; auto. }
  apply (reports_walk w f s).
  - intros node Hn Ht H. destruct (Hc node H) as [Hte _].
    split; [exact Hte|].
    destruct (Coords_extends_parent node) as (En & _).
    destruct (Coords_extends_parent entry) as (Ee & _).
    rewrite (En Ht), Ee; [reflexivity|congruence].
  - intros dir tree d r _ _ Hy.
    destruct Hy as [_ _ _ Hy|inv _ _ _ Hy|inv vID _ _ _ _ _ Hy
                   |inv vID file _ _ _ _ _ _ _ Hy].
    + exfalso. destruct (Hc _ Hy) as [Ht _]. simpl in Ht. congruence.
    + apply Hgood; [|exact Hy].
      now apply (layered_object _ rt).
    + apply Hgood; [|exact Hy].
      apply (layered_version _ (objectOf rt inv (ospath d))); auto.
      now apply (layered_object _ rt).
    + apply Hgood; [|exact Hy].
      apply (layered_file _ (versionOf w (objectOf rt inv (ospath d)) vID));
        auto.
      apply (layered_version _ (objectOf rt inv (ospath d))); auto.
      now apply (layered_object _ rt).
Qed.

(** A walk for versions entered at version [v2] of the demo object. *)
Lemma single_resolution_reports_entry_coordinates_witness :
  exists evs,
    log (snd (walk (Demo.env Demo.rankDeep Demo.invA) Demo.accept
                   (mkScope Demo.storageRoot (Demo.version "v2")
                            (Demo.version "v2"))
                   (logged Demo.start
                           (EvFindRoot (Demo.version "v2") ocfl.Root))))
    = (log (logged Demo.start (EvFindRoot (Demo.version "v2") ocfl.Root))
         ++ evs)%list /\
    Forall (fun r => Type' r = Type' (Demo.version "v2") /\
                     Coords r = Coords (Demo.version "v2"))
           (reported evs).
Proof.
  apply (single_resolution_reports_entry_coordinates
           (Demo.env Demo.rankDeep Demo.invA) Demo.accept
           (Demo.version "v2") Demo.start).
  - discriminate.
  - discriminate.
  - apply (layered_version _ Demo.objA); try reflexivity.
    apply (layered_object _ Demo.storageRoot); try reflexivity.
    apply layered_root; reflexivity.
  - reflexivity.
  - reflexivity.
  - reflexivity.
Defined.

(** ** Walks entered at a version or at a file *)

Section BySite.
Context {St : Type}.
Variable w : Env.
Variable f : @callback St.
Variable s : scope.
Variable P : EntityRef -> Prop.
Hypothesis Hintermediate : forall path, P (intermediateOf w (root s) path).
Hypothesis Hobject : forall inv path, P (objectOf (root s) inv path).
Hypothesis Hversions :
  forall inv path,
    reports P (walkVersions w f s inv (objectOf (root s) inv path)).

Lemma reports_visit_by_site (path : string) (d : Dirent) :
  reports P (visit w f s path d).
Proof.
  unfold visit.
  destruct (negb (IsDir d) && negb (IsSymlink d)); [apply reports_ret|].
  apply reports_bind; [now apply reports_emit|]. intros _.
  destruct (isRoot w path ocfl.Object) as [[objectRoot x] err].
  destruct (objectRoot && _).
  - apply reports_bind; [|intros _; apply reports_ret].
    unfold walkObject.
    apply reports_bind; [now apply reports_emit|]. intros _.
    apply reports_bind_orFail. intros inv _.
    apply reports_bind.
    + apply reports_when. intros _. apply reports_call. apply Hobject.
    + intros _. destruct (leType _ _ _); [apply Hversions|apply reports_ret].
  - destruct err as [e|]; [apply reports_fail|].
    apply reports_bind; [|intros _; apply reports_ret].
    apply reports_when. intros _. apply reports_call. apply Hintermediate.
Qed.

(** The frame of [walk], site by site. *)
Lemma reports_walk_by_site :
  (forall node, Type' node = ocfl.Root -> P node) ->
  reports P (walk w f s).
Proof.
  intros Hnode.
  set (k := fun node : EntityRef =>
    when (ocfl.eqb (Type' node) ocfl.Root && contains w s node)
         (call f node) ;;
    r <- attempt (fsWalk w (if (Addr node =? EmptyString)%string
                            then Addr (root s) else Addr node)
                         (visit w f s)) ;;
    match r with
    | inl err => fail (Wrap err "error performing walk")
    | inr _ => ret tt
    end).
  assert (Hrest : forall node, reports P (k node)).
  { intros node. apply reports_bind.
    - apply reports_when. intros H. apply andb_prop in H as [Ht _].
      apply reports_call. apply Hnode. now apply ocfl_eqb_eq.
    - intros _. apply reports_walk_tail. apply reports_fsWalk.
      intros tree d _ _. apply reports_visit_by_site. }
  change (reports P
    (bind (if ltType w (Type' (startFrom s)) ocfl.Object
           then r <- callFindRoot w (startFrom s) ocfl.Object ;; orFail r
           else ret (startFrom s)) k)).
  apply reports_bind; [|exact Hrest].
  destruct (ltType _ _ _); [|apply reports_ret].
  apply reports_bind; [apply reports_callFindRoot|].
  intros r. apply reports_orFail.
Qed.
End BySite.

(** In a walk entered at a version or at a file, every version that is
    reported is the version of the entry point, and every file that is
    reported is a file of that version: nothing of a sibling version is
    reported. *)
Theorem narrowed_walk_reports_one_version {St : Type} (w : Env)
        (f : @callback St) (s : scope) (sv : EntityRef) (st : State St) :
  Type' (startFrom s) = ocfl.Version \/ Type' (startFrom s) = ocfl.File ->
  findRoot w (startFrom s) ocfl.Version = inr sv ->
  exists evs,
    log (snd (walk w f s st)) = (log st ++ evs)%list /\
    Forall (fun r =>
              (Type' r = ocfl.Version -> ID r = ID sv) /\
              (Type' r = ocfl.File ->
               exists v, Parent r = Some v /\ Type' v = ocfl.Version /\
                         ID v = ID sv))
           (reported evs).
Proof.
  intros Hentry Hsv. revert st.
  apply reports_walk_by_site.
  - intros path. split; discriminate.
  - intros inv path. split; discriminate.
  - intros inv path st. unfold walkVersions, bind.
    destruct (hasKey (metadata.Versions inv) (ID sv)) eqn:Hkey.
    + rewrite (selectVersions_present w s sv Hentry Hsv) by exact Hkey.
      cbv beta iota. revert st.
      assert (Hloop : reports
        (fun r =>
           (Type' r = ocfl.Version -> ID r = ID sv) /\
           (Type' r = ocfl.File ->
            exists v, Parent r = Some v /\ Type' v = ocfl.Version /\
                      ID v = ID sv))
        (forEach [(ID sv, tt)]
           (fun kv => walkVersion w f s inv (objectOf (root s) inv path)
                                  (fst kv)))).
      { apply reports_forEach. intros kv [<-|[]]. simpl fst.
        unfold walkVersion. apply reports_bind.
        - apply reports_when. intros _. apply reports_call.
          split; [reflexivity|discriminate].
        - intros _. apply reports_when. intros _.
          apply reports_forEach. intros file _. unfold walkFile.
          destruct (negb _); [apply reports_ret|].
          apply reports_call. split; [discriminate|].
          intros _. eexists. repeat split. }
      intros st. destruct (Hloop (logged st (EvFindRoot (startFrom s)
                                                       ocfl.Version)))
        as (evs & E & F).
      exists (EvFindRoot (startFrom s) ocfl.Version :: evs).
      unfold logged in E. simpl log in E.
      split; [|exact F].
      etransitivity; [exact E|]. rewrite <- app_assoc. reflexivity.
    + rewrite (selectVersions_absent w s sv Hentry Hsv) by exact Hkey.
      exists [EvFindRoot (startFrom s) ocfl.Version]. split; [reflexivity|].
      constructor.
  - intros node Ht. rewrite Ht. split; discriminate.
Qed.

(** The walk for files entered at version [v2] of the demo object. *)
Lemma narrowed_walk_reports_one_version_witness :
  exists evs,
    log (snd (walk (Demo.env Demo.rankDeep Demo.invA) Demo.accept
                   (mkScope Demo.storageRoot (Demo.version "v2")
                            (bare ocfl.File))
                   Demo.start))
    = (log Demo.start ++ evs)%list /\
    Forall (fun r =>
              (Type' r = ocfl.Version -> ID r = ID (Demo.version "v2")) /\
              (Type' r = ocfl.File ->
               exists v, Parent r = Some v /\ Type' v = ocfl.Version /\
                         ID v = ID (Demo.version "v2")))
           (reported evs).
Proof.
  apply (narrowed_walk_reports_one_version
           (Demo.env Demo.rankDeep Demo.invA) Demo.accept
           (mkScope Demo.storageRoot (Demo.version "v2") (bare ocfl.File))
           (Demo.version "v2") Demo.start).
  - left. reflexivity.
  - reflexivity.
Defined.

(** ** What a computation does to the outside *)

Section Logs.
Context {St : Type}.
Variable Q : Event -> Prop.

Lemma logs_ret {A} (a : A) : logs Q (@ret St A a).
Proof. intros st. exists []. simpl. now rewrite app_nil_r. Qed.

Lemma logs_fail {A} (e : error) : logs Q (@fail St A e).
Proof. intros st. exists []. simpl. now rewrite app_nil_r. Qed.

Lemma logs_panic {A} : logs Q (@panic St A).
Proof. intros st. exists []. simpl. now rewrite app_nil_r. Qed.

Lemma logs_emit (ev : Event) : Q ev -> logs Q (@emit St ev).
Proof. intros H st. exists [ev]. simpl. split; auto. Qed.

Lemma logs_bind {A B} (m : M St A) (k : A -> M St B) :
  logs Q m -> (forall a, logs Q (k a)) -> logs Q (bind m k).
Proof.
  intros Hm Hk st. unfold bind.
  destruct (Hm st) as (e1 & E1 & F1).
  destruct (m st) as [[a|e|] st1]; simpl in *.
  - destruct (Hk a st1) as (e2 & E2 & F2).
    exists (e1 ++ e2)%list. rewrite E2, E1, app_assoc.
    split; [reflexivity|]. apply Forall_app. now split.
  - now exists e1.
  - now exists e1.
Qed.

Lemma logs_when (c : bool) (m : M St unit) : logs Q m -> logs Q (when c m).
Proof. destruct c; simpl; [auto|intros _; apply logs_ret]. Qed.

Lemma logs_forEach {A} (l : list A) (body : A -> M St unit) :
  (forall x, logs Q (body x)) -> logs Q (forEach l body).
Proof.
  intros H. induction l as [|x l IH]; simpl.
  - apply logs_ret.
  - apply logs_bind; [apply H|intros _; exact IH].
Qed.

Lemma logs_call (f : @callback St) (r : EntityRef) :
  Q (EvCallback r) -> logs Q (call f r).
Proof.
  intros H st. exists [EvCallback r]. unfold call.
  destruct (f r (user st)) as [[e|] u]; simpl; split; auto.
Qed.
End Logs.

(** The manifest phase does not touch the filesystem: [walkVersions]
    looks up the version of the entry point and calls the callback, and
    does nothing else to the outside. *)
Lemma logs_walkVersions {St} (w : Env) (f : @callback St) (s : scope)
      (inv : metadata.Inventory) (object : EntityRef) :
  logs manifestEvent (walkVersions w f s inv object).
Proof.
  unfold walkVersions. apply logs_bind.
  - unfold selectVersions. destruct (_ || _); [|apply logs_ret].
    apply logs_bind.
    + unfold callFindRoot. apply logs_bind; [now apply logs_emit|].
      intros _. apply logs_ret.
    + intros [e|sv]; [apply logs_panic|].
      destruct (negb _); [apply logs_fail|apply logs_ret].
  - intros vs. apply logs_forEach. intros kv. unfold walkVersion.
    apply logs_bind.
    + apply logs_when. now apply logs_call.
    + intros _. apply logs_when. apply logs_forEach. intros file.
      unfold walkFile. destruct (negb _); [apply logs_ret|].
      now apply logs_call.
Qed.

(** When the callback of [fsWalk] does not ask to go deeper at an entry,
    godirwalk leaves the entry at once: the state is the one the
    callback left. *)
Lemma godirwalk_leaves {St} (g : string -> Dirent -> M St bool)
      (d : Dirent) (st : State St) :
  fst (g (ospath d) d st) <> Done goDeeper ->
  snd (godirwalk.walk (fsCallback g) fsErrorCallback d st)
  = snd (g (ospath d) d st).
Proof.
  intros H. destruct d as [p m rerr l]. simpl in *.
  unfold bind at 1. unfold fsCallback at 1. unfold bind at 1.
  unfold attempt at 1.
  destruct (g p (mkDirent p m rerr l) st) as [[[|]|e|] st'];
    simpl in *; try reflexivity.
  - now contradiction H.
  - unfold godirwalk.onError, fsErrorCallback.
    change (Cause (Wrap e "terminating walk due to error")) with (Cause e).
    destruct (Cause e) as [| | |[|]]; reflexivity.
Qed.

(** An object root is not descended: at an entry that the probe takes
    for an object root, the walk probes the entry and loads its manifest,
    and from then on only looks up the version of the entry point and
    calls the callback.  The directory is not read and nothing below it
    is probed, whatever it holds and however the manifest phase ends. *)
Theorem object_root_is_not_descended {St : Type} (w : Env)
        (f : @callback St) (s : scope) (d : Dirent) (st : State St) :
  mode d <> ModeRegular ->
  objectRootAt w (ospath d) ->
  exists evs,
    log (snd (godirwalk.walk (fsCallback (visit w f s)) fsErrorCallback d st))
    = (log st ++ EvIsRoot (ospath d) ocfl.Object
             :: EvReadMetadata (ospath d) :: evs)%list /\
    Forall manifestEvent evs.
Proof.
  intros Hmode Hobj.
  assert (Hv := visit_objectRoot w f s d st Hmode Hobj).
  assert (Hlogs : logs manifestEvent
            (inv <- orFail (readMetadata w (ospath d)) ;;
             when (contains w s (objectOf (root s) inv (ospath d)))
                  (call f (objectOf (root s) inv (ospath d))) ;;
             if leType w (Type' (desired s)) ocfl.Version
             then walkVersions w f s inv (objectOf (root s) inv (ospath d))
             else ret tt)).
  { apply logs_bind.
    - destruct (readMetadata w (ospath d)); [apply logs_fail|apply logs_ret].
    - intros inv. apply logs_bind.
      + apply logs_when. now apply logs_call.
      + intros _. destruct (leType _ _ _);
          [apply logs_walkVersions|apply logs_ret]. }
  rewrite godirwalk_leaves.
  - rewrite Hv. unfold walkObject. unfold bind at 1. unfold emit at 1.
    simpl log. simpl user.
    match goal with
    | |- context [bind ?m ?k ?st0] =>
      destruct (Hlogs st0) as (evs & E & F)
    end.
    exists evs. split; [|exact F].
    destruct (bind _ _ _) as [[a|e|] st'] eqn:Eb; simpl in *;
      rewrite E; unfold logged; simpl; rewrite <- !app_assoc; reflexivity.
  - rewrite Hv. destruct (walkObject w f s (ospath d) _) as [[a|e|] st'];
      discriminate.
Qed.

(** The demo object, met as an entry of the walk from the storage
    root. *)
Lemma object_root_is_not_descended_witness :
  exists evs,
    log (snd (godirwalk.walk
                (fsCallback (visit (Demo.env Demo.rankDeep Demo.invA)
                                   Demo.accept
                                   (mkScope Demo.storageRoot Demo.storageRoot
                                            (bare ocfl.Any))))
                fsErrorCallback Demo.objTree Demo.start))
    = (log Demo.start ++ EvIsRoot (ospath Demo.objTree) ocfl.Object
             :: EvReadMetadata (ospath Demo.objTree) :: evs)%list /\
    Forall manifestEvent evs.
Proof.
  apply (object_root_is_not_descended
           (Demo.env Demo.rankDeep Demo.invA) Demo.accept
           (mkScope Demo.storageRoot Demo.storageRoot (bare ocfl.Any))
           Demo.objTree Demo.start).
  - discriminate.
  - split; reflexivity.
Defined.
(** ** The first error stops the walk *)

Lemma Forall_removelast {A} (P : A -> Prop) (l : list A) :
  Forall P l -> Forall P (removelast l).
Proof.
  induction 1 as [|x l Hx Hl IH]; simpl; [constructor|].
  destruct l; [constructor|]. constructor; assumption.
Qed.

Lemma Forall_removelast_app {A} (P : A -> Prop) (l1 l2 : list A) :
  Forall P l1 -> Forall P (removelast l2) ->
  Forall P (removelast (l1 ++ l2)).
Proof.
  intros H1 H2. destruct l2 as [|x l2].
  - rewrite app_nil_r. now apply Forall_removelast.
  - rewrite removelast_app by discriminate. apply Forall_app. now split.
Qed.

Section Stops.
Context {St : Type}.
Variable ok : Event -> Prop.
Variable rej : Event -> option string.
Hypothesis Hrej : forall ev, ok ev -> rej ev = None.

Lemma blamed_nil (o : option error) : blamed rej [] o.
Proof. intros pre ev x E. now destruct pre. Qed.

Lemma blamed_one (ev : Event) (o : option error) :
  rej ev = None -> blamed rej [ev] o.
Proof.
  intros H pre ev' x E Hx.
  change [ev] with ([] ++ [ev])%list in E.
  apply app_inj_tail in E. destruct E as [_ <-]. congruence.
Qed.

Lemma blamed_ok (evs : list Event) (o : option error) :
  Forall ok evs -> blamed rej evs o.
Proof.
  intros H pre ev x -> Hx. apply Forall_app in H. destruct H as [_ H].
  inversion H as [|? ? Hev _]. apply Hrej in Hev. congruence.
Qed.

Lemma blamed_app (e1 e2 : list Event) (o : option error) :
  Forall ok e1 -> blamed rej e2 o -> blamed rej (e1 ++ e2) o.
Proof.
  intros H1 H2. destruct e2 as [|b e2].
  - rewrite app_nil_r. now apply blamed_ok.
  - destruct (@exists_last _ (b :: e2)) as (l' & a & E);
      [discriminate|].
    rewrite E in *. intros pre ev x E' Hx. rewrite app_assoc in E'.
    apply app_inj_tail in E'. destruct E' as [_ ->].
    now apply (H2 l' ev x).
Qed.

Lemma blamed_wrap (evs : list Event) (e : error) (msg : string) :
  blamed rej evs (Some e) -> blamed rej evs (Some (Wrap e msg)).
Proof.
  intros H pre ev x E Hx. apply wraps_layer. exact (H pre ev x E Hx).
Qed.

Lemma stops_ret {A} (a : A) : stops ok rej (@ret St A a).
Proof.
  intros st. exists []. simpl. rewrite app_nil_r. repeat split; constructor.
Qed.

Lemma stops_fail {A} (e : error) : fatal e -> stops ok rej (@fail St A e).
Proof.
  intros H st. exists []. simpl. rewrite app_nil_r.
  repeat split; [constructor|exact H|apply blamed_nil].
Qed.

Lemma stops_panic {A} : stops ok rej (@panic St A).
Proof.
  intros st. exists []. simpl. rewrite app_nil_r.
  repeat split; [constructor|apply blamed_nil].
Qed.

Lemma stops_emit (ev : Event) : ok ev -> stops ok rej (@emit St ev).
Proof.
  intros H st. exists [ev]. simpl. repeat split; repeat constructor; auto.
Qed.

Lemma stops_emit_fail {A} (ev : Event) (e : error) :
  rej ev = None -> fatal e -> stops ok rej (emit ev ;; @fail St A e).
Proof.
  intros Hev H st. exists [ev]. simpl.
  repeat split; [constructor|exact H|now apply blamed_one].
Qed.

Lemma stops_emit_panic {A} (ev : Event) :
  rej ev = None -> stops ok rej (emit ev ;; @panic St A).
Proof.
  intros Hev st. exists [ev]. simpl.
  repeat split; [constructor|now apply blamed_one].
Qed.

Lemma stops_bind {A B} (m : M St A) (k : A -> M St B) :
  stops ok rej m -> (forall a, stops ok rej (k a)) -> stops ok rej (bind m k).
Proof.
  intros Hm Hk st. unfold bind.
  destruct (Hm st) as (e1 & E1 & L1 & O1).
  destruct (m st) as [[a|e|] st1]; simpl in *.
  - destruct (Hk a st1) as (e2 & E2 & L2 & O2).
    exists (e1 ++ e2)%list. rewrite E2, E1, app_assoc.
    split; [reflexivity|]. split; [now apply Forall_removelast_app|].
    destruct (fst (k a st1)).
    + apply Forall_app. now split.
    + destruct O2 as [F2 B2]. split; [exact F2|now apply blamed_app].
    + now apply blamed_app.
  - now exists e1.
  - now exists e1.
Qed.

Lemma stops_ext {A} (m m' : M St A) :
  (forall st, m st = m' st) -> stops ok rej m' -> stops ok rej m.
Proof. intros E H st. rewrite E. apply H. Qed.

Lemma stops_when (c : bool) (m : M St unit) :
  stops ok rej m -> stops ok rej (when c m).
Proof. destruct c; simpl; [auto|intros _; apply stops_ret]. Qed.

Lemma stops_forEach {A} (l : list A) (body : A -> M St unit) :
  (forall x, stops ok rej (body x)) -> stops ok rej (forEach l body).
Proof.
  intros H. induction l as [|x l IH]; simpl.
  - apply stops_ret.
  - apply stops_bind; [apply H|intros _; exact IH].
Qed.

(** The last step of [walk]: the error of the directory phase, wrapped. *)
Lemma stops_walk_tail (m : M St unit) :
  stops ok rej m ->
  stops ok rej (r <- attempt m ;;
                match r with
                | inl err => fail (Wrap err "error performing walk")
                | inr _ => ret tt
                end).
Proof.
  intros H st. unfold bind, attempt.
  destruct (H st) as (evs & E & L & O).
  destruct (m st) as [[a|e|] st1]; simpl in *; exists evs; auto.
  destruct O as [O B]. repeat split; auto. now apply blamed_wrap.
Qed.

(** One entry of the directory walk: the callback of [fsWalk], then
    godirwalk's reaction to what it returned. *)
Lemma stops_entry (g : M St bool) (p : string) (rest : M St unit)
      (Callback : M St (option error)) :
  (forall st, Callback st
              = (r <- attempt g ;;
                 match r with
                 | inl err =>
                   ret (Some (Wrap err "terminating walk due to error"))
                 | inr terminal =>
                   if terminal then ret (Some (skip SkipNode)) else ret None
                 end) st) ->
  stops ok rej g -> stops ok rej rest ->
  stops ok rej (err <- Callback ;;
                match err with
                | Some e => godirwalk.onError fsErrorCallback p e
                | None => rest
                end).
Proof.
  intros HC Hg Hrest st. unfold bind. rewrite (HC st).
  unfold bind, attempt. destruct (Hg st) as (evs & E & L & O).
  destruct (g st) as [[[|]|e|] st1]; simpl in *.
  - exists evs. repeat split; auto.
  - destruct (Hrest st1) as (e2 & E2 & L2 & O2).
    exists (evs ++ e2)%list. rewrite E2, E, app_assoc.
    split; [reflexivity|]. split; [now apply Forall_removelast_app|].
    destruct (fst (rest st1)).
    + apply Forall_app. now split.
    + destruct O2 as [F2 B2]. split; [exact F2|now apply blamed_app].
    + now apply blamed_app.
  - exists evs. unfold godirwalk.onError, fsErrorCallback.
    change (Cause (Wrap e "terminating walk due to error")) with (Cause e).
    destruct O as [O B]. unfold fatal in O.
    destruct (Cause e) eqn:Ec; try contradiction;
      simpl; repeat split; auto;
      solve [unfold fatal; simpl; now rewrite Ec | now apply blamed_wrap].
  - exists evs. auto.
Qed.
End Stops.

Section StopsWalk.
Context {St : Type}.
Variable w : Env.
Variable f : @callback St.
Variable errs : EntityRef -> option string.
Hypothesis Herrs : forall r u, fst (f r u) = errs r.

Lemma eventOk_rejection (ev : Event) :
  eventOk w errs ev -> rejection errs ev = None.
Proof. destruct ev; simpl; auto. Qed.

Lemma fatal_Foreign (m : string) : fatal (Foreign m).
Proof. exact I. Qed.

Lemma fatal_Errorf (m : string) : fatal (Errorf m).
Proof. exact I. Qed.

Lemma stops_call (r : EntityRef) :
  stops (eventOk w errs) (rejection errs) (call f r).
Proof.
  intros st. exists [EvCallback r]. unfold call.
  pose proof (Herrs r (user st)) as H.
  destruct (f r (user st)) as [[e|] u]; simpl in *.
  - repeat split; [constructor|].
    intros pre ev x E Hx.
    change [EvCallback r] with ([] ++ [EvCallback r])%list in E.
    apply app_inj_tail in E. destruct E as [_ <-]. simpl in Hx. simpl.
    rewrite <- H in Hx. injection Hx as ->. apply wraps_self.
  - repeat split; repeat constructor. simpl. now symmetry.
Qed.

Lemma stops_callFindRoot_orFail (ref : EntityRef) (t : ocfl.Type') :
  stops (eventOk w errs) (rejection errs) (r <- callFindRoot (St:=St) w ref t ;; orFail r).
Proof.
  destruct (findRoot w ref t) as [e|a] eqn:E.
  - apply (stops_ext _ _ _ (emit (EvFindRoot ref t) ;; fail (Foreign e))).
    + intros st. unfold bind, callFindRoot, emit, ret. simpl.
      now rewrite E.
    + apply stops_emit_fail; [reflexivity|exact I].
  - apply (stops_ext _ _ _ (emit (EvFindRoot ref t) ;; ret a)).
    + intros st. unfold bind, callFindRoot, emit, ret. simpl.
      now rewrite E.
    + apply (stops_bind _ _ eventOk_rejection); [|intros _; apply stops_ret].
      apply stops_emit. simpl. now exists a.
Qed.

Lemma stops_selectVersions s inv object :
  stops (eventOk w errs) (rejection errs) (selectVersions (St:=St) w s inv object).
Proof.
  unfold selectVersions. destruct (_ || _); [|apply stops_ret].
  destruct (findRoot w (startFrom s) ocfl.Version) as [e|sv] eqn:E.
  - apply (stops_ext _ _ _ (emit (EvFindRoot (startFrom s) ocfl.Version)
                          ;; panic)).
    + intros st. unfold bind, callFindRoot, emit, ret. simpl.
      now rewrite E.
    + apply stops_emit_panic. reflexivity.
  - apply (stops_ext _ _ _
             (emit (EvFindRoot (startFrom s) ocfl.Version) ;;
              if negb (hasKey (metadata.Versions inv) (ID sv))
              then fail (Errorf ("No version " ++ ID sv ++ " exists in "
                                   ++ ID object))
              else ret [(ID sv, tt)])).
    + intros st. unfold bind, callFindRoot, emit, ret. simpl.
      now rewrite E.
    + apply (stops_bind _ _ eventOk_rejection); [apply stops_emit; simpl; now exists sv|].
      intros _. destruct (negb _); [apply stops_fail; exact I|apply stops_ret].
Qed.

Lemma stops_walkVersions s inv object :
  stops (eventOk w errs) (rejection errs) (walkVersions w f s inv object).
Proof.
  unfold walkVersions. apply (stops_bind _ _ eventOk_rejection); [apply stops_selectVersions|].
  intros vs. apply (stops_forEach _ _ eventOk_rejection). intros kv. unfold walkVersion.
  apply (stops_bind _ _ eventOk_rejection).
  - apply stops_when, stops_call.
  - intros _. apply stops_when, (stops_forEach _ _ eventOk_rejection). intros file.
    unfold walkFile. destruct (negb _); [apply stops_ret|apply stops_call].
Qed.

Lemma stops_walkObject s path :
  stops (eventOk w errs) (rejection errs) (walkObject w f s path).
Proof.
  unfold walkObject.
  destruct (readMetadata w path) as [e|inv] eqn:E.
  - apply (stops_ext _ _ _ (emit (EvReadMetadata path) ;; fail (Foreign e))).
    + intros st. reflexivity.
    + apply stops_emit_fail; [reflexivity|exact I].
  - apply (stops_bind _ _ eventOk_rejection); [apply stops_emit; simpl; now exists inv|].
    intros _. apply (stops_bind _ _ eventOk_rejection); [apply stops_ret|]. intros inv'.
    apply (stops_bind _ _ eventOk_rejection); [apply stops_when, stops_call|].
    intros _. destruct (leType _ _ _);
      [apply stops_walkVersions|apply stops_ret].
Qed.

Lemma stops_visit s path d :
  stops (eventOk w errs) (rejection errs) (visit w f s path d).
Proof.
  unfold visit.
  destruct (negb (IsDir d) && negb (IsSymlink d)); [apply stops_ret|].
  destruct (isRoot w path ocfl.Object) as [[objectRoot x] err] eqn:E.
  destruct err as [e|].
  - rewrite andb_false_r.
    apply (stops_ext _ _ _ (emit (EvIsRoot path ocfl.Object)
                          ;; fail (Foreign e))).
    + intros st. reflexivity.
    + apply stops_emit_fail; [reflexivity|exact I].
  - apply (stops_bind _ _ eventOk_rejection); [apply stops_emit; simpl; now rewrite E|].
    intros _. destruct objectRoot; simpl.
    + apply (stops_bind _ _ eventOk_rejection); [apply stops_walkObject|].
      intros _. apply stops_ret.
    + apply (stops_bind _ _ eventOk_rejection); [apply stops_when, stops_call|].
      intros _. apply stops_ret.
Qed.

Lemma stops_children (g : string -> Dirent -> M St bool) (l : list Dirent) :
  Forall (fun c => stops (eventOk w errs) (rejection errs)
                         (godirwalk.walk (fsCallback g) fsErrorCallback c)) l ->
  stops (eventOk w errs) (rejection errs)
    ((fix children (l : list Dirent) : M St unit :=
        match l with
        | [] => ret tt
        | c :: l' =>
          godirwalk.walk (fsCallback g) fsErrorCallback c ;; children l'
        end) l).
Proof.
  induction 1 as [|c l Hc _ IH]; [apply stops_ret|].
  apply (stops_bind _ _ eventOk_rejection); [exact Hc|intros _; exact IH].
Qed.

Lemma stops_godirwalk (g : string -> Dirent -> M St bool) (d : Dirent) :
  (forall p d', stops (eventOk w errs) (rejection errs) (g p d')) ->
  stops (eventOk w errs) (rejection errs) (godirwalk.walk (fsCallback g) fsErrorCallback d).
Proof.
  intros Hg. induction d as [p m r l IH] using Dirent_tree_ind.
  assert (Hdescend : stops (eventOk w errs) (rejection errs)
    (emit (EvReadDir p) ;;
     match r with
     | Some e => godirwalk.onError fsErrorCallback p (Foreign e)
     | None =>
       (fix children (l : list Dirent) : M St unit :=
          match l with
          | [] => ret tt
          | c :: l' =>
            godirwalk.walk (fsCallback g) fsErrorCallback c ;; children l'
          end) l
     end)).
  { apply (stops_bind _ _ eventOk_rejection); [apply stops_emit; exact I|]. intros _.
    destruct r; [apply stops_fail; exact I|now apply stops_children]. }
  simpl.
  apply (stops_entry _ _ eventOk_rejection (g p (mkDirent p m r l)) p).
  - intros st. reflexivity.
  - apply Hg.
  - destruct m as [| |toDir].
    + apply stops_ret.
    + exact Hdescend.
    + apply (stops_bind _ _ eventOk_rejection); [apply stops_emit; exact I|]. intros _.
      destruct r; [apply stops_fail; exact I|].
      destruct toDir; [exact Hdescend|apply stops_ret].
Qed.

Lemma stops_walk s : stops (eventOk w errs) (rejection errs) (walk w f s).
Proof.
  unfold walk. apply (stops_bind _ _ eventOk_rejection).
  - destruct (ltType _ _ _); [apply stops_callFindRoot_orFail|apply stops_ret].
  - intros node. apply (stops_bind _ _ eventOk_rejection); [apply stops_when, stops_call|].
    intros _. apply stops_walk_tail. unfold fsWalk.
    apply (stops_bind _ _ eventOk_rejection); [apply stops_emit; exact I|]. intros _.
    destruct (stat w _) as [e|tree]; [apply stops_fail; exact I|].
    unfold godirwalk.Walk. destruct (IsDir tree); [|apply stops_fail; exact I].
    apply stops_godirwalk. intros p d'. apply stops_visit.
Qed.
End StopsWalk.

(** The first error stops the walk.  For a callback whose error depends
    on the entity only: in every walk, each event but the last went
    well, so that nothing follows an entity that the callback rejects, a
    probe or a look-up that fails, or a manifest that cannot be loaded;
    a walk that returns without an error has met none of these; and an
    error that the walk returns never has a [skip] value as its cause. *)
Theorem first_error_stops_walk {St : Type} (w : Env) (f : @callback St)
        (errs : EntityRef -> option string) (s : scope) (st : State St) :
  (forall r u, fst (f r u) = errs r) ->
  exists evs,
    log (snd (walk w f s st)) = (log st ++ evs)%list /\
    Forall (eventOk w errs) (removelast evs) /\
    (fst (walk w f s st) = Done tt -> Forall (eventOk w errs) evs) /\
    (forall e, fst (walk w f s st) = Failed e -> fatal e).
Proof.
  intros Herrs.
  destruct (stops_walk w f errs Herrs s st) as (evs & E & L & O).
  exists evs. split; [exact E|]. split; [exact L|]. split.
  - intros H. now rewrite H in O.
  - intros e H. rewrite H in O. apply O.
Qed.

(** The walk of the demo layout with a callback that rejects versions. *)
Lemma first_error_stops_walk_witness :
  exists evs,
    log (snd (walk (Demo.env Demo.rankDeep Demo.invA) rejectVersions
                   (mkScope Demo.storageRoot Demo.storageRoot
                            (bare ocfl.Any)) Demo.start))
    = (log Demo.start ++ evs)%list /\
    Forall (eventOk (Demo.env Demo.rankDeep Demo.invA)
                    (fun r => fst (rejectVersions r tt)))
           (removelast evs) /\
    (fst (walk (Demo.env Demo.rankDeep Demo.invA) rejectVersions
               (mkScope Demo.storageRoot Demo.storageRoot (bare ocfl.Any))
               Demo.start) = Done tt ->
     Forall (eventOk (Demo.env Demo.rankDeep Demo.invA)
                     (fun r => fst (rejectVersions r tt))) evs) /\
    (forall e,
       fst (walk (Demo.env Demo.rankDeep Demo.invA) rejectVersions
                 (mkScope Demo.storageRoot Demo.storageRoot (bare ocfl.Any))
                 Demo.start) = Failed e -> fatal e).
Proof.
  apply (first_error_stops_walk
           (Demo.env Demo.rankDeep Demo.invA) rejectVersions
           (fun r => fst (rejectVersions r tt))).
  intros r []. reflexivity.
Defined.

(** ** Computations that report a given list of entities *)

Lemma flat_map_singleton {A B} (g : A -> B) (l : list A) :
  flat_map (fun x => [g x]) l = map g l.
Proof. induction l as [|x l IH]; simpl; [reflexivity|now rewrite IH]. Qed.

Section Yields.
Context {St : Type}.

Lemma yields_ret {A} (R : A -> Prop) (a : A) :
  R a -> yields R [] (@ret St A a).
Proof.
  intros H st. exists a, st, []. rewrite app_nil_r. now repeat split.
Qed.

Lemma yields_emit (ev : Event) :
  reported [ev] = [] -> yields (fun _ => True) [] (@emit St ev).
Proof.
  intros H st. eexists tt, _, [ev]. repeat split. exact H.
Qed.

Lemma yields_bind {A B} (R : A -> Prop) (R' : B -> Prop)
      (l1 l2 : list EntityRef) (m : M St A) (k : A -> M St B) :
  yields R l1 m -> (forall a, R a -> yields R' l2 (k a)) ->
  yields R' (l1 ++ l2) (bind m k).
Proof.
  intros Hm Hk st. unfold bind.
  destruct (Hm st) as (a & st1 & e1 & E1 & Ra & L1 & P1). rewrite E1.
  destruct (Hk a Ra st1) as (b & st2 & e2 & E2 & Rb & L2 & P2).
  exists b, st2, (e1 ++ e2)%list. repeat split; auto.
  - rewrite L2, L1, app_assoc. reflexivity.
  - rewrite reported_app, P1, P2. reflexivity.
Qed.

Lemma yields_weaken {A} (R R' : A -> Prop) l (m : M St A) :
  (forall a, R a -> R' a) -> yields R l m -> yields R' l m.
Proof.
  intros H Hm st. destruct (Hm st) as (a & st1 & e1 & E1 & Ra & L1 & P1).
  exists a, st1, e1. auto.
Qed.

Lemma yields_call (f : @callback St) (r : EntityRef) :
  (forall r u, fst (f r u) = None) ->
  yields (fun _ => True) [r] (call f r).
Proof.
  intros Hf st. unfold call. pose proof (Hf r (user st)) as H.
  destruct (f r (user st)) as [[e|] u]; [discriminate|].
  eexists tt, _, [EvCallback r]. repeat split.
Qed.

Lemma yields_forEach {A} (g : A -> list EntityRef) (l : list A)
      (body : A -> M St unit) :
  (forall x, yields (fun _ => True) (g x) (body x)) ->
  yields (fun _ => True) (flat_map g l) (forEach l body).
Proof.
  intros H. induction l as [|x l IH]; simpl.
  - now apply yields_ret.
  - eapply yields_bind; [apply H|]. intros _ _. exact IH.
Qed.

Lemma yields_attempt {A} (R : A -> Prop) l (m : M St A) :
  yields R l m -> yields (fun r => exists a, r = inr a /\ R a) l (attempt m).
Proof.
  intros Hm st. unfold attempt.
  destruct (Hm st) as (a & st1 & e1 & E1 & Ra & L1 & P1). rewrite E1.
  exists (inr a), st1, e1. repeat split; auto. now exists a.
Qed.
End Yields.

(** ** The error of the callback is the error of the walk *)

Lemma In_reported (r : EntityRef) (evs : list Event) :
  In r (reported evs) <-> In (EvCallback r) evs.
Proof.
  unfold reported. rewrite in_flat_map. split.
  - intros (ev & Hev & Hr). destruct ev; simpl in Hr; try contradiction.
    destruct Hr as [->|[]]. exact Hev.
  - intros H. exists (EvCallback r). split; [exact H|now left].
Qed.

(** An entity that the callback rejects ends the walk: it is the last
    entity handed to the callback and the last event of the walk, and
    the walk returns an error, which is the error value that the
    callback returned for the entity, either as it is or under layers
    put around it with [errors.Wrap] (which [errors.Cause] takes off
    again).  The callback's error depends on the entity only. *)
Theorem callback_error_is_returned_wrapped {St : Type} (w : Env)
        (f : @callback St) (errs : EntityRef -> option string) (s : scope)
        (st : State St) :
  (forall r u, fst (f r u) = errs r) ->
  exists evs,
    log (snd (walk w f s st)) = (log st ++ evs)%list /\
    forall r x,
      In r (reported evs) -> errs r = Some x ->
      (exists pre, evs = (pre ++ [EvCallback r])%list) /\
      exists err,
        fst (walk w f s st) = Failed err /\
        wraps (Foreign x) err.
Proof.
  intros Herrs.
  destruct (stops_walk w f errs Herrs s st) as (evs & E & L & O).
  exists evs. split; [exact E|]. intros r x Hin Hx.
  apply In_reported in Hin.
  assert (Hlast : exists pre, evs = (pre ++ [EvCallback r])%list).
  { destruct evs as [|a evs]; [contradiction|].
    rewrite (app_removelast_last (EvStat EmptyString)
               (l := a :: evs)) in Hin by discriminate.
    apply in_app_or in Hin. destruct Hin as [Hin|[Hin|[]]].
    - rewrite Forall_forall in L. apply L in Hin. simpl in Hin. congruence.
    - exists (removelast (a :: evs)). rewrite <- Hin.
      apply app_removelast_last. discriminate. }
  split; [exact Hlast|]. destruct Hlast as (pre & ->).
  destruct (fst (walk w f s st)) as [a|err|].
  - apply Forall_app in O. destruct O as [_ O].
    inversion O as [|? ? Hev _]. simpl in Hev. congruence.
  - exists err. split; [reflexivity|].
    destruct O as [_ B].
    exact (B pre (EvCallback r) x eq_refl Hx).
  - exfalso. exact (O pre (EvCallback r) x eq_refl Hx).
Qed.

(** The walk of the demo layout with a callback that rejects versions. *)
Lemma callback_error_is_returned_wrapped_witness :
  exists evs,
    log (snd (walk (Demo.env Demo.rankDeep Demo.invA) rejectVersions
                   (mkScope Demo.storageRoot Demo.storageRoot
                            (bare ocfl.Any)) Demo.start))
    = (log Demo.start ++ evs)%list /\
    forall r x,
      In r (reported evs) -> fst (rejectVersions r tt) = Some x ->
      (exists pre, evs = (pre ++ [EvCallback r])%list) /\
      exists err,
        fst (walk (Demo.env Demo.rankDeep Demo.invA) rejectVersions
                  (mkScope Demo.storageRoot Demo.storageRoot
                           (bare ocfl.Any)) Demo.start) = Failed err /\
        wraps (Foreign x) err.
Proof.
  apply (callback_error_is_returned_wrapped
           (Demo.env Demo.rankDeep Demo.invA) rejectVersions
           (fun r => fst (rejectVersions r tt))).
  intros r []. reflexivity.
Defined.

(** ** Enumeration below an entry point *)

Lemma treeReport_objectRoots (w : Env) (F : string -> list EntityRef)
      (d : Dirent) :
  treeReport w F (fun _ => []) d = flat_map F (objectRoots w d).
Proof.
  induction d as [p m r l IH] using Dirent_tree_ind.
  assert (Hb :
    (fix below (l : list Dirent) : list EntityRef :=
       match l with
       | [] => []
       | c :: l' => (treeReport w F (fun _ => []) c ++ below l')%list
       end) l
    = flat_map F
        ((fix below (l : list Dirent) : list string :=
            match l with
            | [] => []
            | c :: l' => (objectRoots w c ++ below l')%list
            end) l)).
  { induction IH as [|c l Hc _ IHl]; [reflexivity|].
    rewrite flat_map_app, Hc, IHl. reflexivity. }
  simpl. destruct m as [| |toDir]; [reflexivity| |];
    destruct (isObjectRoot w p); simpl; try now rewrite app_nil_r.
  - exact Hb.
  - destruct toDir; [exact Hb|reflexivity].
Qed.

Lemma treeReport_plainNodes (w : Env) (G : string -> list EntityRef)
      (d : Dirent) :
  treeReport w (fun _ => []) G d = flat_map G (plainNodes w d).
Proof.
  induction d as [p m r l IH] using Dirent_tree_ind.
  assert (Hb :
    (fix below (l : list Dirent) : list EntityRef :=
       match l with
       | [] => []
       | c :: l' => (treeReport w (fun _ => []) G c ++ below l')%list
       end) l
    = flat_map G
        ((fix below (l : list Dirent) : list string :=
            match l with
            | [] => []
            | c :: l' => (plainNodes w c ++ below l')%list
            end) l)).
  { induction IH as [|c l Hc _ IHl]; [reflexivity|].
    rewrite flat_map_app, Hc, IHl. reflexivity. }
  simpl. destruct m as [| |toDir]; [reflexivity| |];
    destruct (isObjectRoot w p); simpl; try reflexivity.
  - now rewrite Hb.
  - destruct toDir; [now rewrite Hb|reflexivity].
Qed.

Section TreeYields.
Context {St : Type}.
Variable w : Env.
Variable g : string -> Dirent -> M St bool.
Variables F G : string -> list EntityRef.
Hypothesis Hvisit :
  forall d, entryOK w d ->
    yields (fun terminal =>
              terminal = match mode d with
                         | ModeRegular => true
                         | _ => isObjectRoot w (ospath d)
                         end)
           (match mode d with
            | ModeRegular => []
            | _ => if isObjectRoot w (ospath d) then F (ospath d)
                   else G (ospath d)
            end)
           (g (ospath d) d).

(** One entry of the directory walk. *)
Lemma yields_entry (m : M St bool) (p : string) (rest : M St unit)
      (Callback : M St (option error)) (term : bool)
      (l1 l2 : list EntityRef) :
  (forall st, Callback st
              = (r <- attempt m ;;
                 match r with
                 | inl err =>
                   ret (Some (Wrap err "terminating walk due to error"))
                 | inr terminal =>
                   if terminal then ret (Some (skip SkipNode)) else ret None
                 end) st) ->
  yields (fun b => b = term) l1 m ->
  (term = false -> yields (fun _ => True) l2 rest) ->
  yields (fun _ => True) (l1 ++ if term then [] else l2)
         (err <- Callback ;;
          match err with
          | Some e => godirwalk.onError fsErrorCallback p e
          | None => rest
          end).
Proof.
  intros HC Hg Hrest st. unfold bind. rewrite (HC st).
  unfold bind, attempt.
  destruct (Hg st) as (b & st1 & e1 & E1 & -> & L1 & P1). rewrite E1.
  destruct term; simpl.
  - exists tt, st1, e1. rewrite app_nil_r. now repeat split.
  - destruct (Hrest eq_refl st1) as ([] & st2 & e2 & E2 & _ & L2 & P2).
    rewrite E2. exists tt, st2, (e1 ++ e2)%list. repeat split.
    + rewrite L2, L1, app_assoc. reflexivity.
    + rewrite reported_app, P1, P2. reflexivity.
Qed.

Lemma yields_children (l : list Dirent) :
  Forall (fun c =>
            readable w c ->
            yields (fun _ => True) (treeReport w F G c)
                   (godirwalk.walk (fsCallback g) fsErrorCallback c)) l ->
  (forall c, In c l -> readable w c) ->
  yields (fun _ => True)
    ((fix below (l : list Dirent) : list EntityRef :=
        match l with
        | [] => []
        | c :: l' => (treeReport w F G c ++ below l')%list
        end) l)
    ((fix children (l : list Dirent) : M St unit :=
        match l with
        | [] => ret tt
        | c :: l' =>
          godirwalk.walk (fsCallback g) fsErrorCallback c ;; children l'
        end) l).
Proof.
  induction 1 as [|c l Hc _ IH]; intros Hr.
  - now apply yields_ret.
  - eapply (yields_bind (fun _ => True)).
    + apply Hc, Hr. now left.
    + intros _ _. apply IH. intros c' Hc'. apply Hr. now right.
Qed.

(** The walk of a readable tree reports, node by node, what the
    callback reports at each node it visits. *)
Lemma yields_godirwalk (d : Dirent) :
  readable w d ->
  yields (fun _ => True) (treeReport w F G d)
         (godirwalk.walk (fsCallback g) fsErrorCallback d).
Proof.
  induction d as [p m r l IH] using Dirent_tree_ind. intros Hread.
  pose proof (Hread _ (subtrees_self (mkDirent p m r l))) as Hok.
  pose proof (Hvisit (mkDirent p m r l) Hok) as Hv.
  destruct Hok as (Hr & _). simpl in Hr. subst r.
  assert (Hdescend : yields (fun _ => True)
    ((fix below (l : list Dirent) : list EntityRef :=
        match l with
        | [] => []
        | c :: l' => (treeReport w F G c ++ below l')%list
        end) l)
    (emit (EvReadDir p) ;;
     (fix children (l : list Dirent) : M St unit :=
        match l with
        | [] => ret tt
        | c :: l' =>
          godirwalk.walk (fsCallback g) fsErrorCallback c ;; children l'
        end) l)).
  { apply (yields_bind (fun _ => True) _ [] _); [now apply yields_emit|].
    intros _ _. apply yields_children; [exact IH|].
    intros c Hc d' Hd'. apply Hread. eapply subtrees_child; eauto. }
  simpl godirwalk.walk. simpl treeReport. simpl in Hv.
  destruct m as [| |toDir].
  - eapply (yields_entry _ p _ _ true [] []);
      [intros st; reflexivity|exact Hv|].
    discriminate.
  - destruct (isObjectRoot w p) eqn:Eo.
    + rewrite <- (app_nil_r (F p)).
      eapply (yields_entry _ p _ _ true _ []);
        [intros st; reflexivity|exact Hv|].
      discriminate.
    + eapply (yields_entry _ p _ _ false _ _);
        [intros st; reflexivity|exact Hv|].
      intros _. exact Hdescend.
  - destruct (isObjectRoot w p) eqn:Eo.
    + rewrite <- (app_nil_r (F p)).
      eapply (yields_entry _ p _ _ true _ []);
        [intros st; reflexivity|exact Hv|].
      discriminate.
    + destruct toDir.
      * eapply (yields_entry _ p _ _ false _ _);
          [intros st; reflexivity|exact Hv|].
        intros _.
        apply (yields_bind (fun _ => True) _ [] _);
          [now apply yields_emit|].
        intros _ _. exact Hdescend.
      * eapply (yields_entry _ p _ _ false _ []);
          [intros st; reflexivity|exact Hv|].
        intros _.
        apply (yields_bind (fun _ => True) _ [] []);
          [now apply yields_emit|].
        intros _ _. now apply yields_ret.
Qed.
End TreeYields.

Lemma yields_ext {St A} (R : A -> Prop) (l : list EntityRef)
      (m m' : M St A) :
  (forall st, m st = m' st) -> yields R l m' -> yields R l m.
Proof. intros E H st. rewrite E. apply H. Qed.

Section EnumScope.
Context {St : Type}.
Variable w : Env.
Variable f : @callback St.
Variable s : scope.
Variable t : ocfl.Type'.
Hypothesis Hdeep : deepFirst w.
Hypothesis Haccept : forall r u, fst (f r u) = None.
Hypothesis Hdesired : desired s = bare t.
Hypothesis Ht : t = ocfl.Object \/ t = ocfl.Version \/ t = ocfl.File.
Hypothesis Hstart :
  Type' (startFrom s) = ocfl.Root \/
  Type' (startFrom s) = ocfl.Intermediate \/
  Type' (startFrom s) = ocfl.Object.
Hypothesis Hbelow : Type' (startFrom s) <> t.

(** Below an entry point that is shallower than the desired type,
    [contains] compares types only. *)
Lemma enumScope_contains (r : EntityRef) :
  Type' r <> ocfl.Any -> contains w s r = ocfl.eqb t (Type' r).
Proof.
  destruct Hdeep as (Hfv & Hvo & Hoi & Hor).
  intros Hr. unfold contains. rewrite Hdesired.
  change (Type' (bare t)) with t.
  change (sameCoords (bare t) r) with true.
  replace (ocfl.eqb t ocfl.Any) with false
    by (destruct Ht as [-> |[-> | ->]]; reflexivity).
  destruct (ocfl_eqb_spec (Type' r) (Type' (startFrom s))) as [E|N];
    simpl; [|reflexivity].
  rewrite E.
  replace (ocfl.eqb t (Type' (startFrom s))) with false
    by (symmetry; apply ocfl_eqb_neq; congruence).
  apply leType_false.
  destruct Ht as [-> |[-> | ->]];
    destruct Hstart as [H|[H|H]]; rewrite H in *; try lia; congruence.
Qed.

Lemma enumScope_gates :
  leType w (Type' (desired s)) ocfl.Version
  = negb (ocfl.eqb t ocfl.Object) /\
  leType w (Type' (desired s)) ocfl.File = ocfl.eqb t ocfl.File.
Proof.
  destruct Hdeep as (Hfv & Hvo & _). rewrite Hdesired. unfold leType.
  change (Type' (bare t)) with t.
  destruct Ht as [-> |[-> | ->]]; simpl; split;
    first [apply Z.leb_le; lia | apply Z.leb_gt; lia].
Qed.

Lemma enumScope_selectVersions inv object (st : State St) :
  selectVersions w s inv object st = (Done (metadata.Versions inv), st).
Proof.
  unfold selectVersions.
  destruct Hstart as [-> |[-> | ->]]; reflexivity.
Qed.

Lemma yields_when (b : bool) (r : EntityRef) :
  yields (fun _ => True) (if b then [r] else []) (when b (call f r)).
Proof.
  destruct b; simpl; [now apply yields_call | now apply yields_ret].
Qed.

Lemma yields_walkVersion (inv : metadata.Inventory) (object : EntityRef)
      (vID : string) :
  yields (fun _ => True)
         ((if ocfl.eqb t ocfl.Version then [versionOf w object vID] else [])
          ++ (if ocfl.eqb t ocfl.File
              then map (fileOf w object vID) (fst (metadata.Files inv vID))
              else []))
         (walkVersion w f s inv object vID).
Proof.
  destruct enumScope_gates as [_ Hg2].
  unfold walkVersion. fold (versionOf w object vID).
  rewrite (enumScope_contains (versionOf w object vID)) by discriminate.
  rewrite Hg2. change (Type' (versionOf w object vID)) with ocfl.Version.
  eapply (yields_bind (fun _ => True)); [apply yields_when|].
  intros _ _.
  destruct (ocfl.eqb t ocfl.File) eqn:Ef; simpl when;
    [|now apply yields_ret].
  rewrite <- flat_map_singleton.
  apply yields_forEach. intros file. unfold walkFile.
  fold (fileOf w object vID file).
  rewrite (enumScope_contains (fileOf w object vID file)) by discriminate.
  change (Type' (fileOf w object vID file)) with ocfl.File.
  rewrite Ef. simpl negb. cbv iota.
  now apply yields_call.
Qed.

Lemma entitiesOfObject_by_site (rt : EntityRef) (path : string)
      (inv : metadata.Inventory) :
  readMetadata w path = inr inv ->
  entitiesOfObject w rt t path
  = ((if ocfl.eqb t ocfl.Object then [objectOf rt inv path] else [])
     ++ (if negb (ocfl.eqb t ocfl.Object)
         then flat_map
                (fun kv =>
                   (if ocfl.eqb t ocfl.Version
                    then [versionOf w (objectOf rt inv path) (fst kv)]
                    else [])
                   ++ (if ocfl.eqb t ocfl.File
                       then map (fileOf w (objectOf rt inv path) (fst kv))
                                (fst (metadata.Files inv (fst kv)))
                       else []))
                (metadata.Versions inv)
         else []))%list.
Proof.
  intros Hinv. unfold entitiesOfObject. rewrite Hinv.
  destruct Ht as [-> |[-> | ->]]; simpl; [reflexivity| |reflexivity].
  rewrite <- flat_map_singleton. apply flat_map_ext. intros kv.
  reflexivity.
Qed.

Lemma yields_walkObject (path : string) (inv : metadata.Inventory) :
  readMetadata w path = inr inv ->
  yields (fun _ => True) (entitiesOfObject w (root s) t path)
         (walkObject w f s path).
Proof.
  intros Hinv. destruct enumScope_gates as [Hg1 _].
  rewrite (entitiesOfObject_by_site _ _ _ Hinv).
  apply (yields_ext _ _ _ _ (fun st => walkObject_loaded w f s path inv st Hinv)).
  rewrite Hg1.
  rewrite (enumScope_contains (objectOf (root s) inv path)) by discriminate.
  change (Type' (objectOf (root s) inv path)) with ocfl.Object.
  apply (yields_bind (fun _ => True) _ [] _); [now apply yields_emit|].
  intros _ _.
  eapply (yields_bind (fun _ => True)); [apply yields_when|].
  intros _ _.
  destruct (ocfl.eqb t ocfl.Object); simpl negb; cbv iota;
    [now apply yields_ret|].
  unfold walkVersions.
  intros st. unfold bind. rewrite enumScope_selectVersions.
  revert st.
  apply (yields_forEach
           (fun kv =>
              (if ocfl.eqb t ocfl.Version
               then [versionOf w (objectOf (root s) inv path) (fst kv)]
               else [])
              ++ (if ocfl.eqb t ocfl.File
                  then map (fileOf w (objectOf (root s) inv path) (fst kv))
                           (fst (metadata.Files inv (fst kv)))
                  else []))%list).
  intros kv. apply yields_walkVersion.
Qed.

Lemma yields_visit (d : Dirent) :
  entryOK w d ->
  yields (fun terminal =>
            terminal = match mode d with
                       | ModeRegular => true
                       | _ => isObjectRoot w (ospath d)
                       end)
         (match mode d with
          | ModeRegular => []
          | _ => if isObjectRoot w (ospath d)
                 then entitiesOfObject w (root s) t (ospath d) else []
          end)
         (visit w f s (ospath d) d).
Proof.
  intros (_ & Herr & Hinv). unfold visit, isObjectRoot in *.
  assert (Hreg : negb (IsDir d) && negb (IsSymlink d)
                 = match mode d with ModeRegular => true | _ => false end).
  { unfold IsDir, IsSymlink. now destruct (mode d). }
  rewrite Hreg.
  assert (Hrest : yields
    (fun terminal =>
       terminal = (let '(objectRoot, _, err) := isRoot w (ospath d) ocfl.Object
                   in objectRoot && match err with
                                    | None => true
                                    | Some _ => false
                                    end))
    (if (let '(objectRoot, _, err) := isRoot w (ospath d) ocfl.Object
         in objectRoot && match err with
                          | None => true
                          | Some _ => false
                          end)
     then entitiesOfObject w (root s) t (ospath d) else [])
    (emit (EvIsRoot (ospath d) ocfl.Object) ;;
     let '(objectRoot, _, err) := isRoot w (ospath d) ocfl.Object in
     if objectRoot && (match err with None => true | Some _ => false end)
     then walkObject w f s (ospath d) ;; ret dontGoDeeper
     else
       match err with
       | Some err => fail (Foreign err)
       | None =>
         when (negb (String.eqb (ospath d) (Addr (root s)))
               && contains w s (bare ocfl.Intermediate))
              (call f {| ID := TrimPrefix
                                 (ToSlash w (TrimPrefix (ospath d)
                                                        (Addr (root s))))
                                 "/";
                         Addr := ospath d;
                         Type' := ocfl.Intermediate;
                         Parent := Some (root s) |}) ;;
         ret goDeeper
       end)).
  { destruct (isRoot w (ospath d) ocfl.Object) as [[objectRoot x] err].
    simpl in Herr, Hinv. subst err. destruct objectRoot; simpl.
    - destruct (Hinv eq_refl) as (inv & E).
      rewrite <- (app_nil_r (entitiesOfObject _ _ _ _)).
      apply (yields_bind (fun _ => True) _ [] _); [now apply yields_emit|].
      intros _ _.
      eapply (yields_bind (fun _ => True));
        [now apply (yields_walkObject _ inv)|].
      intros _ _. now apply yields_ret.
    - rewrite (enumScope_contains (bare ocfl.Intermediate))
        by discriminate.
      change (Type' (bare ocfl.Intermediate)) with ocfl.Intermediate.
      replace (ocfl.eqb t ocfl.Intermediate) with false
        by (destruct Ht as [-> |[-> | ->]]; reflexivity).
      rewrite andb_false_r.
      apply (yields_bind (fun _ => True) _ [] []); [now apply yields_emit|].
      intros _ _.
      apply (yields_bind (fun _ => True) _ [] []); [now apply yields_ret|].
      intros _ _. now apply yields_ret. }
  destruct (mode d); [now apply yields_ret|exact Hrest|exact Hrest].
Qed.
End EnumScope.


Lemma readable_demo (rk : ocfl.Type' -> Z) :
  readable (Demo.env rk Demo.invA) Demo.tree.
Proof.
  intros d Hd. simpl in Hd.
  repeat (destruct Hd as [<-|Hd];
          [unfold entryOK; simpl; repeat split;
           try discriminate; intros _; now exists Demo.invA|]).
  contradiction.
Defined.


(** ** Enumeration of intermediate nodes *)

Lemma flat_map_filter_map {A B} (c : A -> bool) (h : A -> B) (l : list A) :
  flat_map (fun x => if c x then [h x] else []) l = map h (filter c l).
Proof.
  induction l as [|x l IH]; simpl; [reflexivity|].
  destruct (c x); simpl; now rewrite IH.
Qed.

Section IntermediateScope.
Context {St : Type}.
Variable w : Env.
Variable f : @callback St.
Variable s : scope.
Hypothesis Hdeep : deepFirst w.
Hypothesis Haccept : forall r u, fst (f r u) = None.
Hypothesis Hdesired : Type' (desired s) = ocfl.Intermediate.
Hypothesis Hstart :
  Type' (startFrom s) = ocfl.Root \/
  Type' (startFrom s) = ocfl.Intermediate.

Lemma intermediateScope_contains_bare :
  contains w s (bare ocfl.Intermediate) = true.
Proof.
  unfold contains. rewrite Hdesired. simpl.
  destruct Hstart as [-> | ->]; simpl; [reflexivity|].
  replace (sameCoords (desired s) (bare ocfl.Intermediate)) with true
    by (destruct (desired s) as [i a [p|] ty]; reflexivity).
  simpl. unfold leType. apply Z.leb_refl.
Qed.

Lemma intermediateScope_contains_object (r : EntityRef) :
  Type' r = ocfl.Object -> contains w s r = false.
Proof.
  intros Hr. unfold contains. rewrite Hdesired, Hr. simpl.
  destruct Hstart as [-> | ->]; reflexivity.
Qed.

Lemma intermediateScope_gate :
  leType w (Type' (desired s)) ocfl.Version = false.
Proof.
  destruct Hdeep as (_ & Hvo & Hoi & _). rewrite Hdesired.
  apply leType_false. lia.
Qed.

Lemma yields_walkObject_silent (path : string) (inv : metadata.Inventory) :
  readMetadata w path = inr inv ->
  yields (fun _ => True) [] (walkObject w f s path).
Proof.
  intros Hinv.
  apply (yields_ext _ _ _ _
           (fun st => walkObject_loaded w f s path inv st Hinv)).
  rewrite intermediateScope_gate.
  rewrite (intermediateScope_contains_object (objectOf (root s) inv path))
    by reflexivity.
  apply (yields_bind (fun _ => True) _ [] []); [now apply yields_emit|].
  intros _ _.
  apply (yields_bind (fun _ => True) _ [] []); [now apply yields_ret|].
  intros _ _. now apply yields_ret.
Qed.

Lemma yields_visit_intermediate (d : Dirent) :
  entryOK w d ->
  yields (fun terminal =>
            terminal = match mode d with
                       | ModeRegular => true
                       | _ => isObjectRoot w (ospath d)
                       end)
         (match mode d with
          | ModeRegular => []
          | _ => if isObjectRoot w (ospath d) then []
                 else if negb (String.eqb (ospath d) (Addr (root s)))
                      then [intermediateOf w (root s) (ospath d)]
                      else []
          end)
         (visit w f s (ospath d) d).
Proof.
  intros (_ & Herr & Hinv). unfold visit, isObjectRoot in *.
  assert (Hreg : negb (IsDir d) && negb (IsSymlink d)
                 = match mode d with ModeRegular => true | _ => false end).
  { unfold IsDir, IsSymlink. now destruct (mode d). }
  rewrite Hreg.
  assert (Hrest : yields
    (fun terminal =>
       terminal = (let '(objectRoot, _, err) := isRoot w (ospath d) ocfl.Object
                   in objectRoot && match err with
                                    | None => true
                                    | Some _ => false
                                    end))
    (if (let '(objectRoot, _, err) := isRoot w (ospath d) ocfl.Object
         in objectRoot && match err with
                          | None => true
                          | Some _ => false
                          end)
     then []
     else if negb (String.eqb (ospath d) (Addr (root s)))
          then [intermediateOf w (root s) (ospath d)]
          else [])
    (emit (EvIsRoot (ospath d) ocfl.Object) ;;
     let '(objectRoot, _, err) := isRoot w (ospath d) ocfl.Object in
     if objectRoot && (match err with None => true | Some _ => false end)
     then walkObject w f s (ospath d) ;; ret dontGoDeeper
     else
       match err with
       | Some err => fail (Foreign err)
       | None =>
         when (negb (String.eqb (ospath d) (Addr (root s)))
               && contains w s (bare ocfl.Intermediate))
              (call f {| ID := TrimPrefix
                                 (ToSlash w (TrimPrefix (ospath d)
                                                        (Addr (root s))))
                                 "/";
                         Addr := ospath d;
                         Type' := ocfl.Intermediate;
                         Parent := Some (root s) |}) ;;
         ret goDeeper
       end)).
  { destruct (isRoot w (ospath d) ocfl.Object) as [[objectRoot x] err].
    simpl in Herr, Hinv. subst err. destruct objectRoot; simpl.
    - destruct (Hinv eq_refl) as (inv & E).
      apply (yields_bind (fun _ => True) _ [] []); [now apply yields_emit|].
      intros _ _.
      apply (yields_bind (fun _ => True) _ [] []);
        [now apply (yields_walkObject_silent _ inv)|].
      intros _ _. now apply yields_ret.
    - rewrite intermediateScope_contains_bare, andb_true_r.
      fold (intermediateOf w (root s) (ospath d)).
      apply (yields_bind (fun _ => True) _ [] _); [now apply yields_emit|].
      intros _ _.
      rewrite <- (app_nil_r (if negb _ then _ else _)).
      eapply (yields_bind (fun _ => True)).
      + destruct (negb (ospath d =? Addr (root s))%string); simpl;
          [now apply yields_call|now apply yields_ret].
      + intros _ _. now apply yields_ret. }
  destruct (mode d); [now apply yields_ret|exact Hrest|exact Hrest].
Qed.
End IntermediateScope.

(** A walk for intermediate nodes entered at a root or at an
    intermediate node, whose start path is a directory with a readable
    tree below it, and with a callback that accepts every entity,
    returns without an error and reports every directory and, below the
    start directory, every symbolic link (whatever the link points to)
    that the walk visits and the probe does not take for an object
    root, the start directory included, except the one whose path is
    the address of the storage root; no object is reported.  The storage root itself is reported
    first when it is the entry point and [Root <= Intermediate] holds
    for the type constants. *)
Theorem intermediate_walk_reports_plain_nodes {St : Type} (w : Env)
        (f : @callback St) (entry : EntityRef) (st st1 : State St)
        (s : scope) (tree : Dirent) :
  deepFirst w ->
  (forall r u, fst (f r u) = None) ->
  Type' entry = ocfl.Root \/ Type' entry = ocfl.Intermediate ->
  newScope w entry ocfl.Intermediate st = (Done s, st1) ->
  stat w (if (Addr entry =? EmptyString)%string then Addr (root s)
          else Addr entry) = inr tree ->
  mode tree = ModeDir ->
  readable w tree ->
  fst (walk w f s st1) = Done tt /\
  exists evs,
    log (snd (walk w f s st1)) = (log st1 ++ evs)%list /\
    reported evs
    = ((if ocfl.eqb (Type' entry) ocfl.Root
           && leType w ocfl.Root ocfl.Intermediate
        then [entry] else [])
       ++ map (intermediateOf w (root s))
              (filter (fun p => negb (String.eqb p (Addr (root s))))
                      (plainNodes w tree)))%list.
Proof.
  intros Hdeep Hacc Hentry Hs Hstat Hdir Hread.
  rewrite newScope_run in Hs.
  destruct (findRoot w entry ocfl.Root) as [e|rt]; [discriminate|].
  injection Hs as <- _. simpl root in *.
  set (s := {| root := rt; startFrom := entry;
               desired := if ocfl.eqb (Type' entry) ocfl.Intermediate
                          then entry else bare ocfl.Intermediate |}).
  assert (Hd : Type' (desired s) = ocfl.Intermediate).
  { simpl. destruct Hentry as [H|H]; rewrite H; simpl; [reflexivity|exact H]. }
  assert (Hlt : ltType w (Type' (startFrom s)) ocfl.Object = false).
  { destruct Hdeep as (_ & _ & Hoi & Hor). apply ltType_false. simpl.
    destruct Hentry as [-> | ->]; lia. }
  assert (Hc : ocfl.eqb (Type' entry) ocfl.Root && contains w s entry
               = ocfl.eqb (Type' entry) ocfl.Root
                 && leType w ocfl.Root ocfl.Intermediate).
  { destruct Hentry as [H|H].
    - unfold contains. simpl desired. simpl startFrom. rewrite H. simpl.
      reflexivity.
    - rewrite H. reflexivity. }
  assert (Hy : yields (fun _ => True)
                 ((if ocfl.eqb (Type' entry) ocfl.Root
                      && leType w ocfl.Root ocfl.Intermediate
                   then [entry] else [])
                  ++ map (intermediateOf w rt)
                         (filter (fun p => negb (String.eqb p (Addr rt)))
                                 (plainNodes w tree)))%list
                 (walk w f s)).
  { apply (yields_ext _ _ _
             (when (ocfl.eqb (Type' entry) ocfl.Root && contains w s entry)
                   (call f entry) ;;
              r <- attempt (fsWalk w (if (Addr entry =? EmptyString)%string
                                      then Addr rt else Addr entry)
                                   (visit w f s)) ;;
              match r with
              | inl err => fail (Wrap err "error performing walk")
              | inr _ => ret tt
              end)).
    { intros st'. unfold walk. rewrite Hlt. reflexivity. }
    rewrite Hc.
    eapply (yields_bind (fun _ => True)).
    { destruct (ocfl.eqb (Type' entry) ocfl.Root
                && leType w ocfl.Root ocfl.Intermediate); simpl;
        [now apply yields_call|now apply yields_ret]. }
    intros _ _.
    rewrite <- (app_nil_r (map _ _)).
    eapply (yields_bind _ _ _ []).
    - apply yields_attempt. unfold fsWalk. rewrite Hstat.
      rewrite <- flat_map_filter_map, <- treeReport_plainNodes.
      apply (yields_bind (fun _ => True) _ [] _); [now apply yields_emit|].
      intros _ _. unfold godirwalk.Walk, IsDir. rewrite Hdir.
      apply (yields_godirwalk w (visit w f s) (fun _ => [])
               (fun p => if negb (String.eqb p (Addr rt))
                         then [intermediateOf w rt p] else []));
        [|exact Hread].
      intros d Hd'.
      apply (yields_visit_intermediate w f s); assumption.
    - intros r (a & -> & _). now apply yields_ret. }
  destruct (Hy st1) as ([] & st' & evs & E & _ & L & P).
  rewrite E. split; [reflexivity|]. exists evs. now split.
Qed.

(** In the demo layout the only directory below the storage root that is
    not an object root is [/ocfl/ab]; under the order of the demo the
    storage root is not reported. *)
Lemma intermediate_walk_reports_plain_nodes_witness :
  fst (walk (Demo.env Demo.rankDeep Demo.invA) Demo.accept
            (mkScope Demo.storageRoot Demo.storageRoot
                     (bare ocfl.Intermediate))
            (logged Demo.start (EvFindRoot Demo.storageRoot ocfl.Root)))
  = Done tt /\
  exists evs,
    log (snd (walk (Demo.env Demo.rankDeep Demo.invA) Demo.accept
                   (mkScope Demo.storageRoot Demo.storageRoot
                            (bare ocfl.Intermediate))
                   (logged Demo.start
                           (EvFindRoot Demo.storageRoot ocfl.Root))))
    = (log (logged Demo.start (EvFindRoot Demo.storageRoot ocfl.Root))
         ++ evs)%list /\
    reported evs
    = [{| ID := "ab"; Addr := "/ocfl/ab"; Parent := Some Demo.storageRoot;
          Type' := ocfl.Intermediate |}].
Proof.
  apply (intermediate_walk_reports_plain_nodes
           (Demo.env Demo.rankDeep Demo.invA) Demo.accept Demo.storageRoot
           Demo.start
           (logged Demo.start (EvFindRoot Demo.storageRoot ocfl.Root))
           (mkScope Demo.storageRoot Demo.storageRoot
                    (bare ocfl.Intermediate))
           Demo.tree).
  - unfold deepFirst. simpl. lia.
  - intros r u. reflexivity.
  - left. reflexivity.
  - reflexivity.
  - reflexivity.
  - reflexivity.
  - apply readable_demo.
Defined.

(** ** The identifier of an intermediate node *)

Lemma substring_all (s : string) :
  String.substring 0 (String.length s) s = s.
Proof. induction s as [|a s IH]; simpl; [reflexivity|now rewrite IH]. Qed.

Lemma prefix_app (pre s : string) : String.prefix pre (pre ++ s) = true.
Proof.
  induction pre as [|a pre IH]; simpl; [now destruct s|].
  destruct (Ascii.ascii_dec a a) as [_|N]; [exact IH|congruence].
Qed.

Lemma substring_app (pre s : string) :
  String.substring (String.length pre)
                   (String.length (pre ++ s) - String.length pre) (pre ++ s)
  = s.
Proof.
  induction pre as [|a pre IH]; simpl; [|exact IH].
  rewrite Nat.sub_0_r. apply substring_all.
Qed.

Lemma TrimPrefix_app (pre s : string) : TrimPrefix (pre ++ s) pre = s.
Proof. unfold TrimPrefix. now rewrite prefix_app, substring_app. Qed.

(** The identifier of a reported intermediate node is the path of its
    directory relative to the storage root, without the leading slash,
    where [filepath.ToSlash] leaves the relative path as it is (as it
    does where the separator is the slash). *)
Theorem intermediate_ID_is_relative_path (w : Env) (rt : EntityRef)
        (rel ospath : string) :
  ospath = (Addr rt ++ "/" ++ rel)%string ->
  ToSlash w ("/" ++ rel)%string = ("/" ++ rel)%string ->
  ID (intermediateOf w rt ospath) = rel.
Proof.
  intros -> Hs. unfold intermediateOf. cbn [ID].
  rewrite TrimPrefix_app, Hs. apply (TrimPrefix_app "/" rel).
Qed.

Lemma intermediate_ID_is_relative_path_witness :
  ID (intermediateOf (Demo.env Demo.rankDeep Demo.invA) Demo.storageRoot
                     "/ocfl/ab/cd") = "ab/cd".
Proof.
  apply (intermediate_ID_is_relative_path
           (Demo.env Demo.rankDeep Demo.invA) Demo.storageRoot
           "ab/cd" "/ocfl/ab/cd");
    reflexivity.
Defined.

(** ** The resolver context *)

Section Init.
Import context.

Lemma last_cons_default {A} (x : A) (l : list A) (d d' : A) :
  last (x :: l) d = last (x :: l) d'.
Proof.
  revert x. induction l as [|y l IH]; intros x; [reflexivity|].
  change (last (y :: l) d = last (y :: l) d'). apply IH.
Qed.

Lemma last_app_default {A} (l1 l2 : list A) (d : A) :
  last (l1 ++ l2) d = last l2 (last l1 d).
Proof.
  revert d. induction l1 as [|x l1 IH]; intros d; [reflexivity|].
  destruct l1 as [|y l1].
  - destruct l2 as [|z l2]; [reflexivity|].
    change (last (z :: l2) d = last (z :: l2) x). apply last_cons_default.
  - change (last ((y :: l1) ++ l2) d = last l2 (last (y :: l1) d)).
    apply IH.
Qed.

Lemma fold_left_store (rs : list EntityRef) (cxt : Cxt) :
  fold_left store rs cxt
  = {| root := last (map Some rs) (root cxt); config := config cxt |}.
Proof.
  revert cxt. induction rs as [|r rs IH]; intros cxt.
  - now destruct cxt.
  - simpl fold_left. rewrite IH. simpl config. f_equal.
    change (map Some (r :: rs)) with ([Some r] ++ map Some rs)%list.
    rewrite last_app_default. reflexivity.
Qed.

Lemma rangeDrivers_all_fail (cfg : Config) (ds : list Driver) (cxt : Cxt) :
  Forall (fun d => snd (probe cfg d) <> None) ds ->
  rangeDrivers cfg ds cxt = (inl "No suitable driver found", ds).
Proof.
  intros H. revert cxt. induction H as [|d ds Hd _ IH]; intros cxt.
  - reflexivity.
  - simpl. unfold probe in Hd.
    destruct (Walk d _ _) as [rs [e|]]; [|now contradiction Hd].
    rewrite IH. reflexivity.
Qed.

Lemma rangeDrivers_first_success (cfg : Config) (pre post : list Driver)
      (d : Driver) (cxt : Cxt) :
  Forall (fun d => snd (probe cfg d) <> None) pre ->
  snd (probe cfg d) = None ->
  rangeDrivers cfg (pre ++ d :: post) cxt
  = (inr {| root := last (map Some (flat_map (fun d => fst (probe cfg d))
                                             (pre ++ [d])))
                         (root cxt);
            config := config cxt |},
     (pre ++ [d])%list).
Proof.
  intros H Hd. revert cxt. induction H as [|x pre Hx _ IH]; intros cxt.
  - simpl. unfold probe in *.
    destruct (Walk d _ _) as [rs [e|]]; [discriminate|].
    rewrite fold_left_store, app_nil_r. reflexivity.
  - simpl. unfold probe in Hx.
    destruct (Walk x _ _) as [rs [e|]] eqn:Ex; [|now contradiction Hx].
    rewrite IH, fold_left_store. simpl.
    unfold probe at 2. rewrite Ex. simpl fst.
    rewrite map_app, last_app_default. reflexivity.
Qed.
(** The loop either finds every driver failing, or stops at the first
    one that does not. *)
Lemma rangeDrivers_cases (cfg : Config) (ds : list Driver) (cxt : Cxt) :
  (Forall (fun d => snd (probe cfg d) <> None) ds /\
   rangeDrivers cfg ds cxt = (inl "No suitable driver found", ds)) \/
  (exists pre d post,
      ds = (pre ++ d :: post)%list /\
      Forall (fun d => snd (probe cfg d) <> None) pre /\
      snd (probe cfg d) = None /\
      exists c, rangeDrivers cfg ds cxt = (inr c, (pre ++ [d])%list)).
Proof.
  induction ds as [|x ds IH].
  - left. split; [constructor|reflexivity].
  - destruct (snd (probe cfg x)) as [e|] eqn:Ex.
    + destruct IH as [[Hall _]|(pre & d & post & E & Hpre & Hd & _)].
      * left. assert (H : Forall (fun d => snd (probe cfg d) <> None)
                                 (x :: ds)).
        { constructor; [rewrite Ex; discriminate|exact Hall]. }
        split; [exact H|]. apply rangeDrivers_all_fail. exact H.
      * right. exists (x :: pre), d, post.
        assert (H : Forall (fun d => snd (probe cfg d) <> None) (x :: pre)).
        { constructor; [rewrite Ex; discriminate|exact Hpre]. }
        split; [rewrite E; reflexivity|].
        split; [exact H|]. split; [exact Hd|].
        rewrite E. eexists.
        apply (rangeDrivers_first_success cfg (x :: pre) post d cxt H Hd).
    + right. exists [], x, ds.
      split; [reflexivity|]. split; [constructor|]. split; [exact Ex|].
      eexists.
      apply (rangeDrivers_first_success cfg [] ds x cxt (Forall_nil _) Ex).
Qed.
End Init.

(** [Init] fails exactly when the configuration names no root or every
    driver returns an error from its walk; the error is then always the
    same one, whatever the drivers returned.  Without a root no driver
    is called; otherwise a failing [Init] has called them all. *)
Theorem Init_fails_iff (cfg : context.Config) :
  ((exists e, fst (context.Init cfg) = inl e) <->
   context.Root cfg = EmptyString \/
   Forall (fun d => snd (context.probe cfg d) <> None)
          (context.Drivers cfg)) /\
  (forall e, fst (context.Init cfg) = inl e ->
             e = "No suitable driver found" /\
             snd (context.Init cfg)
             = if String.eqb (context.Root cfg) EmptyString then []
               else context.Drivers cfg).
Proof.
  unfold context.Init.
  destruct (String.eqb_spec (context.Root cfg) EmptyString) as [E|N];
    cbn [negb].
  - split.
    + split; [intros _; left; exact E|].
      intros _. eexists. reflexivity.
    + intros e H. cbn [fst] in H. injection H as <-.
      split; reflexivity.
  - destruct (rangeDrivers_cases cfg (context.Drivers cfg)
                {| context.root := None; context.config := cfg |})
      as [[Hall ->]|(pre & d & post & E & Hpre & Hd & c & ->)].
    + split.
      * split; [intros _; right; exact Hall|].
        intros _. eexists. reflexivity.
      * intros e H. cbn [fst] in H. injection H as <-.
        split; reflexivity.
    + cbn [fst snd]. split.
      * split; [intros (e & He); discriminate He|].
        intros [H|H]; [contradiction|]. exfalso.
        rewrite E in H. apply Forall_app in H. destruct H as (_ & H).
        inversion H as [|? ? H1 _]. apply H1. exact Hd.
      * intros e He. discriminate He.
Qed.

(** The first driver whose walk returns no error decides: [Init]
    succeeds, the drivers after it are not called, and the root of the
    returned context is the last entity that any of the drivers called
    so far has handed to the callback, those that failed included; it
    is nil if none has handed over any. *)
Theorem Init_first_success_wins (cfg : context.Config)
        (pre post : list context.Driver) (d : context.Driver) :
  context.Root cfg <> EmptyString ->
  context.Drivers cfg = (pre ++ d :: post)%list ->
  Forall (fun d => snd (context.probe cfg d) <> None) pre ->
  snd (context.probe cfg d) = None ->
  context.Init cfg
  = (inr {| context.root :=
              last (map Some
                        (flat_map (fun d => fst (context.probe cfg d))
                                  (pre ++ [d])))
                   None;
            context.config := cfg |},
     (pre ++ [d])%list).
Proof.
  intros HR HD Hpre Hd. unfold context.Init.
  apply String.eqb_neq in HR. rewrite HR, HD. simpl negb. cbv iota.
  exact (rangeDrivers_first_success
           cfg pre post d
           {| context.root := None; context.config := cfg |} Hpre Hd).
Qed.

(** The first driver hands over a root and fails, the second succeeds
    without handing over anything: the context holds the root of the
    first, and the third driver is not called. *)
Lemma Init_first_success_wins_witness :
  context.Init DemoInit.cfg
  = (inr {| context.root := Some DemoInit.strayRoot;
            context.config := DemoInit.cfg |},
     [DemoInit.broken; DemoInit.silent]).
Proof.
  apply (Init_first_success_wins
           DemoInit.cfg [DemoInit.broken] [DemoInit.fileDriver]
           DemoInit.silent).
  - discriminate.
  - reflexivity.
  - constructor; [discriminate|constructor].
  - reflexivity.
Defined.

(** ** The walk touches only the tree below its start directory *)

Section LogsMore.
Context {St : Type}.

Lemma logs_ext {A} (Q : Event -> Prop) (m m' : M St A) :
  (forall st, m st = m' st) -> logs Q m' -> logs Q m.
Proof. intros E H st. rewrite E. apply H. Qed.

Lemma logs_weaken {A} (Q Q' : Event -> Prop) (m : M St A) :
  (forall ev, Q ev -> Q' ev) -> logs Q m -> logs Q' m.
Proof.
  intros HQ H st. destruct (H st) as (evs & E & F).
  exists evs. split; [exact E|]. eapply Forall_impl; eauto.
Qed.

Lemma logs_attempt {A} (Q : Event -> Prop) (m : M St A) :
  logs Q m -> logs Q (attempt m).
Proof.
  intros H st. unfold attempt. destruct (H st) as (evs & E & F).
  exists evs. destruct (m st) as [[a|e|] st1]; simpl in *; auto.
Qed.

Lemma logs_onError (Q : Event -> Prop) (p : string) (e : error) :
  logs Q (@godirwalk.onError St fsErrorCallback p e).
Proof.
  unfold godirwalk.onError. destruct (fsErrorCallback p e);
    [apply logs_fail|apply logs_ret].
Qed.

Variable w : Env.
Variable f : @callback St.
Variable s : scope.
Variable dir : string.
Variable tree : Dirent.

Lemma logs_visit (d : Dirent) :
  In d (subtrees tree) ->
  logs (walkEvent w dir tree) (visit w f s (ospath d) d).
Proof.
  intros Hin. unfold visit.
  destruct (negb (IsDir d) && negb (IsSymlink d)) eqn:Hreg;
    [apply logs_ret|].
  assert (Hmode : mode d <> ModeRegular).
  { intros E. unfold IsDir, IsSymlink in Hreg. rewrite E in Hreg.
    discriminate. }
  apply logs_bind.
  { apply logs_emit. simpl. split; [reflexivity|]. now exists d. }
  intros _.
  destruct (isRoot w (ospath d) ocfl.Object) as [[objectRoot x] err] eqn:E.
  destruct (objectRoot && _) eqn:Eo.
  - apply logs_bind; [|intros _; apply logs_ret].
    unfold walkObject. apply logs_bind.
    { apply logs_emit. simpl. split; [|now exists d].
      unfold objectRootAt. rewrite E. simpl.
      destruct objectRoot; [|discriminate]. now destruct err. }
    intros _. apply logs_bind.
    { destruct (readMetadata w (ospath d)); [apply logs_fail|apply logs_ret]. }
    intros inv. apply logs_bind.
    { apply logs_when. now apply logs_call. }
    intros _. destruct (leType _ _ _); [|apply logs_ret].
    apply (logs_weaken manifestEvent); [|apply logs_walkVersions].
    intros [] H; simpl in *; auto; contradiction.
  - destruct err; [apply logs_fail|].
    apply logs_bind; [|intros _; apply logs_ret].
    apply logs_when. now apply logs_call.
Qed.

Lemma logs_children (l : list Dirent) :
  Forall (fun c =>
            (forall d', In d' (subtrees c) -> In d' (subtrees tree)) ->
            logs (walkEvent w dir tree)
                 (godirwalk.walk (fsCallback (visit w f s))
                                 fsErrorCallback c)) l ->
  (forall c d', In c l -> In d' (subtrees c) -> In d' (subtrees tree)) ->
  logs (walkEvent w dir tree)
    ((fix children (l : list Dirent) : M St unit :=
        match l with
        | [] => ret tt
        | c :: l' =>
          godirwalk.walk (fsCallback (visit w f s)) fsErrorCallback c ;;
          children l'
        end) l).
Proof.
  induction 1 as [|c l Hc _ IH]; intros Hsub; [apply logs_ret|].
  apply logs_bind.
  - apply Hc. intros d' Hd'. apply (Hsub c d'); [now left|exact Hd'].
  - intros _. apply IH. intros c' d' Hc' Hd'.
    apply (Hsub c' d'); [now right|exact Hd'].
Qed.

Lemma logs_godirwalk (d : Dirent) :
  (forall d', In d' (subtrees d) -> In d' (subtrees tree)) ->
  logs (walkEvent w dir tree)
       (godirwalk.walk (fsCallback (visit w f s)) fsErrorCallback d).
Proof.
  induction d as [p m r l IH] using Dirent_tree_ind. intros Hsub.
  pose proof (Hsub _ (subtrees_self (mkDirent p m r l))) as Hself.
  assert (Hdescend : m = ModeDir \/ m = ModeSymlink true ->
    logs (walkEvent w dir tree)
    (emit (EvReadDir p) ;;
     match r with
     | Some e => godirwalk.onError fsErrorCallback p (Foreign e)
     | None =>
       (fix children (l : list Dirent) : M St unit :=
          match l with
          | [] => ret tt
          | c :: l' =>
            godirwalk.walk (fsCallback (visit w f s)) fsErrorCallback c ;;
            children l'
          end) l
     end)).
  { intros Hm. apply logs_bind.
    - apply logs_emit. simpl. exists (mkDirent p m r l). auto.
    - intros _. destruct r; [apply logs_onError|].
      apply logs_children; [exact IH|].
      intros c d' Hc Hd'. apply Hsub.
      eapply subtrees_child; [|exact Hd']. exact Hc. }
  simpl. apply logs_bind.
  - unfold fsCallback. apply logs_bind.
    + apply logs_attempt. apply (logs_visit (mkDirent p m r l)). exact Hself.
    + intros [e|[|]]; apply logs_ret.
  - intros [e|]; [apply logs_onError|].
    destruct m as [| |toDir].
    + apply logs_ret.
    + apply Hdescend. now left.
    + apply logs_bind.
      * apply logs_emit. simpl. right.
        exists (mkDirent p (ModeSymlink toDir) r l), toDir. auto.
      * intros _. destruct r; [apply logs_onError|].
        destruct toDir; [apply Hdescend; now right|apply logs_ret].
Qed.
End LogsMore.

(** The walk touches only the tree below its start directory.  Whatever
    the callback and the scope: the walk stats the start directory and
    links of its tree; it probes directories and links of the tree for
    an object root, and never a regular file; it loads an inventory only
    at such an entry that the probe has taken for an object root; it
    lists only directories of the tree and links to directories; beyond
    that it looks up enclosing entities and calls the callback. *)
Theorem walk_touches_only_the_tree {St : Type} (w : Env) (f : @callback St)
        (s : scope) (st : State St) (node : EntityRef) (tree : Dirent) :
  startNode w s = inr node ->
  stat w (startPathOf s node) = inr tree ->
  exists evs,
    log (snd (walk w f s st)) = (log st ++ evs)%list /\
    Forall (walkEvent w (startPathOf s node) tree) evs.
Proof.
  intros Hnode Hstat.
  assert (Hrest : logs (walkEvent w (startPathOf s node) tree)
    (when (ocfl.eqb (Type' node) ocfl.Root && contains w s node)
          (call f node) ;;
     r <- attempt (fsWalk w (startPathOf s node) (visit w f s)) ;;
     match r with
     | inl err => fail (Wrap err "error performing walk")
     | inr _ => @ret St unit tt
     end)).
  { apply logs_bind; [apply logs_when; now apply logs_call|].
    intros _. apply logs_bind.
    - apply logs_attempt. unfold fsWalk. rewrite Hstat.
      apply logs_bind; [apply logs_emit; simpl; now left|].
      intros _. unfold godirwalk.Walk.
      destruct (IsDir tree); [|apply logs_fail].
      apply logs_godirwalk. auto.
    - intros [e|a]; [apply logs_fail|apply logs_ret]. }
  unfold startNode in Hnode.
  destruct (ltType w (Type' (startFrom s)) ocfl.Object) eqn:Hlt.
  - assert (Hall : logs (walkEvent w (startPathOf s node) tree)
                        (walk w f s)).
    { apply (logs_ext _ _
               (emit (EvFindRoot (startFrom s) ocfl.Object) ;;
                when (ocfl.eqb (Type' node) ocfl.Root && contains w s node)
                     (call f node) ;;
                r <- attempt (fsWalk w (startPathOf s node) (visit w f s)) ;;
                match r with
                | inl err => fail (Wrap err "error performing walk")
                | inr _ => ret tt
                end)).
      - intros st'. unfold walk. rewrite Hlt.
        unfold callFindRoot, bind, emit, ret, orFail. simpl.
        rewrite Hnode. reflexivity.
      - apply logs_bind; [apply logs_emit; exact I|].
        intros _. exact Hrest. }
    exact (Hall st).
  - injection Hnode as <-.
    assert (Hall : logs (walkEvent w (startPathOf s (startFrom s)) tree)
                        (walk w f s)).
    { refine (logs_ext _ _ _ _ Hrest).
      intros st'. unfold walk. rewrite Hlt. reflexivity. }
    exact (Hall st).
Qed.

Lemma walk_touches_only_the_tree_witness :
  exists evs,
    log (snd (walk (Demo.env Demo.rankDeep Demo.invA) Demo.accept
                   (mkScope Demo.storageRoot Demo.storageRoot
                            (bare ocfl.Any)) Demo.start))
    = (log Demo.start ++ evs)%list /\
    Forall (walkEvent (Demo.env Demo.rankDeep Demo.invA) "/ocfl" Demo.tree)
           evs.
Proof.
  apply (walk_touches_only_the_tree
           (Demo.env Demo.rankDeep Demo.invA) Demo.accept
           (mkScope Demo.storageRoot Demo.storageRoot (bare ocfl.Any))
           Demo.start Demo.storageRoot Demo.tree);
    reflexivity.
Defined.
